(** * rigpage: the XK852 serial terminal page (src/index.ts)

    A shallow embedding of the page's frame codec, frequency command, port
    registry and connection life cycle, with the properties of its
    specification stated over the embedding.

    Conventions.
    - A JavaScript string is the list of its UTF-16 code units ([jsstring]).
    - A [Uint8Array] is the list of its elements, each a [Z] in [0, 256).
    - A Number is an IEEE 754 binary64 value, with the division of the
      Standard Library's [SpecFloat].
    - Module-level variables and the parts of the document the code touches
      are the fields of one record, [Page], threaded through every function.
    - An [async] function is a resumable machine: it runs from one [await] to
      the next, and what the host settles the awaited promise with is the
      input of the next run. *)

From Stdlib Require Import ZArith Ascii String Lia Lqa QArith Qround Qpower.
From Stdlib Require Import SpecFloat.
From stdpp Require Import base tactics option list.
From Equations Require Import Equations.

Local Open Scope Z_scope.

(** ** JavaScript strings *)

Definition jsstring := list Z.

(** A literal: the code units of an ASCII string. *)
Definition js (s : string) : jsstring :=
  map (fun a => Z.of_N (N_of_ascii a)) (list_ascii_of_string s).
Arguments js : simpl never.

(** The line feed of the template literals, written [\n] in the source. *)
Definition LF : jsstring := [10].

(** The range of a code unit, and of an element of a [Uint8Array]. *)
Definition is_code_unit (c : Z) : Prop := 0 <= c < 0x10000.
Definition is_byte (b : Z) : Prop := 0 <= b < 256.

(** [===] on strings. *)
Definition str_eqb (a b : jsstring) : bool := bool_decide (a = b).

(** ** Exceptions and completions *)

(** What a [catch (e)] clause can receive: an object for which
    [e instanceof Error] holds, with its [message], or any other value. *)
Inductive Exn :=
| ErrorObj (message : jsstring)
| NonError (tag : nat).

Definition instanceofError (e : Exn) : bool :=
  match e with ErrorObj _ => true | NonError _ => false end.

(** The result of a synchronous call. *)
Inductive Completion (A : Type) :=
| Normal (a : A)
| Throw (e : Exn).
Arguments Normal {A} a.
Arguments Throw {A} e.

Definition bindC {A B} (c : Completion A) (k : A -> Completion B) : Completion B :=
  match c with
  | Normal a => k a
  | Throw e => Throw e
  end.

Notation "x <-! c ; k" := (bindC c (fun x => k))
  (at level 20, c at level 100, k at level 200).

(** ** The platform's text encoder (line 42: [new TextEncoder()]) *)

Module TextEncoder.

Definition is_lead (c : Z) : bool := (0xD800 <=? c) && (c <=? 0xDBFF).
Definition is_trail (c : Z) : bool := (0xDC00 <=? c) && (c <=? 0xDFFF).

(** UTF-8 bytes of one scalar value. *)
Definition encode_scalar (cp : Z) : list Z :=
  if cp <? 0x80 then [cp]
  else if cp <? 0x800 then
    [Z.lor 0xC0 (Z.shiftr cp 6); Z.lor 0x80 (Z.land cp 0x3F)]
  else if cp <? 0x10000 then
    [Z.lor 0xE0 (Z.shiftr cp 12);
     Z.lor 0x80 (Z.land (Z.shiftr cp 6) 0x3F);
     Z.lor 0x80 (Z.land cp 0x3F)]
  else
    [Z.lor 0xF0 (Z.shiftr cp 18);
     Z.lor 0x80 (Z.land (Z.shiftr cp 12) 0x3F);
     Z.lor 0x80 (Z.land (Z.shiftr cp 6) 0x3F);
     Z.lor 0x80 (Z.land cp 0x3F)].

(** [encode]: a surrogate pair is one scalar value, a lone surrogate is
    replaced by U+FFFD, every other code unit is its own scalar value. *)
Fixpoint encode (s : jsstring) : list Z :=
  match s with
  | [] => []
  | c :: rest =>
      if is_lead c then
        match rest with
        | d :: rest' =>
            if is_trail d then
              encode_scalar (0x10000 + (c - 0xD800) * 0x400 + (d - 0xDC00))
                ++ encode rest'
            else encode_scalar 0xFFFD ++ encode rest
        | [] => encode_scalar 0xFFFD
        end
      else if is_trail c then encode_scalar 0xFFFD ++ encode rest
      else encode_scalar c ++ encode rest
  end.

End TextEncoder.

(** ** Typed arrays, as far as [toXK852Cmd] uses them *)

Module Uint8Array.

(** [new Uint8Array(n)]: [n] zero bytes. *)
Definition make (n : nat) : list Z := replicate n 0.

(** [a[i] = v]: the value is stored modulo 256; an index outside the array
    is ignored. *)
Definition store (a : list Z) (i : nat) (v : Z) : list Z :=
  <[i := v mod 256]> a.

(** [a.set(src, offset)] with a [Uint8Array] source: a [RangeError] when the
    source does not fit, a byte-wise copy otherwise. *)
Definition set (a src : list Z) (offset : nat) : Completion (list Z) :=
  if (length a <? offset + length src)%nat
  then Throw (ErrorObj (js "offset is out of bounds"))
  else Normal (list_inserts offset src a).

End Uint8Array.

(** ** The frame codec (lines 374-381) *)

Definition toXK852Cmd (cmd : jsstring) : Completion (list Z) :=
  let m := TextEncoder.encode cmd in
  let msg := Uint8Array.make (length m + 2) in
  let msg := Uint8Array.store msg 0 10 in
  msg <-! Uint8Array.set msg m 1;
  let msg := Uint8Array.store msg (length m + 1) 13 in
  Normal msg.

(** ** Numbers and strings of the frequency command *)

(** Decimal digits of a non-negative integer, most significant first. *)
Equations? digits (n : Z) : jsstring by wf (Z.to_nat n) lt :=
  digits n with Z_lt_dec n 10 := {
    | left _ := [48 + n];
    | right _ := digits (n / 10) ++ [48 + n mod 10] }.
Proof.
  assert (n / 10 < n) by (apply Z.div_lt; lia).
  assert (0 <= n / 10) by (apply Z.div_pos; lia).
  lia.
Qed.

(** [String(n)] for an integer [n] (below 10^21 in absolute value, where
    JavaScript prints every digit). *)
Definition Number_toString (n : Z) : jsstring :=
  if n <? 0 then js "-" ++ digits (- n) else digits n.

(** A Number is an IEEE 754 binary64 value, as the Standard Library
    specifies it ([SpecFloat], with 53 bits of precision and the exponent
    bound 1024): NaN, a zero or an infinity with its sign, or
    [S754_finite s m e], which is [(-1)^s * m * 2^e]. *)
Definition Number := spec_float.

(** The values a Number can have: the mantissa of a finite one is normalised
    and has at most 53 bits. *)
Definition Number_valid (x : Number) : bool := valid_binary 53 1024 x.

(** [Number.isFinite(x)]. *)
Definition isFinite (x : Number) : bool :=
  match x with
  | S754_zero _ | S754_finite _ _ _ => true
  | _ => false
  end.

(** The rational a finite Number stands for. *)
Definition Number_value (x : Number) : Q :=
  match x with
  | S754_finite s m e => (inject_Z (cond_Zopp s (Z.pos m)) * 2 ^ e)%Q
  | _ => 0%Q
  end.

(** The Number of an integer literal: the nearest binary64 value. *)
Definition Number_of_Z (n : Z) : Number := binary_normalize 53 1024 n 0 false.

(** [x / y]: the binary64 division, rounded to the nearest value, ties to
    even. *)
Definition Number_div (x y : Number) : Number := SFdiv 53 1024 x y.

(** The integer of sign [s] and magnitude [n], as a Number, written with the
    exponent 0; the sign of a zero is kept. *)
Definition integral (s : bool) (n : Z) : Number :=
  match n with
  | Z.pos k => S754_finite s k 0
  | _ => S754_zero s
  end.

(** [Math.round(x)]: the integer nearest to [x], a half rounding towards plus
    infinity, with the sign of [x]; NaN, the infinities, the zeros and the
    Numbers without a fraction ([0 <= e]) are returned as they are. For
    [x = m / d] this is the floor of [(m + d / 2) / d], and for [x = - m / d]
    it is minus the ceiling of [(m - d / 2) / d]. *)
Definition Math_round (x : Number) : Number :=
  match x with
  | S754_finite s m e =>
      if 0 <=? e then x
      else
        let d := 2 ^ (- e) in
        integral s (if s then (Z.pos m + d / 2 - 1) / d
                    else (Z.pos m + d / 2) / d)
  | _ => x
  end.

(** [String(x)] for a Number that is NaN, infinite, or an integer below 10^21
    in absolute value, where JavaScript prints every digit; [Math.round]
    returns no Number with a fraction. Both zeros are printed as [0]. The
    string depends on the value only, not on how it is written as
    [m * 2^e]. *)
Definition String_of_Number (x : Number) : jsstring :=
  match x with
  | S754_nan => js "NaN"
  | S754_infinity s => if s then js "-Infinity" else js "Infinity"
  | S754_zero _ => js "0"
  | S754_finite s m e => Number_toString (cond_Zopp s (Z.shiftl (Z.pos m) e))
  end.

(** [s.padStart(targetLength, padString)]. *)
Definition padStart (s : jsstring) (targetLength : nat) (padString : jsstring)
  : jsstring :=
  if (targetLength <=? length s)%nat then s
  else match padString with
       | [] => s
       | _ =>
           let fillLen := (targetLength - length s)%nat in
           take fillLen (mjoin (replicate fillLen padString)) ++ s
       end.

(** ** The page *)

Definition Handle := nat.     (* a SerialPort object of the host *)
Definition ReaderRef := nat.  (* a reader obtained from [port.readable] *)
Definition ElemRef := nat.    (* an element created in the document *)

(** An [<option>] of the port selector. Those made by [addNewPort] carry the
    [port] field of [PortOption]; [value] is the [value] attribute when the
    markup gives one and the text otherwise. *)
Record OptionElem := {
  oid : ElemRef;
  valueAttr : option jsstring;
  textContent : jsstring;
  oport : option Handle;
  selected : bool
}.

Definition value_of (o : OptionElem) : jsstring :=
  match valueAttr o with
  | Some v => v
  | None => textContent o
  end.

(** What the host shows of a port: whether [port.readable] and
    [port.writable] are non-null, and whether the writable stream is locked
    to a writer. *)
Record PortView := {
  readable : bool;
  writable : bool;
  writableLocked : bool
}.

Inductive ConsoleEntry :=
| ConsoleLogOptions
| ConsoleError (e : Exn)
| ConsoleWarn (msg : jsstring).

(** Calls made on host objects, in the order they are made. *)
Inductive HostCall :=
| CallRequestPort
| CallOpen (h : Handle)
| CallGetReader (h : Handle)
| CallRead (r : ReaderRef)
| CallReleaseLock (r : ReaderRef)
| CallCancel (r : ReaderRef)
| CallClose (h : Handle)
| CallGetWriter (h : Handle)
| CallWrite (h : Handle) (data : list Z)
| CallWriterReleaseLock (h : Handle).

Record Page := {
  options : list OptionElem;       (* portSelector.options *)
  selectorDisabled : bool;         (* portSelector.disabled *)
  buttonText : jsstring;           (* connectButton.textContent *)
  buttonDisabled : bool;           (* connectButton.disabled *)
  portCounter : Z;                 (* line 35 *)
  port : option Handle;            (* line 36 *)
  reader : option ReaderRef;       (* line 37 *)
  serialOut : option jsstring;     (* innerText of #serialOut, if it exists *)
  console : list ConsoleEntry;
  calls : list HostCall;
  nextElem : ElemRef;              (* the next element createElement makes *)
  view : Handle -> PortView
}.

Definition set_options v (p : Page) : Page :=
  {| options := v; selectorDisabled := selectorDisabled p;
     buttonText := buttonText p; buttonDisabled := buttonDisabled p;
     portCounter := portCounter p; port := port p; reader := reader p;
     serialOut := serialOut p; console := console p; calls := calls p;
     nextElem := nextElem p; view := view p |}.

Definition set_selectorDisabled v (p : Page) : Page :=
  {| options := options p; selectorDisabled := v;
     buttonText := buttonText p; buttonDisabled := buttonDisabled p;
     portCounter := portCounter p; port := port p; reader := reader p;
     serialOut := serialOut p; console := console p; calls := calls p;
     nextElem := nextElem p; view := view p |}.

Definition set_buttonText v (p : Page) : Page :=
  {| options := options p; selectorDisabled := selectorDisabled p;
     buttonText := v; buttonDisabled := buttonDisabled p;
     portCounter := portCounter p; port := port p; reader := reader p;
     serialOut := serialOut p; console := console p; calls := calls p;
     nextElem := nextElem p; view := view p |}.

Definition set_buttonDisabled v (p : Page) : Page :=
  {| options := options p; selectorDisabled := selectorDisabled p;
     buttonText := buttonText p; buttonDisabled := v;
     portCounter := portCounter p; port := port p; reader := reader p;
     serialOut := serialOut p; console := console p; calls := calls p;
     nextElem := nextElem p; view := view p |}.

Definition set_portCounter v (p : Page) : Page :=
  {| options := options p; selectorDisabled := selectorDisabled p;
     buttonText := buttonText p; buttonDisabled := buttonDisabled p;
     portCounter := v; port := port p; reader := reader p;
     serialOut := serialOut p; console := console p; calls := calls p;
     nextElem := nextElem p; view := view p |}.

Definition set_port v (p : Page) : Page :=
  {| options := options p; selectorDisabled := selectorDisabled p;
     buttonText := buttonText p; buttonDisabled := buttonDisabled p;
     portCounter := portCounter p; port := v; reader := reader p;
     serialOut := serialOut p; console := console p; calls := calls p;
     nextElem := nextElem p; view := view p |}.

Definition set_reader v (p : Page) : Page :=
  {| options := options p; selectorDisabled := selectorDisabled p;
     buttonText := buttonText p; buttonDisabled := buttonDisabled p;
     portCounter := portCounter p; port := port p; reader := v;
     serialOut := serialOut p; console := console p; calls := calls p;
     nextElem := nextElem p; view := view p |}.

Definition set_serialOut v (p : Page) : Page :=
  {| options := options p; selectorDisabled := selectorDisabled p;
     buttonText := buttonText p; buttonDisabled := buttonDisabled p;
     portCounter := portCounter p; port := port p; reader := reader p;
     serialOut := v; console := console p; calls := calls p;
     nextElem := nextElem p; view := view p |}.

Definition set_console v (p : Page) : Page :=
  {| options := options p; selectorDisabled := selectorDisabled p;
     buttonText := buttonText p; buttonDisabled := buttonDisabled p;
     portCounter := portCounter p; port := port p; reader := reader p;
     serialOut := serialOut p; console := v; calls := calls p;
     nextElem := nextElem p; view := view p |}.

Definition set_calls v (p : Page) : Page :=
  {| options := options p; selectorDisabled := selectorDisabled p;
     buttonText := buttonText p; buttonDisabled := buttonDisabled p;
     portCounter := portCounter p; port := port p; reader := reader p;
     serialOut := serialOut p; console := console p; calls := v;
     nextElem := nextElem p; view := view p |}.

Definition set_nextElem v (p : Page) : Page :=
  {| options := options p; selectorDisabled := selectorDisabled p;
     buttonText := buttonText p; buttonDisabled := buttonDisabled p;
     portCounter := portCounter p; port := port p; reader := reader p;
     serialOut := serialOut p; console := console p; calls := calls p;
     nextElem := v; view := view p |}.

(** A call on a host object, and a line on the console. *)
Definition call (c : HostCall) (p : Page) : Page :=
  set_calls (calls p ++ [c]) p.

Definition console_add (c : ConsoleEntry) (p : Page) : Page :=
  set_console (console p ++ [c]) p.

(** ** The log sink (lines 123-127)

    The optional callback is the [resolve] of a promise the caller awaits; the
    caller's machine accounts for it. *)
Definition appended (msg : jsstring) (p : Page) : option jsstring :=
  match serialOut p with
  | Some text => Some (text ++ msg)   (* element.innerText += msg *)
  | None => None                      (* no such element *)
  end.

Definition dumpSerialOut (msg : jsstring) (p : Page) : Page :=
  set_serialOut (appended msg p) p.

(** ** The port registry (lines 51-95) *)

(** What the document does to the options of a drop-down selector whenever
    an option is inserted or removed: when none is selected, the first one
    becomes selected. *)
Definition set_selected (b : bool) (o : OptionElem) : OptionElem :=
  {| oid := oid o; valueAttr := valueAttr o; textContent := textContent o;
     oport := oport o; selected := b |}.

Definition settleSelection (opts : list OptionElem) : list OptionElem :=
  if existsb selected opts then opts
  else match opts with
       | [] => []
       | o :: rest => set_selected true o :: rest
       end.

(** [parent.appendChild(o)] and [o.remove()]. *)
Definition appendChild (o : OptionElem) (p : Page) : Page :=
  set_options (settleSelection (options p ++ [o])) p.

Definition removeOption (ref : ElemRef) (p : Page) : Page :=
  set_options
    (settleSelection (filter (fun o => oid o <> ref) (options p))) p.

(** [o.selected = true]: in a drop-down this deselects every other option. *)
Definition selectOption (ref : ElemRef) (p : Page) : Page :=
  set_options
    (map (fun o => set_selected (bool_decide (oid o = ref)) o) (options p)) p.

(** [portSelector.selectedOptions] and [portSelector.value]. *)
Definition selectedOptions (p : Page) : list OptionElem :=
  filter (fun o => selected o = true) (options p).

Definition selectorValue (p : Page) : jsstring :=
  match selectedOptions p with
  | o :: _ => value_of o
  | [] => []
  end.

(** Lines 51-65: the loop over [portSelector.options]; the result is the
    option object itself, that is, its reference. *)
Fixpoint findIn (h : Handle) (opts : list OptionElem) : option ElemRef :=
  match opts with
  | [] => None
  | o :: rest =>
      if str_eqb (value_of o) (js "prompt") then findIn h rest
      else if bool_decide (oport o = Some h) then Some (oid o)
      else findIn h rest
  end.

Definition findPortOption (h : Handle) (p : Page) : option ElemRef :=
  findIn h (options p).

(** Lines 73-79. *)
Definition addNewPort (h : Handle) (p : Page) : ElemRef * Page :=
  let ref := nextElem p in
  let p := set_nextElem (S ref) p in
  let label := js "Port " ++ Number_toString (portCounter p) in
  let p := set_portCounter (portCounter p + 1) p in
  let portOption :=
    {| oid := ref; valueAttr := None; textContent := label;
       oport := Some h; selected := false |} in
  (ref, appendChild portOption p).

(** Lines 88-95. *)
Definition maybeAddNewPort (h : Handle) (p : Page) : ElemRef * Page :=
  match findPortOption h p with
  | Some portOption => (portOption, p)
  | None => addNewPort h p
  end.

(** The handles the options of the selector refer to, in list order. *)
Definition listed (p : Page) : list Handle := omap oport (options p).

(** An option that refers to a port is one [findPortOption] looks at. *)
Definition findable (o : OptionElem) : Prop :=
  is_Some (oport o) -> value_of o <> js "prompt".

(** At most one option for each handle, each of them findable. *)
Definition registryOk (p : Page) : Prop :=
  NoDup (listed p) /\ Forall findable (options p).

(** ** Back to the disconnected state (lines 132-138) *)

Definition markDisconnected (p : Page) : Page :=
  let p := dumpSerialOut (js "<DISCONNECTED>" ++ LF) p in
  let p := set_selectorDisabled false p in
  let p := set_buttonText (js "Connect") p in
  let p := set_buttonDisabled false p in
  set_port None p.

Definition disconnected (p : Page) : Prop :=
  port p = None /\ selectorDisabled p = false
  /\ buttonText p = js "Connect" /\ buttonDisabled p = false.

(** The [<ERROR: ...>] line of the [catch] clauses, written only for an
    [Error]; [tail] is what follows the closing bracket. *)
Definition dumpError (e : Exn) (tail : jsstring) (p : Page) : Page :=
  match e with
  | ErrorObj message =>
      dumpSerialOut (js "<ERROR: " ++ message ++ js ">" ++ tail) p
  | NonError _ => p
  end.

(** What [dumpError] appends to the log. *)
Definition errorLine (e : Exn) (tail : jsstring) : jsstring :=
  match e with
  | ErrorObj message => js "<ERROR: " ++ message ++ js ">" ++ tail
  | NonError _ => []
  end.

(** ** Sending (lines 349-358) *)

(** Lines 351-352. *)
Definition warnNoPort (p : Page) : Page :=
  console_add (ConsoleWarn (js "unable to find writable port")) p.

(** [port?.writable == null] sends to [warnNoPort]; [getWriter()] throws a
    [TypeError] on a stream that is locked. *)
Definition sendSerial (data : list Z) (p : Page) : Completion unit * Page :=
  match port p with
  | Some h =>
      if writable (view p h) then
        if writableLocked (view p h)
        then (Throw (ErrorObj (js "WritableStream is locked")), p)
        else
          let p := call (CallGetWriter h) p in
          let p := call (CallWrite h data) p in
          let p := call (CallWriterReleaseLock h) p in
          (Normal tt, p)
      else (Normal tt, warnNoPort p)
  | None => (Normal tt, warnNoPort p)
  end.

(** A port is set and its [writable] is not null. *)
Definition hasWritablePort (p : Page) : bool :=
  match port p with
  | Some h => writable (view p h)
  | None => false
  end.

(** ** The frequency command (lines 335-343) *)

(** The [change] event of the frequency input. [value] is the Number that
    [e.value] is converted to when it is divided (a string that is not a
    numeric literal is converted to NaN). *)
Record Target := { value : Number }.
Record Event := { currentTarget : option Target }.

(** Lines 338-340: the command string for the value [v]. *)
Definition frequencyCommand (v : Number) : jsstring :=
  let f := Math_round (Number_div v (Number_of_Z 10)) in
  let fstring := padStart (String_of_Number f) 7 (js "0000000") in
  js "*F" ++ fstring.

Definition setFrequency (event : Event) (p : Page) : Completion unit * Page :=
  match currentTarget event with
  | Some e =>
      match toXK852Cmd (frequencyCommand (value e)) with
      | Normal data => sendSerial data p
      | Throw x => (Throw x, p)
      end
  | None => (Normal tt, p)
  end.

(** *** The frequency command as the specification words it

    "Divides by 10, rounds to nearest integer, zero-pads to 7 digits, and
    encodes as command string [*F<7 digits>]". *)

(** The nearest integer to [v / 10], a half rounding up. *)
Definition round_half_up_tenth (v : Number) : Z :=
  Qfloor (Number_value v / 10 + (1 # 2))%Q.

(** The [k] lowest decimal digits of [n], most significant first. *)
Fixpoint fixedDigits (k : nat) (n : Z) : jsstring :=
  match k with
  | O => []
  | S k' => fixedDigits k' (n / 10) ++ [48 + n mod 10]
  end.

Definition frequencyCommand_spec (v : Number) : jsstring :=
  js "*F" ++ fixedDigits 7 (round_half_up_tenth v).

(** ** Asynchronous functions

    An [async] function runs until its next [await] and is resumed, in a later
    turn of the event loop, with what the awaited promise was settled with.
    [Tick] resumes an [await] on a promise the page itself had already
    settled; the other constructors are the host's answers. The call
    [port.readable.getReader()] is synchronous, but its result is the host's,
    so it is a point of the machine as well. *)
Inductive Settled :=
| Tick
| Fulfilled
| FulfilledPort (h : Handle)
| FulfilledReader (r : ReaderRef)
| FulfilledRead (chunk : option (list Z)) (done : bool)
| Rejected (e : Exn).

(** Feeding a machine the settlements [rs] in turn; the configurations it
    goes through, the last one last. A settlement the machine does not wait
    for ends the run. *)
Fixpoint run {C : Type} (resume : Settled -> C -> option C)
    (rs : list Settled) (c : C) : list C :=
  match rs with
  | [] => [c]
  | r :: rs' =>
      match resume r c with
      | Some c' => c :: run resume rs' c'
      | None => [c]
      end
  end.

Definition final {C : Type} (resume : Settled -> C -> option C)
    (rs : list Settled) (c : C) : C :=
  List.last (run resume rs c) c.

(** *** connectToPort (lines 143-231) with getSelectedPort (lines 101-115) *)

Inductive ConnectPc :=
| AtRequestPort                      (* line 105: await serial.requestPort({}) *)
| AtGetSelectedPort (r : Completion unit)
                                     (* line 144: await getSelectedPort() *)
| AtOpen                             (* line 165: await port.open(options) *)
| AtGetReader                        (* line 180: port.readable.getReader(..) *)
| AtRead                             (* line 189: await reader.read(..) *)
| AtReadReturn (r : Completion (option (list Z) * bool))
                                     (* line 184: await (async () => ..)() *)
| AtDump (done : bool)               (* line 195: await new Promise(..) *)
| AtCatch                            (* line 206, resolve was called *)
| AtCatchForever                     (* line 206, resolve was dropped *)
| AtClose                            (* line 221: await port.close() *)
| Returned
| Threw (e : Exn).

Section Connection.

(** [new TextDecoder().decode]. *)
Variable decode : list Z -> jsstring.

(** Line 219 onwards. *)
Definition afterLoop (p : Page) : ConnectPc * Page :=
  match port p with
  | Some h => (AtClose, call (CallClose h) p)
  | None => (Returned, p)
  end.

(** Line 178: the test of the [while], and line 180. *)
Definition loopHead (p : Page) : ConnectPc * Page :=
  match port p with
  | Some h =>
      if readable (view p h) then (AtGetReader, call (CallGetReader h) p)
      else afterLoop p
  | None => afterLoop p
  end.

(** Lines 184-192: one more turn of the [for (;;)]. The buffer handed to
    [read] is the host's business and is left out. *)
Definition nextRead (p : Page) : ConnectPc * Page :=
  match reader p with
  | Some r => (AtRead, call (CallRead r) p)
  | None =>
      (AtReadReturn
         (Throw (ErrorObj (js "Cannot read properties of undefined"))), p)
  end.

(** Lines 204-210. *)
Definition catchBlock (e : Exn) (p : Page) : ConnectPc * Page :=
  let p := console_add (ConsoleError e) p in
  if instanceofError e then (AtCatch, dumpError e LF p)
  else (AtCatchForever, p).

(** Lines 211-216, then back to the test of the [while]. *)
Definition finallyBlock (p : Page) : ConnectPc * Page :=
  match reader p with
  | Some r => loopHead (set_reader None (call (CallReleaseLock r) p))
  | None => loopHead p
  end.

(** Lines 200-202. *)
Definition afterChunk (done : bool) (p : Page) : ConnectPc * Page :=
  if done then finallyBlock p else nextRead p.

(** Lines 101-114 and 143-144, up to the first [await]. *)
Definition connect_start (p : Page) : ConnectPc * Page :=
  if str_eqb (selectorValue p) (js "prompt") then
    (AtRequestPort, call CallRequestPort p)
  else
    match selectedOptions p with
    | selectedOption :: _ =>
        (AtGetSelectedPort (Normal tt), set_port (oport selectedOption) p)
    | [] =>
        (AtGetSelectedPort
           (Throw (ErrorObj (js "Cannot read properties of undefined"))), p)
    end.

Definition connect_resume (s : Settled) (c : ConnectPc * Page)
  : option (ConnectPc * Page) :=
  let '(pc, p) := c in
  match pc, s with
  (* lines 105-110 *)
  | AtRequestPort, FulfilledPort h =>
      let p := set_port (Some h) p in
      let '(portOption, p) := maybeAddNewPort h p in
      Some (AtGetSelectedPort (Normal tt), selectOption portOption p)
  | AtRequestPort, Rejected _ => Some (AtGetSelectedPort (Normal tt), p)
  (* lines 144-165 *)
  | AtGetSelectedPort (Throw e), Tick => Some (Threw e, p)
  | AtGetSelectedPort (Normal _), Tick =>
      match port p with
      | None => Some (Returned, p)
      | Some h =>
          let p := console_add ConsoleLogOptions p in
          let p := set_selectorDisabled true p in
          let p := set_buttonText (js "Connecting...") p in
          let p := set_buttonDisabled true p in
          Some (AtOpen, call (CallOpen h) p)
      end
  (* lines 165-176 *)
  | AtOpen, Fulfilled =>
      let p := dumpSerialOut (js "<CONNECTED>" ++ LF) p in
      let p := set_buttonText (js "Disconnect") p in
      let p := set_buttonDisabled false p in
      Some (loopHead p)
  | AtOpen, Rejected e =>
      let p := console_add (ConsoleError e) p in
      let p := dumpError e LF p in
      Some (Returned, markDisconnected p)
  (* lines 180-189 *)
  | AtGetReader, FulfilledReader r => Some (nextRead (set_reader (Some r) p))
  | AtGetReader, Rejected e => Some (catchBlock e p)
  (* lines 188-191 *)
  | AtRead, FulfilledRead chunk done =>
      Some (AtReadReturn (Normal (chunk, done)), p)
  | AtRead, Rejected e => Some (AtReadReturn (Throw e), p)
  (* lines 184-202 *)
  | AtReadReturn (Normal (Some chunk, done)), Tick =>
      Some (AtDump done, dumpSerialOut (decode chunk) p)
  | AtReadReturn (Normal (None, done)), Tick => Some (afterChunk done p)
  | AtReadReturn (Throw e), Tick => Some (catchBlock e p)
  | AtDump done, Tick => Some (afterChunk done p)
  (* lines 206-216 *)
  | AtCatch, Tick => Some (finallyBlock p)
  (* lines 221-229 *)
  | AtClose, Fulfilled => Some (Returned, markDisconnected p)
  | AtClose, Rejected e =>
      let p := console_add (ConsoleError e) p in
      let p := dumpError e [] p in
      Some (Returned, markDisconnected p)
  | _, _ => None
  end.

End Connection.

(** *** disconnectFromPort (lines 236-258) *)

Inductive DisconnectPc :=
| AtCancel (localPort : option Handle)   (* line 243: await reader.cancel() *)
| AtCloseLocal (localPort : Handle)      (* line 248: await localPort.close() *)
| DReturned
| DThrew (e : Exn).

(** Lines 246-257, up to the [await]. *)
Definition closeLocal (localPort : option Handle) (p : Page)
  : DisconnectPc * Page :=
  match localPort with
  | Some h => (AtCloseLocal h, call (CallClose h) p)
  | None => (DReturned, markDisconnected p)
  end.

(** Lines 239-243. *)
Definition disconnect_start (p : Page) : DisconnectPc * Page :=
  let localPort := port p in
  let p := set_port None p in
  match reader p with
  | Some r => (AtCancel localPort, call (CallCancel r) p)
  | None => closeLocal localPort p
  end.

Definition disconnect_resume (s : Settled) (c : DisconnectPc * Page)
  : option (DisconnectPc * Page) :=
  let '(pc, p) := c in
  match pc, s with
  | AtCancel localPort, Fulfilled => Some (closeLocal localPort p)
  | AtCancel _, Rejected e => Some (DThrew e, p)
  | AtCloseLocal _, Fulfilled => Some (DReturned, markDisconnected p)
  | AtCloseLocal _, Rejected e =>
      let p := console_add (ConsoleError e) p in
      let p := dumpError e [] p in
      Some (DReturned, markDisconnected p)
  | _, _ => None
  end.

(** What [localPort.close()] is settled with: [None] when it succeeds, the
    exception when it fails. *)
Definition settledClose (closeError : option Exn) : Settled :=
  match closeError with
  | Some e => Rejected e
  | None => Fulfilled
  end.

(** The settlements of one call of [disconnectFromPort] on the page [p], with
    [reader.cancel()] succeeding: the cancel is awaited only when a reader is
    set. *)
Definition disconnectSettlements (closeError : option Exn) (p : Page)
  : list Settled :=
  match reader p with
  | Some _ => [Fulfilled; settledClose closeError]
  | None => [settledClose closeError]
  end.

(** ** The listeners of lines 292-310 *)

(** Line 293: [ports.forEach((port) => addNewPort(port))]. *)
Definition onLoaded (ports : list Handle) (p : Page) : Page :=
  foldl (fun p h => snd (addNewPort h p)) p ports.

(** Lines 298-303: the [connect] event of [navigator.serial]. *)
Definition onSerialConnect (h : Handle) (p : Page) : ConnectPc * Page :=
  connect_start (snd (addNewPort h p)).

(** Lines 304-309: the [disconnect] event of [navigator.serial]. *)
Definition onSerialDisconnect (h : Handle) (p : Page) : Page :=
  match findPortOption h p with
  | Some portOption => removeOption portOption p
  | None => p
  end.

(** ** Sample events and pages *)

Definition changeEvent (v : Number) : Event :=
  {| currentTarget := Some {| value := v |} |}.

(** The entry of the selector that asks for the device chooser. *)
Definition promptOption : OptionElem :=
  {| oid := 0%nat; valueAttr := Some (js "prompt");
     textContent := js "Add a port..."; oport := None; selected := true |}.

Definition closedView : PortView :=
  {| readable := false; writable := false; writableLocked := false |}.

Definition openView : PortView :=
  {| readable := true; writable := true; writableLocked := false |}.

(** The page once the document is loaded, before any port is known. *)
Definition freshPage : Page :=
  {| options := [promptOption]; selectorDisabled := false;
     buttonText := js "Connect"; buttonDisabled := false;
     portCounter := 1; port := None; reader := None;
     serialOut := Some []; console := []; calls := [];
     nextElem := 1%nat; view := fun _ => closedView |}.

(** A page connected to the port [h], listed as "Port 1", with a read
    pending on the reader [r]. *)
Definition connectedPage (h : Handle) (r : ReaderRef) : Page :=
  {| options :=
       [ {| oid := 0%nat; valueAttr := Some (js "prompt");
            textContent := js "Add a port..."; oport := None;
            selected := false |};
         {| oid := 1%nat; valueAttr := None; textContent := js "Port 1";
            oport := Some h; selected := true |} ];
     selectorDisabled := true;
     buttonText := js "Disconnect"; buttonDisabled := false;
     portCounter := 2; port := Some h; reader := Some r;
     serialOut := Some (js "<CONNECTED>" ++ LF);
     console := [ConsoleLogOptions];
     calls := [CallOpen h; CallGetReader h; CallRead r];
     nextElem := 2%nat; view := fun _ => openView |}.

(** A page on which the port [h] is listed as "Port 1" and selected, and no
    connection is open. *)
Definition listedPage (h : Handle) : Page :=
  {| options :=
       [ {| oid := 0%nat; valueAttr := Some (js "prompt");
            textContent := js "Add a port..."; oport := None;
            selected := false |};
         {| oid := 1%nat; valueAttr := None; textContent := js "Port 1";
            oport := Some h; selected := true |} ];
     selectorDisabled := false;
     buttonText := js "Connect"; buttonDisabled := false;
     portCounter := 2; port := None; reader := None;
     serialOut := Some []; console := []; calls := [];
     nextElem := 2%nat; view := fun _ => closedView |}.

(** A decoder for the samples: the bytes of ASCII text are its code units. *)
Definition decodeAscii (bytes : list Z) : jsstring := bytes.

(** ** Sending a command (lines 364-367) *)

(** The [click] event of an element of class [clickCmd]: [currentTarget],
    when there is one, with its [value]. *)
Record CmdTarget := { cmdValue : jsstring }.
Record ClickEvent := { clickTarget : option CmdTarget }.

Definition sendCmd (event : ClickEvent) (p : Page) : Completion unit * Page :=
  match clickTarget event with
  | Some elem =>
      match toXK852Cmd (cmdValue elem) with
      | Normal data => sendSerial data p
      | Throw x => (Throw x, p)
      end
  | None => (Normal tt, p)
  end.

(** One click after the other on the elements with the values [cmds]. *)
Definition sendCmds (cmds : list jsstring) (p : Page) : Page :=
  foldl (fun p cmd =>
           snd (sendCmd {| clickTarget := Some {| cmdValue := cmd |} |} p))
        p cmds.

(** The calls one [sendSerial] makes on the port [h]. *)
Definition writeCalls (h : Handle) (data : list Z) : list HostCall :=
  [CallGetWriter h; CallWrite h data; CallWriterReleaseLock h].

(** The frame of [cmd], as a list of bytes. *)
Definition frameOf (cmd : jsstring) : list Z :=
  [10] ++ TextEncoder.encode cmd ++ [13].

(** ** The registry over time *)

(** Line 75: the text of the option made while the counter is [n]. *)
Definition portLabel (n : Z) : jsstring := js "Port " ++ Number_toString n.

(** Every option is an element of its own: the references are distinct, and
    all of them were made before the next [createElement]. *)
Definition elementsOk (p : Page) : Prop :=
  NoDup (oid <$> options p)
  /\ Forall (fun ref => (ref < nextElem p)%nat) (oid <$> options p).

(** Lines 105-110 once the chooser has given the port [h]. *)
Definition chooserGranted (h : Handle) (p : Page) : Page :=
  let p := set_port (Some h) p in
  let '(portOption, p) := maybeAddNewPort h p in
  selectOption portOption p.

(** What changes the selector: the enumeration at start-up, the chooser, and
    the two events of the host. The host reports as appearing only ports
    that are not listed. *)
Inductive RegistryStep : Page -> Page -> Prop :=
| StepLoaded (ports : list Handle) (p : Page) :
    NoDup ports -> (forall h, h ∈ ports -> h ∉ listed p) ->
    RegistryStep p (onLoaded ports p)
| StepChosen (h : Handle) (p : Page) :
    RegistryStep p (chooserGranted h p)
| StepConnect (h : Handle) (p : Page) :
    h ∉ listed p -> RegistryStep p (snd (onSerialConnect h p))
| StepDisconnect (h : Handle) (p : Page) :
    RegistryStep p (onSerialDisconnect h p).


(** ** The connect button (lines 273-279) *)

Definition onConnectClick (p : Page)
  : (ConnectPc * Page) + (DisconnectPc * Page) :=
  match port p with
  | Some _ => inr (disconnect_start p)
  | None => inl (connect_start p)
  end.

(** ** The read loop over time *)

(** What the host settles while [chunks] arrive one after the other: each
    read is fulfilled with a chunk and not done, and the two promises the
    loop awaits next are resumed. *)
Definition chunkSettlements (chunks : list (list Z)) : list Settled :=
  flat_map (fun chunk => [FulfilledRead (Some chunk) false; Tick; Tick]) chunks.

(** Where [connectToPort] stands and what it holds: a read is pending only
    on the reader that [reader] holds, and was the last call made; outside
    the body of the read loop [reader] is undefined. *)
Definition connectInv (c : ConnectPc * Page) : Prop :=
  match fst c with
  | AtRead =>
      exists r, reader (snd c) = Some r
                /\ List.last (calls (snd c)) CallRequestPort = CallRead r
  | AtReadReturn _ | AtDump _ | AtCatch | AtCatchForever => True
  | AtRequestPort | AtGetSelectedPort _ | AtOpen | AtGetReader | AtClose
  | Returned | Threw _ => reader (snd c) = None
  end.

(** A page on which the port [h] is listed and selected, no connection is
    open, and the host has the streams of the port ready. *)
Definition readyPage (h : Handle) : Page :=
  {| options := options (listedPage h); selectorDisabled := false;
     buttonText := js "Connect"; buttonDisabled := false;
     portCounter := 2; port := None; reader := None;
     serialOut := Some []; console := []; calls := [];
     nextElem := 2%nat; view := fun _ => openView |}.

(** ** The state of the panels (the second source file) *)

Module Store.

(** The [rig] slice (lines 14-18). *)
Record Rig := {
  returnMsg : jsstring;
  frequency : Z;
  frequencyConfirmed : bool
}.

Definition rig : Rig :=
  {| returnMsg := js "no Message"; frequency := 1500000;
     frequencyConfirmed := false |}.

(** The message of line 22, ['\n T  ']. *)
Definition ignoredMsg : jsstring := LF ++ js " T  ".

(** Lines 20-23. *)
Definition setReturnMsg (msg : jsstring) (r : Rig) : Rig :=
  if negb (str_eqb msg ignoredMsg)
  then {| returnMsg := msg; frequency := frequency r;
          frequencyConfirmed := frequencyConfirmed r |}
  else r.

(** The messages of the device, one after the other. *)
Definition setReturnMsgs (msgs : list jsstring) (r : Rig) : Rig :=
  foldl (fun r msg => setReturnMsg msg r) r msgs.

(** An object handed to [pushLog]: its [date], when it has one that is not
    falsy, and the rest of it. *)
Record LogObj := {
  date : option Z;
  rest : jsstring
}.

(** Lines 9-12; [now] is what [new Date()] gives at the call. *)
Definition pushLog (now : Z) (obj : LogObj) (objs : list LogObj)
  : list LogObj :=
  let obj :=
    match date obj with
    | Some _ => obj
    | None => {| date := Some now; rest := rest obj |}
    end in
  objs ++ [obj].

(** The entry [pushLog] appends for [obj] at the time [now]. *)
Definition stamped (now : Z) (obj : LogObj) : LogObj :=
  {| date := Some (default now (date obj)); rest := rest obj |}.

(** Calls of [pushLog] one after the other, each with its time. *)
Definition pushLogs (calls : list (Z * LogObj)) (objs : list LogObj)
  : list LogObj :=
  foldl (fun objs c => pushLog (fst c) (snd c) objs) objs calls.

End Store.

(** What the host settles while [getReader()] fails [n] times in a row. *)
Definition readerFailures (n : nat) (e : Exn) : list Settled :=
  mjoin (replicate n [Rejected e; Tick]).

(** ** Reading frames and decimal strings back *)

(** The ranges of an ASCII code unit and of a decimal digit. *)
Definition is_ascii (c : Z) : Prop := 0 <= c < 128.
Definition is_digit (c : Z) : Prop := 48 <= c <= 57.

(** The number a string of decimal digits denotes. *)
Definition parseDecimal (s : jsstring) : Z :=
  foldl (fun acc c => 10 * acc + (c - 48)) 0 s.

(** ** Reading binary64 roundings *)

(** The record [mrs] locates the rational [N / D]: its integer part, whether
    the fraction is at least a half, and whether it is neither zero nor a
    half. *)
Definition located (N D : Z) (mrs : shr_record) : Prop :=
  shr_m mrs = N / D
  /\ shr_r mrs = (D <=? 2 * (N mod D))
  /\ shr_s mrs = negb ((N mod D =? 0) || (2 * (N mod D) =? D)).

(** Where the remainder of [N / D] lies: what [new_location] computes for an
    even divisor. *)
Definition loc_of (N D : Z) : location :=
  if N mod D =? 0 then loc_Exact else loc_Inexact (2 * (N mod D) ?= D).

(** [x] is the Number of sign [s] and magnitude [m * 2 ^ e]. *)
Definition denotes (x : Number) (s : bool) (m e : Z) : Prop :=
  match x with
  | S754_zero s' => s' = s /\ m = 0
  | S754_finite s' mx ex =>
      s' = s /\ e <= ex <= e + 1 /\ m = Z.pos mx * 2 ^ (ex - e)
  | _ => False
  end.

(** * Properties *)

(** *** The encoder on sample strings *)

Example encode_ascii :
  TextEncoder.encode (js "*F0000150") = [42; 70; 48; 48; 48; 48; 49; 53; 48].
Proof. reflexivity. Qed.

Example encode_two_bytes : TextEncoder.encode [0xE9] = [0xC3; 0xA9].
Proof. reflexivity. Qed.

Example encode_three_bytes : TextEncoder.encode [0x20AC] = [0xE2; 0x82; 0xAC].
Proof. reflexivity. Qed.

Example encode_pair :
  TextEncoder.encode [0xD83D; 0xDE00] = [0xF0; 0x9F; 0x98; 0x80].
Proof. reflexivity. Qed.

Example encode_lone_surrogate :
  TextEncoder.encode [0xD83D; 65] = [0xEF; 0xBF; 0xBD; 65].
Proof. reflexivity. Qed.

(** *** Framing *)

Lemma set_at_1 (m : list Z) :
  Uint8Array.set (Uint8Array.store (Uint8Array.make (length m + 2)) 0 10) m 1
  = Normal (10 :: m ++ [0]).
Proof.
  unfold Uint8Array.set, Uint8Array.store, Uint8Array.make.
  rewrite length_insert, length_replicate.
  destruct (Nat.ltb_spec (length m + 2) (1 + length m)) as [Hlt | _]; [lia |].
  f_equal.
  replace (length m + 2)%nat with (S (length m + 1)) by lia.
  cbn [replicate]. change (<[0%nat := 10 mod 256]> (0 :: ?l)) with (10 :: l).
  rewrite list_inserts_cons. f_equal.
  rewrite replicate_add. cbn [replicate].
  apply list_inserts_0_r. by rewrite length_replicate.
Qed.

Lemma store_last (m : list Z) :
  Uint8Array.store (10 :: m ++ [0]) (length m + 1) 13 = 10 :: m ++ [13].
Proof.
  unfold Uint8Array.store.
  replace (length m + 1)%nat with (S (length m + 0)) by lia.
  change (<[S (length m + 0) := 13 mod 256]> (10 :: m ++ [0]))
    with (10 :: <[(length m + 0)%nat := 13]> (m ++ [0])).
  f_equal. by rewrite insert_app_r.
Qed.

Lemma toXK852Cmd_eq (text : jsstring) :
  toXK852Cmd text = Normal (10 :: TextEncoder.encode text ++ [13]).
Proof.
  unfold toXK852Cmd. rewrite set_at_1. cbn [bindC]. by rewrite store_last.
Qed.

(** *** Frames are byte sequences *)

Lemma lor_byte (a b : Z) : is_byte a -> is_byte b -> is_byte (Z.lor a b).
Proof.
  unfold is_byte. intros Ha Hb.
  assert (Hnn : 0 <= Z.lor a b) by (apply Z.lor_nonneg; lia).
  split; [done |].
  destruct (Z.eq_dec (Z.lor a b) 0) as [-> | Hnz]; [lia |].
  change 256 with (2 ^ 8). apply Z.log2_lt_pow2; [lia |].
  rewrite Z.log2_lor by lia.
  assert (Hlog : forall x, 0 <= x < 256 -> Z.log2 x < 8).
  { intros x Hx. destruct (Z.eq_dec x 0) as [-> | Hx0]; [done |].
    apply Z.log2_lt_pow2; lia. }
  apply Z.max_lub_lt; by apply Hlog.
Qed.

Lemma continuation_byte (x : Z) : is_byte (Z.lor 0x80 (Z.land x 0x3F)).
Proof.
  apply lor_byte; [unfold is_byte; lia |].
  change 0x3F with (Z.ones 6). rewrite Z.land_ones by lia.
  pose proof (Z.mod_pos_bound x (2 ^ 6) ltac:(lia)). unfold is_byte. lia.
Qed.

Lemma lead_byte (tag cp k bound : Z) :
  is_byte tag -> 0 <= k -> 0 <= cp < bound * 2 ^ k -> bound <= 256 ->
  is_byte (Z.lor tag (Z.shiftr cp k)).
Proof.
  intros Htag Hk Hcp Hbound. apply lor_byte; [done |].
  rewrite Z.shiftr_div_pow2 by done. unfold is_byte.
  assert (Hpow : 0 < 2 ^ k) by (apply Z.pow_pos_nonneg; lia).
  split.
  - apply Z.div_pos; lia.
  - apply Z.div_lt_upper_bound; [done |].
    apply Z.lt_le_trans with (bound * 2 ^ k); [lia |].
    rewrite (Z.mul_comm (2 ^ k)). apply Z.mul_le_mono_nonneg_r; lia.
Qed.

Ltac each_byte :=
  repeat (apply Forall_cons; split); try apply Forall_nil_2;
  try apply continuation_byte.

Lemma encode_scalar_bytes (cp : Z) :
  0 <= cp < 0x110000 -> Forall is_byte (TextEncoder.encode_scalar cp).
Proof.
  intros Hcp. unfold TextEncoder.encode_scalar.
  destruct (Z.ltb_spec cp 0x80); [each_byte; unfold is_byte; lia |].
  destruct (Z.ltb_spec cp 0x800).
  { each_byte. apply (lead_byte _ _ _ 32); unfold is_byte; lia. }
  destruct (Z.ltb_spec cp 0x10000).
  { each_byte. apply (lead_byte _ _ _ 16); unfold is_byte; lia. }
  each_byte. apply (lead_byte _ _ _ 5); unfold is_byte; lia.
Qed.

Lemma encode_bytes (n : nat) : forall s : jsstring,
  (length s <= n)%nat -> Forall is_code_unit s ->
  Forall is_byte (TextEncoder.encode s).
Proof.
  induction n as [| n IH]; intros [| c rest] Hlen Hs;
    cbn [length] in Hlen; try lia; [constructor .. |].
  apply Forall_cons in Hs as [Hc Hrest]. unfold is_code_unit in Hc.
  cbn [TextEncoder.encode].
  assert (Hrepl : Forall is_byte (TextEncoder.encode_scalar 0xFFFD))
    by (apply encode_scalar_bytes; lia).
  assert (Htail : Forall is_byte (TextEncoder.encode rest))
    by (apply IH; [lia | done]).
  destruct (TextEncoder.is_lead c) eqn:Hlead.
  - destruct rest as [| d rest']; [done |].
    destruct (TextEncoder.is_trail d) eqn:Htrail;
      [| by apply Forall_app].
    apply Forall_cons in Hrest as [Hd Hrest'].
    apply Forall_app. split.
    + apply encode_scalar_bytes. unfold TextEncoder.is_lead, TextEncoder.is_trail in *.
      lia.
    + apply IH; [cbn [length] in Hlen; lia | done].
  - destruct (TextEncoder.is_trail c); apply Forall_app; split; try done.
    apply encode_scalar_bytes. lia.
Qed.

(** On a string of code units the frame is a sequence of bytes. *)
Lemma toXK852Cmd_bytes (text : jsstring) :
  Forall is_code_unit text ->
  exists frame, toXK852Cmd text = Normal frame /\ Forall is_byte frame.
Proof.
  intros Htext. eexists. split; [apply toXK852Cmd_eq |].
  apply Forall_cons. split; [unfold is_byte; lia |].
  apply Forall_app. split; [by apply (encode_bytes (length text)) |].
  apply Forall_singleton. unfold is_byte. lia.
Qed.

(** C1: [toXK852Cmd] returns, for every string, the line feed 0x0A, the UTF-8
    bytes of the string and the carriage return 0x0D, in this order, and never
    throws; on ["*F0000150"] these are the bytes
    10, 42, 70, 48, 48, 48, 48, 49, 53, 48, 13. *)
Theorem toXK852Cmd_frame :
  (forall text : jsstring,
      toXK852Cmd text = Normal ([0x0A] ++ TextEncoder.encode text ++ [0x0D]))
  /\ toXK852Cmd (js "*F0000150")
     = Normal [10; 42; 70; 48; 48; 48; 48; 49; 53; 48; 13].
Proof.
  split; [| reflexivity].
  intros text. apply toXK852Cmd_eq.
Qed.

(** ** The frequency command *)

Lemma digits_lt10 (n : Z) : n < 10 -> digits n = [48 + n].
Proof.
  intros H. rewrite (digits_equation_1 n).
  destruct (Z_lt_dec n 10); simpl; [done | lia].
Qed.

Lemma digits_ge10 (n : Z) :
  10 <= n -> digits n = digits (n / 10) ++ [48 + n mod 10].
Proof.
  intros H. rewrite (digits_equation_1 n).
  destruct (Z_lt_dec n 10); simpl; [lia | done].
Qed.

Lemma fixedDigits_0 (k : nat) : fixedDigits k 0 = replicate k 48.
Proof.
  induction k as [| k IH]; [done |].
  cbn [fixedDigits]. change (0 / 10) with 0. rewrite IH.
  change [48 + 0 mod 10] with (replicate 1 48).
  rewrite <- replicate_add. f_equal. lia.
Qed.

(** Padding the printed number with zeros gives its fixed-width digits, as
    long as the number fits the width. *)
Lemma digits_padded (k : nat) : forall n : Z,
  0 <= n < 10 ^ Z.of_nat (S k) ->
  (length (digits n) <= S k)%nat
  /\ replicate (S k - length (digits n)) 48 ++ digits n = fixedDigits (S k) n.
Proof.
  induction k as [| k IH]; intros n Hn.
  - change (10 ^ Z.of_nat 1) with 10 in Hn.
    rewrite digits_lt10 by lia. split; [done |].
    cbn. rewrite Z.mod_small by lia. done.
  - destruct (Z_lt_dec n 10) as [Hlt | Hge].
    + rewrite digits_lt10 by lia. split; [cbn; lia |].
      cbn [fixedDigits length]. rewrite (Z.div_small n 10) by lia.
      change (0 / 10) with 0.
      rewrite (Z.mod_small n 10) by lia.
      replace (S (S k) - 1)%nat with (S k) by lia.
      pose proof (fixedDigits_0 (S k)) as H0. cbn [fixedDigits] in H0.
      change (0 / 10) with 0 in H0. by rewrite H0.
    + rewrite digits_ge10 by lia.
      assert (Hq : 0 <= n / 10 < 10 ^ Z.of_nat (S k)).
      { split; [apply Z.div_pos; lia |].
        apply Z.div_lt_upper_bound; [lia |].
        replace (Z.of_nat (S (S k))) with (Z.succ (Z.of_nat (S k))) in Hn by lia.
        rewrite Z.pow_succ_r in Hn by lia. lia. }
      destruct (IH _ Hq) as [Hlen Heq].
      rewrite length_app. cbn [length]. split; [lia |].
      change (fixedDigits (S (S k)) n)
        with (fixedDigits (S k) (n / 10) ++ [48 + n mod 10]).
      rewrite <- Heq, <- app_assoc. do 2 f_equal. lia.
Qed.

Lemma padStart_zeros (s : jsstring) :
  (length s <= 7)%nat ->
  padStart s 7 (js "0000000") = replicate (7 - length s) 48 ++ s.
Proof.
  intros Hlen. unfold padStart.
  destruct (Nat.leb_spec 7 (length s)) as [Hge | Hlt].
  - by replace (7 - length s)%nat with 0%nat by lia.
  - cbn [js list_ascii_of_string map]. f_equal.
    assert (Hf : (7 - length s <= 7)%nat) by lia.
    revert Hf. generalize (7 - length s)%nat as f. intros f Hf.
    do 8 (destruct f as [| f]; [reflexivity |]). lia.
Qed.

(** *** The binary64 division by ten and [Math.round] *)

Lemma digits2_pos_bounds (p : positive) :
  2 ^ (Z.pos (digits2_pos p) - 1) <= Z.pos p < 2 ^ Z.pos (digits2_pos p).
Proof.
  induction p as [p IH | p IH |]; cbn [digits2_pos].
  - rewrite Pos2Z.inj_succ.
    replace (Z.succ (Z.pos (digits2_pos p)) - 1) with (Z.succ (Z.pos (digits2_pos p) - 1)) by lia.
    rewrite !Z.pow_succ_r by lia. lia.
  - rewrite Pos2Z.inj_succ.
    replace (Z.succ (Z.pos (digits2_pos p)) - 1) with (Z.succ (Z.pos (digits2_pos p) - 1)) by lia.
    rewrite !Z.pow_succ_r by lia. lia.
  - cbn. lia.
Qed.

Lemma Zdigits2_log2 (m : Z) : 0 < m -> Zdigits2 m = Z.log2 m + 1.
Proof.
  intros Hm. destruct m as [| p | p]; [lia | | lia].
  cbn [Zdigits2]. pose proof (digits2_pos_bounds p) as Hb.
  assert (Hlog : Z.log2 (Z.pos p) = Z.pos (digits2_pos p) - 1).
  { apply Z.log2_unique; [lia |].
    replace (Z.succ (Z.pos (digits2_pos p) - 1)) with (Z.pos (digits2_pos p)) by lia.
    done. }
  lia.
Qed.

Lemma div2_xI (p : positive) : Z.pos p~1 / 2 = Z.pos p.
Proof. symmetry. apply (Z.div_unique _ _ _ 1); lia. Qed.

Lemma mod2_xI (p : positive) : Z.pos p~1 mod 2 = 1.
Proof. symmetry. apply (Z.mod_unique _ _ (Z.pos p)); lia. Qed.

Lemma div2_xO (p : positive) : Z.pos p~0 / 2 = Z.pos p.
Proof. symmetry. apply (Z.div_unique _ _ _ 0); lia. Qed.

Lemma mod2_xO (p : positive) : Z.pos p~0 mod 2 = 0.
Proof. symmetry. apply (Z.mod_unique _ _ (Z.pos p)); lia. Qed.

Lemma located_shr_1 (N D : Z) (mrs : shr_record) :
  0 <= N -> 0 < D -> located N D mrs -> located N (D * 2) (shr_1 mrs).
Proof.
  intros HN HD (Hm & Hr & Hs).
  pose proof (Z.mod_pos_bound N D HD) as Hrem.
  assert (Hq : 0 <= N / D) by (apply Z.div_pos; lia).
  assert (Hdiv : N / (D * 2) = N / D / 2) by (rewrite Z.div_div; lia).
  assert (Hmod : N mod (D * 2) = N mod D + D * ((N / D) mod 2))
    by (apply Z.rem_mul_r; lia).
  pose proof (Z.mod_pos_bound (N / D) 2 ltac:(lia)) as Hbit.
  pose proof (Z.div_mod (N / D) 2 ltac:(lia)) as Hdm.
  destruct mrs as [m r s]. cbn [shr_m shr_r shr_s] in *. subst r s.
  set (b := (N / D) mod 2) in *. set (q := N / D) in *. set (rem := N mod D) in *.
  assert (Hnew : shr_1 {| shr_m := m; shr_r := D <=? 2 * rem; shr_s := negb ((rem =? 0) || (2 * rem =? D)) |}
           = {| shr_m := q / 2; shr_r := (b =? 1);
                shr_s := (D <=? 2 * rem) || negb ((rem =? 0) || (2 * rem =? D)) |}).
  { rewrite Hm. unfold shr_1. subst b.
    destruct q as [| [p | p |] |] eqn:Eq; try lia.
    - reflexivity.
    - rewrite div2_xI, mod2_xI. reflexivity.
    - rewrite div2_xO, mod2_xO. reflexivity.
    - reflexivity. }
  rewrite Hnew. unfold located. cbn [shr_m shr_r shr_s].
  rewrite Hdiv, Hmod. split; [done |].
  clear Hnew Hdm Hmod Hdiv. clearbody b rem.
  assert (Hb : b = 0 \/ b = 1) by lia.
  destruct Hb as [-> | ->]; rewrite ?Z.mul_0_r, ?Z.mul_1_r, ?Z.add_0_r; split.
  - cbn. symmetry. apply Z.leb_gt. lia.
  - destruct (Z.leb_spec D (2 * rem)); destruct (Z.eqb_spec rem 0);
      destruct (Z.eqb_spec (2 * rem) D); destruct (Z.eqb_spec (2 * rem) (D * 2));
      cbn; try done; lia.
  - cbn. symmetry. apply Z.leb_le. lia.
  - destruct (Z.leb_spec D (2 * rem)); destruct (Z.eqb_spec rem 0);
      destruct (Z.eqb_spec (2 * rem) D); destruct (Z.eqb_spec (rem + D) 0);
      destruct (Z.eqb_spec (2 * (rem + D)) (D * 2));
      cbn; try done; lia.
Qed.

Lemma pow2_xI (p : positive) : 2 ^ Z.pos p~1 = 2 * 2 ^ Z.pos p * 2 ^ Z.pos p.
Proof.
  replace (Z.pos p~1) with (Z.pos p + Z.pos p + 1) by lia.
  rewrite !Z.pow_add_r by lia. ring.
Qed.

Lemma pow2_xO (p : positive) : 2 ^ Z.pos p~0 = 2 ^ Z.pos p * 2 ^ Z.pos p.
Proof.
  replace (Z.pos p~0) with (Z.pos p + Z.pos p) by lia.
  rewrite !Z.pow_add_r by lia. ring.
Qed.

Lemma located_iter (p : positive) : forall (N D : Z) (mrs : shr_record),
  0 <= N -> 0 < D -> located N D mrs ->
  located N (D * 2 ^ Z.pos p) (SpecFloat.iter_pos shr_1 p mrs).
Proof.
  induction p as [p IH | p IH |]; intros N D mrs HN HD Hloc; cbn [SpecFloat.iter_pos];
    try assert (Hpow : 0 < 2 ^ Z.pos p) by (apply Z.pow_pos_nonneg; lia).
  - rewrite pow2_xI.
    replace (D * (2 * 2 ^ Z.pos p * 2 ^ Z.pos p))
      with (D * 2 * 2 ^ Z.pos p * 2 ^ Z.pos p) by ring.
    apply IH; [done | nia |].
    apply IH; [done | lia |]. by apply located_shr_1.
  - rewrite pow2_xO.
    replace (D * (2 ^ Z.pos p * 2 ^ Z.pos p))
      with (D * 2 ^ Z.pos p * 2 ^ Z.pos p) by ring.
    apply IH; [done | nia |]. by apply IH.
  - replace (D * 2 ^ 1) with (D * 2) by lia. by apply located_shr_1.
Qed.

Lemma located_of_loc (N D : Z) :
  0 < D -> located N D (shr_record_of_loc (N / D) (loc_of N D)).
Proof.
  intros HD. pose proof (Z.mod_pos_bound N D HD) as Hrem.
  unfold loc_of, located.
  destruct (Z.eqb_spec (N mod D) 0) as [H0 | H0].
  - cbn. rewrite H0. cbn. split; [done |]. split; [| done].
    symmetry. apply Z.leb_gt. lia.
  - destruct (Z.compare_spec (2 * (N mod D)) D) as [He | Hlt | Hgt]; cbn;
      (split; [done |]); split.
    + symmetry. apply Z.leb_le. lia.
    + by rewrite (proj2 (Z.eqb_eq _ _) He).
    + symmetry. apply Z.leb_gt. lia.
    + rewrite (proj2 (Z.eqb_neq _ _)) by lia. done.
    + symmetry. apply Z.leb_le. lia.
    + rewrite (proj2 (Z.eqb_neq _ _)) by lia. done.
Qed.

Lemma located_shr (N D : Z) (mrs : shr_record) (e n : Z) :
  0 <= N -> 0 < D -> located N D mrs ->
  located N (D * 2 ^ Z.max n 0) (fst (shr mrs e n))
  /\ snd (shr mrs e n) = e + Z.max n 0.
Proof.
  intros HN HD Hloc. unfold shr. destruct n as [| p | p]; cbn [fst snd].
  - rewrite Z.max_id. cbn. rewrite Z.mul_1_r, Z.add_0_r. done.
  - rewrite Z.max_l by lia. split; [by apply located_iter | done].
  - rewrite Z.max_r by lia. cbn. rewrite Z.mul_1_r, Z.add_0_r. done.
Qed.

(** Rounding to nearest, ties to even, stays within a half. *)
Lemma round_nearest_even_located (N D : Z) (mrs : shr_record) :
  0 <= N -> 0 < D -> located N D mrs ->
  let m := round_nearest_even (shr_m mrs) (loc_of_shr_record mrs) in
  N / D <= m <= N / D + 1
  /\ 2 * D * m <= 2 * N + D
  /\ 2 * N <= 2 * D * m + D.
Proof.
  intros HN HD (Hm & Hr & Hs) m.
  pose proof (Z.mod_pos_bound N D HD) as Hrem.
  pose proof (Z.div_mod N D ltac:(lia)) as Hdm.
  destruct mrs as [m0 r s]. cbn [shr_m shr_r shr_s] in *. subst m0.
  set (q := N / D) in *. set (rem := N mod D) in *.
  assert (Hcases : (r = false /\ m = q /\ 2 * rem < D)
                   \/ (r = true /\ q <= m <= q + 1 /\ 2 * rem = D)
                   \/ (r = true /\ m = q + 1 /\ D < 2 * rem)).
  { subst m. unfold loc_of_shr_record, round_nearest_even.
    destruct (Z.leb_spec D (2 * rem)) as [Hle | Hlt]; subst r.
    - destruct (Z.eqb_spec rem 0) as [H0 | H0]; [lia |].
      destruct (Z.eqb_spec (2 * rem) D) as [He | Hne]; subst s; cbn.
      + right. left. destruct (Z.even q); lia.
      + right. right. lia.
    - left. destruct s; lia. }
  clearbody q rem m. nia.
Qed.

Lemma fexp_eq (e : Z) : fexp 53 1024 e = Z.max (e - 53) (-1074).
Proof. reflexivity. Qed.

Lemma Zdigits2_nonneg (m : Z) : 0 <= Zdigits2 m.
Proof. destruct m; cbn; lia. Qed.

Lemma Zdigits2_unique (m d : Z) :
  0 < m -> 2 ^ (d - 1) <= m < 2 ^ d -> Zdigits2 m = d.
Proof.
  intros Hm Hb. rewrite Zdigits2_log2 by done.
  assert (0 < d).
  { destruct (Z_lt_le_dec 0 d); [done |].
    assert (2 ^ d <= 2 ^ 0) by (apply Z.pow_le_mono_r; lia). change (2 ^ 0) with 1 in *. lia. }
  rewrite (Z.log2_unique m (d - 1)); [lia | lia |].
  replace (Z.succ (d - 1)) with d by lia. done.
Qed.

Lemma Zdigits2_bounds (m : Z) :
  0 < m -> 2 ^ (Zdigits2 m - 1) <= m < 2 ^ Zdigits2 m.
Proof.
  intros Hm. rewrite Zdigits2_log2 by done.
  pose proof (Z.log2_spec m Hm) as Hs.
  replace (Z.log2 m + 1 - 1) with (Z.log2 m) by lia.
  replace (Z.log2 m + 1) with (Z.succ (Z.log2 m)) by lia. done.
Qed.

Lemma Zdigits2_div_pow2 (m n : Z) :
  0 <= m -> 0 <= n -> Zdigits2 (m / 2 ^ n) = Z.max (Zdigits2 m - n) 0.
Proof.
  intros Hm Hn.
  assert (Hpow : 0 < 2 ^ n) by (apply Z.pow_pos_nonneg; lia).
  destruct (Z.eq_dec m 0) as [-> | Hne].
  { rewrite Z.div_0_l by lia. cbn. lia. }
  pose proof (Zdigits2_bounds m ltac:(lia)) as Hb.
  destruct (Z_lt_le_dec (Zdigits2 m) (n + 1)) as [Hsmall | Hbig].
  - assert (2 ^ Zdigits2 m <= 2 ^ n) by (apply Z.pow_le_mono_r; lia).
    rewrite Z.div_small by lia. cbn. lia.
  - rewrite Z.max_l by lia.
    assert (Hsplit : 2 ^ (Zdigits2 m - 1) = 2 ^ (Zdigits2 m - n - 1) * 2 ^ n).
    { rewrite <- Z.pow_add_r by lia. f_equal. lia. }
    assert (Hsplit' : 2 ^ Zdigits2 m = 2 ^ (Zdigits2 m - n) * 2 ^ n).
    { rewrite <- Z.pow_add_r by lia. f_equal. lia. }
    assert (Hlow : 2 ^ (Zdigits2 m - n - 1) <= m / 2 ^ n).
    { apply Z.div_le_lower_bound; [lia |]. rewrite Z.mul_comm. lia. }
    assert (Hhigh : m / 2 ^ n < 2 ^ (Zdigits2 m - n)).
    { apply Z.div_lt_upper_bound; [lia |]. rewrite Z.mul_comm. lia. }
    assert (0 < 2 ^ (Zdigits2 m - n - 1)) by (apply Z.pow_pos_nonneg; lia).
    apply Zdigits2_unique; [lia |]. lia.
Qed.

Lemma Zdigits2_succ (m1 m2 : Z) :
  0 <= m1 -> m1 <= m2 <= m1 + 1 ->
  Zdigits2 m2 = Zdigits2 m1
  \/ (Zdigits2 m2 = Zdigits2 m1 + 1 /\ m2 = 2 ^ Zdigits2 m1).
Proof.
  intros Hm1 Hm2.
  destruct (Z.eq_dec m2 m1) as [-> | Hne]; [by left |].
  assert (m2 = m1 + 1) as -> by lia.
  destruct (Z.eq_dec m1 0) as [-> | Hpos]; [right; done |].
  pose proof (Zdigits2_bounds m1 ltac:(lia)) as Hb.
  pose proof (Zdigits2_nonneg m1).
  destruct (Z.eq_dec (m1 + 1) (2 ^ Zdigits2 m1)) as [Heq | Hlt].
  - right. split; [| done]. apply Zdigits2_unique; [lia |].
    replace (Zdigits2 m1 + 1 - 1) with (Zdigits2 m1) by lia.
    rewrite Z.pow_add_r by lia. lia.
  - left. apply Zdigits2_unique; lia.
Qed.

(** The rounding of the quotient [N / D], scaled by [2 ^ ex], to a binary64
    number: the result is [m * 2 ^ e] with [m] within a half of
    [N / (D * 2 ^ (e - ex))]. *)
Lemma binary_round_aux_nearest (s : bool) (N D ex : Z) :
  0 <= N -> 0 < D -> -1074 <= ex ->
  let e := Z.max ex (fexp 53 1024 (Zdigits2 (N / D) + ex)) in
  e <= 970 ->
  exists m,
    0 <= m
    /\ 2 * (D * 2 ^ (e - ex)) * m <= 2 * N + D * 2 ^ (e - ex)
    /\ 2 * N <= 2 * (D * 2 ^ (e - ex)) * m + D * 2 ^ (e - ex)
    /\ denotes (binary_round_aux 53 1024 s (N / D) ex (loc_of N D)) s m e.
Proof.
  intros HN HD Hex e He.
  set (n := fexp 53 1024 (Zdigits2 (N / D) + ex) - ex).
  assert (Hen : e - ex = Z.max n 0) by (subst e n; lia).
  assert (Hpow : 0 < 2 ^ Z.max n 0) by (apply Z.pow_pos_nonneg; lia).
  unfold binary_round_aux, shr_fexp. fold n.
  pose proof (located_shr N D (shr_record_of_loc (N / D) (loc_of N D)) ex n
                HN HD (located_of_loc N D HD)) as [Hloc He'].
  destruct (shr (shr_record_of_loc (N / D) (loc_of N D)) ex n) as [mrs' e'].
  cbn [fst snd] in Hloc, He'.
  assert (e' = e) as -> by lia.
  pose proof (round_nearest_even_located N (D * 2 ^ Z.max n 0) mrs' HN
                ltac:(nia) Hloc) as (Hm12 & Hup & Hdown).
  set (m2 := round_nearest_even (shr_m mrs') (loc_of_shr_record mrs')) in *.
  assert (Hq : 0 <= N / D) by (apply Z.div_pos; lia).
  assert (Hm1 : N / (D * 2 ^ Z.max n 0) = N / D / 2 ^ Z.max n 0)
    by (rewrite Z.div_div; lia).
  assert (Hm1' : 0 <= N / (D * 2 ^ Z.max n 0)) by (apply Z.div_pos; nia).
  assert (Hd1 : Zdigits2 (N / (D * 2 ^ Z.max n 0))
                = Z.max (Zdigits2 (N / D) - Z.max n 0) 0).
  { rewrite Hm1. apply Zdigits2_div_pow2; lia. }
  pose proof (Zdigits2_nonneg (N / D)) as Hdq.
  pose proof (Zdigits2_succ _ m2 Hm1' Hm12) as Hd2.
  set (n2 := fexp 53 1024 (Zdigits2 m2 + e) - e).
  assert (Hn2 : n2 <= 0 \/ (n2 = 1 /\ exists k, 0 < k /\ m2 = 2 * k)).
  { subst n2. rewrite fexp_eq. subst e n. rewrite fexp_eq in *.
    destruct Hd2 as [Hsame | [Hsucc Hpow2]].
    - left. rewrite Hsame, Hd1. lia.
    - destruct (Z.eq_dec (Zdigits2 (N / (D * 2 ^ Z.max (Z.max (Zdigits2 (N / D) + ex - 53) (-1074) - ex) 0))) 0)
        as [Hz | Hnz].
      + left. rewrite Hsucc, Hz. lia.
      + assert (Hge : 1 <= Zdigits2 (N / (D * 2 ^ Z.max (Z.max (Zdigits2 (N / D) + ex - 53) (-1074) - ex) 0))) by lia.
        destruct (Z_le_gt_dec (Z.max (Zdigits2 m2 + Z.max ex (Z.max (Zdigits2 (N / D) + ex - 53) (-1074)) - 53) (-1074)
                    - Z.max ex (Z.max (Zdigits2 (N / D) + ex - 53) (-1074))) 0) as [Hle | Hgt]; [by left |].
        right. split; [rewrite Hsucc, Hd1 in *; lia |].
        exists (2 ^ (Zdigits2 (N / (D * 2 ^ Z.max (Z.max (Zdigits2 (N / D) + ex - 53) (-1074) - ex) 0)) - 1)).
        split; [apply Z.pow_pos_nonneg; lia |].
        rewrite Hpow2. rewrite <- Z.pow_succ_r by lia. f_equal. lia. }
  exists m2. split; [lia |]. rewrite Hen. split; [done |]. split; [done |].
  fold n2.
  pose proof (located_shr m2 1 (shr_record_of_loc m2 loc_Exact) e n2
                ltac:(lia) ltac:(lia)) as Hsecond.
  destruct Hsecond as [Hloc2 He2].
  { unfold located. cbn. rewrite Z.mod_1_r, Z.div_1_r. done. }
  destruct (shr (shr_record_of_loc m2 loc_Exact) e n2) as [mrs'' e''].
  cbn [fst snd] in Hloc2, He2. destruct Hloc2 as (Hm3 & _). rewrite Hm3.
  rewrite Z.mul_1_l in Hm3 |- *.
  destruct Hn2 as [Hle | (H1 & k & Hk & Hm2k)].
  - rewrite Z.max_r in * by lia. change (2 ^ 0) with 1. rewrite Z.div_1_r.
    destruct m2 as [| p | p] eqn:Em2; [done | | lia].
    rewrite (proj2 (Z.leb_le e'' (1024 - 53))) by lia. cbn.
    split; [done |]. split; [lia |]. replace (e'' - e) with 0 by lia. lia.
  - rewrite Z.max_l in * by lia. rewrite H1 in *. change (2 ^ 1) with 2.
    rewrite Hm2k. rewrite (Z.mul_comm 2 k), Z.div_mul by lia.
    destruct k as [| p | p]; [lia | | lia].
    rewrite (proj2 (Z.leb_le e'' (1024 - 53))) by lia. cbn.
    split; [done |]. split; [lia |]. replace (e'' - e) with 1 by lia. lia.
Qed.

Lemma ten_eq : Number_of_Z 10 = S754_finite false 5629499534213120 (-49).
Proof. reflexivity. Qed.

Lemma bounded_inv (mx : positive) (ex : Z) :
  bounded 53 1024 mx ex = true ->
  Z.pos (digits2_pos mx) <= 53 /\ -1074 <= ex <= 971
  /\ (Z.pos (digits2_pos mx) = 53 \/ ex = -1074).
Proof.
  unfold bounded, canonical_mantissa. rewrite fexp_eq.
  intros [Hc He]%andb_prop. apply Z.eqb_eq in Hc. apply Z.leb_le in He.
  change (1024 - 53) with 971 in He. lia.
Qed.

(** Dividing a binary64 number by ten: the result is [m * 2 ^ e] with
    [m * 2 ^ e] within half a unit in the last place, [2 ^ e / 2], of the
    exact tenth. *)
Lemma SFdiv_ten (s : bool) (mx : positive) (ex : Z) :
  bounded 53 1024 mx ex = true ->
  exists m e,
    denotes (Number_div (S754_finite s mx ex) (Number_of_Z 10)) s m e
    /\ 0 <= m /\ -1074 <= e <= Z.max (ex - 3) (-1074)
    /\ 10 * m * 2 ^ (e + 1124) <= Z.pos mx * 2 ^ (ex + 1124) + 5 * 2 ^ (e + 1124)
    /\ Z.pos mx * 2 ^ (ex + 1124) <= 10 * m * 2 ^ (e + 1124) + 5 * 2 ^ (e + 1124).
Proof.
  intros (Hd1 & Hex & Hcanon)%bounded_inv.
  set (D := 5629499534213120).
  set (d1 := Z.pos (digits2_pos mx)) in *.
  set (e' := Z.max (d1 + ex - 57) (-1074)).
  set (sh := ex + 49 - e').
  assert (Hsh : 0 < sh) by (subst sh e'; lia).
  set (N := Z.pos mx * 2 ^ sh).
  assert (Hpsh : 0 < 2 ^ sh) by (apply Z.pow_pos_nonneg; lia).
  assert (HN : 0 <= N) by (subst N; nia).
  assert (Hcore : SFdiv_core_binary 53 1024 (Z.pos mx) ex (Z.pos 5629499534213120) (-49)
                  = (N / D, e', loc_of N D)).
  { unfold SFdiv_core_binary. cbn [Zdigits2].
    change (Z.pos (digits2_pos 5629499534213120)) with 53. fold d1.
    rewrite fexp_eq.
    replace (Z.min (Z.max (d1 + ex - (53 + -49) - 53) (-1074)) (ex - -49)) with e'
      by (subst e'; lia).
    replace (ex - -49 - e') with sh by (subst sh; lia).
    destruct sh as [| p | p] eqn:Esh; [lia | | lia].
    rewrite Z.shiftl_mul_pow2 by lia. fold N.
    fold D. unfold loc_of, new_location, new_location_even.
    change (Z.even D) with true. cbn match.
    unfold Z.div, Z.modulo. destruct (Z.div_eucl N D) as [q r]. reflexivity. }
  rewrite ten_eq. unfold Number_div, SFdiv. rewrite Hcore, xorb_false_r.
  assert (HD : 0 < D) by done.
  assert (He' : -1074 <= e') by (subst e'; lia).
  pose proof (digits2_pos_bounds mx) as Hmx. fold d1 in Hmx.
  assert (Hq : 0 <= N / D) by (apply Z.div_pos; lia).
  assert (Hdq : Zdigits2 (N / D) + e' <= d1 + ex - 3 \/ N / D = 0).
  { destruct (Z.eq_dec (N / D) 0) as [Hz | Hnz]; [by right | left].
    pose proof (Zdigits2_bounds (N / D) ltac:(lia)) as Hb.
    assert (Hmul : Z.pos mx * 2 ^ sh < 2 ^ d1 * 2 ^ sh)
      by (apply Z.mul_lt_mono_pos_r; lia).
    assert (Hbig : 52 < d1 + sh).
    { destruct (Z_lt_le_dec 52 (d1 + sh)) as [| Hsmall]; [done |].
      exfalso. apply Hnz. apply Z.div_small.
      assert (2 ^ (d1 + sh) <= 2 ^ 52) by (apply Z.pow_le_mono_r; lia).
      rewrite Z.pow_add_r in * by lia.
      assert (2 ^ 52 <= D) by done. subst N. lia. }
    assert (Hlt : N / D < 2 ^ (d1 + sh - 52)).
    { apply Z.div_lt_upper_bound; [done |].
      assert (2 ^ 52 * 2 ^ (d1 + sh - 52) = 2 ^ d1 * 2 ^ sh).
      { rewrite <- !Z.pow_add_r by lia. f_equal. lia. }
      assert (2 ^ 52 <= D) by done.
      assert (0 < 2 ^ (d1 + sh - 52)) by (apply Z.pow_pos_nonneg; lia).
      assert (2 ^ 52 * 2 ^ (d1 + sh - 52) <= D * 2 ^ (d1 + sh - 52))
        by (apply Z.mul_le_mono_nonneg_r; lia).
      subst N. lia. }
    assert (Zdigits2 (N / D) - 1 < d1 + sh - 52).
    { apply (Z.pow_lt_mono_r_iff 2); [lia | lia | lia]. }
    subst sh. lia. }
  pose proof (Zdigits2_nonneg (N / D)) as Hdq0.
  set (e := Z.max e' (fexp 53 1024 (Zdigits2 (N / D) + e'))).
  assert (Hebound : e' <= e <= Z.max (ex - 3) (-1074)).
  { subst e. rewrite fexp_eq. destruct Hdq as [Hdq | Hz].
    - subst e'. lia.
    - rewrite Hz. cbn [Zdigits2]. subst e'. lia. }
  destruct (binary_round_aux_nearest s N D e' HN HD He' ltac:(fold e; lia))
    as (m & Hm & Hup & Hdown & Hden).
  fold e in Hup, Hdown, Hden.
  exists m, e. split; [done |]. split; [done |]. split; [lia |].
  assert (Hscale : D * 2 ^ (e - e') * 2 ^ (e' + 1074) = 5 * 2 ^ (e + 1124)).
  { subst D. change 5629499534213120 with (5 * 2 ^ 50).
    rewrite <- !Z.mul_assoc. f_equal. rewrite <- !Z.pow_add_r by lia. f_equal. lia. }
  assert (HscaleN : 2 * N * 2 ^ (e' + 1074) = Z.pos mx * 2 ^ (ex + 1124)).
  { subst N. replace (ex + 1124) with (sh + (e' + 1074) + 1) by (subst sh; lia).
    rewrite (Z.pow_add_r 2 (sh + (e' + 1074)) 1) by lia.
    rewrite (Z.pow_add_r 2 sh (e' + 1074)) by lia. ring. }
  assert (Hp : 0 < 2 ^ (e' + 1074)) by (apply Z.pow_pos_nonneg; lia).
  set (G := 2 ^ (e' + 1074)) in *. set (B := D * 2 ^ (e - e')) in *.
  assert (H1 : 2 * B * m * G <= (2 * N + B) * G)
    by (apply Z.mul_le_mono_nonneg_r; lia).
  assert (H2 : 2 * N * G <= (2 * B * m + B) * G)
    by (apply Z.mul_le_mono_nonneg_r; lia).
  replace (2 * B * m * G) with (2 * m * (B * G)) in H1 by ring.
  replace ((2 * N + B) * G) with (2 * N * G + B * G) in H1 by ring.
  replace ((2 * B * m + B) * G) with (2 * m * (B * G) + B * G) in H2 by ring.
  rewrite Hscale, HscaleN in H1, H2. lia.
Qed.

Lemma half_pow2 (k : Z) : 0 < k -> 2 ^ k / 2 = 2 ^ (k - 1).
Proof.
  intros Hk. replace k with (Z.succ (k - 1)) at 1 by lia.
  rewrite Z.pow_succ_r by lia. rewrite Z.mul_comm, Z.div_mul by lia. done.
Qed.

Lemma Math_round_denotes (x : Number) (s : bool) (m e : Z) :
  denotes x s m e -> e < -1 -> 0 <= m ->
  Math_round x
  = integral s (if s then (m + 2 ^ (- e - 1) - 1) / 2 ^ (- e)
                else (m + 2 ^ (- e - 1)) / 2 ^ (- e)).
Proof.
  intros Hden He Hm.
  assert (HP : 0 < 2 ^ (- e - 1)) by (apply Z.pow_pos_nonneg; lia).
  assert (H2P : 2 ^ (- e) = 2 * 2 ^ (- e - 1)).
  { rewrite <- Z.pow_succ_r by lia. f_equal. lia. }
  destruct x as [s' | s' | | s' mx ex]; cbn [denotes] in Hden; try done.
  - destruct Hden as [-> ->]. cbn [Math_round]. rewrite H2P.
    destruct s.
    + rewrite Z.div_small by lia. done.
    + rewrite Z.div_small by lia. done.
  - destruct Hden as (-> & Hex & ->). cbn [Math_round].
    rewrite (proj2 (Z.leb_gt 0 ex)) by lia.
    rewrite half_pow2 by lia. f_equal.
    assert (Hd : 0 < 2 ^ (- ex - 1)) by (apply Z.pow_pos_nonneg; lia).
    assert (H2d : 2 ^ (- ex) = 2 * 2 ^ (- ex - 1)).
    { rewrite <- Z.pow_succ_r by lia. f_equal. lia. }
    assert (Hj : ex = e \/ ex = e + 1) by lia.
    destruct Hj as [-> | ->].
    + rewrite Z.sub_diag. change (2 ^ 0) with 1. rewrite Z.mul_1_r. done.
    + replace (e + 1 - e) with 1 by lia. change (2 ^ 1) with 2.
      replace (- (e + 1)) with (- e - 1) by lia.
      replace (- e - 1 - 1) with (- e - 2) by lia.
      assert (Hq : 2 ^ (- e - 1) = 2 * 2 ^ (- e - 2)).
      { rewrite <- Z.pow_succ_r by lia. f_equal. lia. }
      assert (Hq' : 0 < 2 ^ (- e - 2)) by (apply Z.pow_pos_nonneg; lia).
      rewrite H2P. set (d := 2 ^ (- e - 1)) in *. set (h := 2 ^ (- e - 2)) in *.
      destruct s.
      * replace (Z.pos mx * 2 + d - 1) with ((Z.pos mx + h - 1) * 2 + 1) by lia.
        rewrite <- Z.div_div by lia.
        replace (((Z.pos mx + h - 1) * 2 + 1) / 2) with (Z.pos mx + h - 1); [done |].
        apply (Z.div_unique _ _ _ 1); lia.
      * replace (Z.pos mx * 2 + d) with ((Z.pos mx + h) * 2) by lia.
        replace (2 * d) with (d * 2) by lia.
        rewrite Z.div_mul_cancel_r by lia. done.
Qed.

Lemma Math_round_tenth (s : bool) (mx : positive) (ex : Z) :
  bounded 53 1024 mx ex = true -> ex <= 0 ->
  Math_round (Number_div (S754_finite s mx ex) (Number_of_Z 10))
  = integral s (if s then (Z.pos mx + 5 * 2 ^ (- ex) - 1) / (10 * 2 ^ (- ex))
                else (Z.pos mx + 5 * 2 ^ (- ex)) / (10 * 2 ^ (- ex))).
Proof.
  intros Hb Hex0. pose proof (bounded_inv _ _ Hb) as (Hd1 & Hex & _).
  pose proof (digits2_pos_bounds mx) as [_ Hmx].
  assert (Hmx53 : Z.pos mx < 2 ^ 53).
  { eapply Z.lt_le_trans; [exact Hmx |]. apply Z.pow_le_mono_r; lia. }
  destruct (SFdiv_ten s mx ex Hb) as (m & e & Hden & Hm & He & Hup & Hdown).
  rewrite (Math_round_denotes _ s m e Hden) by lia.
  f_equal.
  set (A := 2 ^ (- ex)). set (P := 2 ^ (- e - 1)).
  assert (HA : 0 < A) by (apply Z.pow_pos_nonneg; lia).
  assert (HP : 0 < P) by (apply Z.pow_pos_nonneg; lia).
  assert (H2P : 2 ^ (- e) = 2 * P).
  { subst P. rewrite <- Z.pow_succ_r by lia. f_equal. lia. }
  rewrite H2P.
  set (X := 2 ^ (e + 1124)) in *. set (V := 2 ^ (ex + 1124)) in *.
  assert (HX : 0 < X) by (apply Z.pow_pos_nonneg; lia).
  destruct (Z_le_gt_dec e (ex - 3)) as [Hmain | Htiny].
  - set (T := 2 ^ (ex - 1 - e)).
    assert (HT : 4 <= T).
    { change 4 with (2 ^ 2). apply Z.pow_le_mono_r; lia. }
    assert (HV : V = 2 * T * X).
    { subst V T X. rewrite <- Z.pow_succ_r, <- Z.pow_add_r by lia. f_equal. lia. }
    assert (HPAT : P = A * T).
    { subst P A T. rewrite <- Z.pow_add_r by lia. f_equal. lia. }
    rewrite HV in Hup, Hdown.
    assert (Hup' : 10 * m <= 2 * Z.pos mx * T + 5) by nia.
    assert (Hdown' : 2 * Z.pos mx * T <= 10 * m + 5) by nia.
    clear Hup Hdown HV. clearbody X V.
    destruct s.
    + set (k := (Z.pos mx + 5 * A - 1) / (10 * A)).
      pose proof (Z.div_mod (Z.pos mx + 5 * A - 1) (10 * A) ltac:(lia)) as Hk.
      pose proof (Z.mod_pos_bound (Z.pos mx + 5 * A - 1) (10 * A) ltac:(lia)) as Hr.
      fold k in Hk. set (r := (Z.pos mx + 5 * A - 1) mod (10 * A)) in *.
      assert (Hlow : (2 * k - 1) * 5 * A + 1 <= Z.pos mx) by lia.
      assert (Hhigh : Z.pos mx <= (2 * k + 1) * 5 * A) by lia.
      assert (Hlow' : ((2 * k - 1) * 5 * A + 1) * T <= Z.pos mx * T)
        by (apply Z.mul_le_mono_nonneg_r; lia).
      assert (Hhigh' : Z.pos mx * T <= (2 * k + 1) * 5 * A * T)
        by (apply Z.mul_le_mono_nonneg_r; lia).
      rewrite HPAT. symmetry.
      apply (Z.div_unique _ _ _ (m + A * T - 1 - 2 * (A * T) * k)).
      * set (AT := A * T) in *.
        replace (((2 * k - 1) * 5 * A + 1) * T) with ((2 * k - 1) * 5 * AT + T) in Hlow' by (subst AT; ring).
        replace ((2 * k + 1) * 5 * A * T) with ((2 * k + 1) * 5 * AT) in Hhigh' by (subst AT; ring).
        lia.
      * lia.
    + set (k := (Z.pos mx + 5 * A) / (10 * A)).
      pose proof (Z.div_mod (Z.pos mx + 5 * A) (10 * A) ltac:(lia)) as Hk.
      pose proof (Z.mod_pos_bound (Z.pos mx + 5 * A) (10 * A) ltac:(lia)) as Hr.
      fold k in Hk. set (r := (Z.pos mx + 5 * A) mod (10 * A)) in *.
      assert (Hlow : (2 * k - 1) * 5 * A <= Z.pos mx) by lia.
      assert (Hhigh : Z.pos mx + 1 <= (2 * k + 1) * 5 * A) by lia.
      assert (Hlow' : (2 * k - 1) * 5 * A * T <= Z.pos mx * T)
        by (apply Z.mul_le_mono_nonneg_r; lia).
      assert (Hhigh' : (Z.pos mx + 1) * T <= (2 * k + 1) * 5 * A * T)
        by (apply Z.mul_le_mono_nonneg_r; lia).
      rewrite HPAT. symmetry.
      apply (Z.div_unique _ _ _ (m + A * T - 2 * (A * T) * k)).
      * set (AT := A * T) in *.
        replace ((2 * k - 1) * 5 * A * T) with ((2 * k - 1) * 5 * AT) in Hlow' by (subst AT; ring).
        replace ((2 * k + 1) * 5 * A * T) with ((2 * k + 1) * 5 * AT) in Hhigh' by (subst AT; ring).
        lia.
      * lia.
  - assert (He1074 : e = -1074) by lia.
    assert (HA' : 2 ^ 1072 <= A) by (subst A; apply Z.pow_le_mono_r; lia).
    assert (HV : V <= 2 ^ 52) by (subst V; apply Z.pow_le_mono_r; lia).
    assert (HVpos : 0 < V) by (subst V; apply Z.pow_pos_nonneg; lia).
    subst X P. rewrite He1074 in *.
    change (-1074 + 1124) with 50 in *. change (- -1074 - 1) with 1073 in *.
    assert (Hmsmall : m < 2 ^ 60).
    { assert (Z.pos mx * V <= 2 ^ 53 * 2 ^ 52) by (apply Z.mul_le_mono_nonneg; lia).
      change (2 ^ 50) with 1125899906842624 in *. 
      change (2 ^ 53 * 2 ^ 52) with 40564819207303340847894502572032 in *.
      change (2 ^ 60) with 1152921504606846976. lia. }
    assert (H60 : 2 ^ 60 < 2 ^ 1072) by (apply Z.pow_lt_mono_r; lia).
    assert (H53 : 2 ^ 53 < 2 ^ 1072) by (apply Z.pow_lt_mono_r; lia).
    assert (H1073 : 2 ^ 1073 = 2 * 2 ^ 1072) by (rewrite <- Z.pow_succ_r by lia; done).
    clearbody A V. set (Q1 := 2 ^ 1072) in *. set (Q2 := 2 ^ 1073) in *.
    clearbody Q1 Q2.
    destruct s; rewrite !Z.div_small by lia; done.
Qed.

Lemma Qpower_2_nonneg (e : Z) : 0 <= e -> (2 ^ e == inject_Z (2 ^ e))%Q.
Proof. intros He. by rewrite Zpower_Qpower. Qed.

Lemma Qpower_2_nonpos (e : Z) : e <= 0 -> (2 ^ e == / inject_Z (2 ^ (- e)))%Q.
Proof.
  intros He. replace e with (- - e) at 1 by lia.
  rewrite Qpower_opp, Zpower_Qpower by lia. reflexivity.
Qed.

Lemma inject_Z_pow2_pos (k : Z) : 0 <= k -> (0 < inject_Z (2 ^ k))%Q.
Proof.
  intros Hk. change 0%Q with (inject_Z 0). rewrite <- Zlt_Qlt.
  apply Z.pow_pos_nonneg; lia.
Qed.

(** A finite Number without a positive exponent is a fraction with a power
    of two below. *)
Lemma Number_value_frac (s : bool) (m : positive) (e : Z) :
  e <= 0 ->
  (Number_value (S754_finite s m e)
   == inject_Z (cond_Zopp s (Z.pos m)) / inject_Z (2 ^ (- e)))%Q.
Proof.
  intros He. cbn [Number_value]. rewrite Qpower_2_nonpos by done. reflexivity.
Qed.

Lemma Number_value_int (s : bool) (m : positive) (e : Z) :
  0 <= e ->
  (Number_value (S754_finite s m e)
   == inject_Z (cond_Zopp s (Z.pos m) * 2 ^ e))%Q.
Proof.
  intros He. cbn [Number_value]. rewrite Qpower_2_nonneg by done.
  by rewrite inject_Z_mult.
Qed.

(** A Number below 2^53 in absolute value has no positive exponent. *)
Lemma small_exponent (s : bool) (m : positive) (e : Z) :
  bounded 53 1024 m e = true ->
  (- inject_Z (2 ^ 53) < Number_value (S754_finite s m e) < inject_Z (2 ^ 53))%Q ->
  e <= 0.
Proof.
  intros (Hd & He & Hcanon)%bounded_inv [Hlow Hhigh].
  destruct (Z_le_gt_dec e 0) as [| Hpos]; [done | exfalso].
  rewrite Number_value_int in Hlow, Hhigh by lia.
  rewrite <- inject_Z_opp in Hlow. rewrite <- Zlt_Qlt in Hlow, Hhigh.
  pose proof (digits2_pos_bounds m) as [Hm _].
  destruct Hcanon as [H53 | ?]; [| lia]. rewrite H53 in Hm.
  change (53 - 1) with 52 in Hm.
  assert (Hp : 2 <= 2 ^ e).
  { change 2 with (2 ^ 1) at 1. apply Z.pow_le_mono_r; lia. }
  assert (2 ^ 52 * 2 <= Z.pos m * 2 ^ e) by (apply Z.mul_le_mono_nonneg; lia).
  change (2 ^ 52 * 2) with (2 ^ 53) in *.
  destruct s; cbn [cond_Zopp] in *; lia.
Qed.

Lemma round_half_up_tenth_frac (s : bool) (m : positive) (e : Z) :
  e <= 0 ->
  round_half_up_tenth (S754_finite s m e)
  = (cond_Zopp s (Z.pos m) + 5 * 2 ^ (- e)) / (10 * 2 ^ (- e)).
Proof.
  intros He. unfold round_half_up_tenth. rewrite Zdiv_Qdiv.
  apply Qfloor_comp. rewrite Number_value_frac by done.
  pose proof (inject_Z_pow2_pos (- e) ltac:(lia)) as Hp.
  rewrite inject_Z_plus, !inject_Z_mult.
  change (inject_Z 5) with 5%Q. change (inject_Z 10) with 10%Q.
  field. lra.
Qed.

(** The floor of a negative fraction is minus the ceiling of its opposite. *)
Lemma div_opp_ceiling (m A : Z) :
  0 < A -> (- m + 5 * A) / (10 * A) = - ((m + 5 * A - 1) / (10 * A)).
Proof.
  intros HA.
  pose proof (Z.div_mod (m + 5 * A - 1) (10 * A) ltac:(lia)) as Hk.
  pose proof (Z.mod_pos_bound (m + 5 * A - 1) (10 * A) ltac:(lia)) as Hr.
  symmetry.
  apply (Z.div_unique _ _ _ (10 * A - 1 - (m + 5 * A - 1) mod (10 * A))); lia.
Qed.

(** *** The command string *)

Lemma String_integral (s : bool) (n : Z) :
  0 <= n -> String_of_Number (integral s n) = Number_toString (cond_Zopp s n).
Proof.
  intros Hn. destruct n as [| k | k]; [| | lia].
  - cbn [integral String_of_Number]. by destruct s.
  - cbn [integral String_of_Number]. by rewrite Z.shiftl_0_r.
Qed.

(** What [String(Math.round(v / 10))] is for a Number below 2^53 in absolute
    value: the decimal string of the integer nearest to the exact tenth, a
    half rounding up. The rounding of the division does not move the quotient
    across a half. *)
Lemma String_tenth (v : Number) :
  Number_valid v = true -> isFinite v = true ->
  (- (9007199254740992) < Number_value v < 9007199254740992)%Q ->
  String_of_Number (Math_round (Number_div v (Number_of_Z 10)))
  = Number_toString (round_half_up_tenth v).
Proof.
  intros Hvalid Hfin Hsmall.
  destruct v as [[] | | | s m e]; [reflexivity | reflexivity | done | done |].
  cbn [Number_valid valid_binary] in Hvalid.
  assert (He : e <= 0) by (by eapply small_exponent).
  assert (HA : 0 < 2 ^ (- e)) by (apply Z.pow_pos_nonneg; lia).
  rewrite Math_round_tenth, round_half_up_tenth_frac by done.
  rewrite String_integral by (destruct s; apply Z.div_pos; lia).
  f_equal. destruct s; cbn [cond_Zopp]; [| done].
  change (Z.neg m) with (- Z.pos m). by rewrite div_opp_ceiling.
Qed.

(** The rounded tenth is within a half of the tenth. *)
Lemma round_half_up_tenth_nearest (v : Number) :
  (inject_Z (10 * round_half_up_tenth v) - 5 <= Number_value v
   < inject_Z (10 * round_half_up_tenth v) + 5)%Q.
Proof.
  unfold round_half_up_tenth.
  set (q := (Number_value v / 10 + (1 # 2))%Q).
  pose proof (Qfloor_le q) as Hlow. pose proof (Qlt_floor q) as Hhigh.
  rewrite inject_Z_plus in Hhigh. rewrite inject_Z_mult.
  change (inject_Z 10) with 10%Q. change (inject_Z 1) with 1%Q in Hhigh.
  subst q. change (Number_value v / 10)%Q with (Number_value v * (1 # 10))%Q in *.
  lra.
Qed.

Lemma frequencyCommand_exact (v : Number) :
  Number_valid v = true -> isFinite v = true ->
  (- (9007199254740992) < Number_value v < 9007199254740992)%Q ->
  frequencyCommand v
  = js "*F" ++ padStart (Number_toString (round_half_up_tenth v)) 7 (js "0000000").
Proof.
  intros Hvalid Hfin Hsmall. unfold frequencyCommand. by rewrite String_tenth.
Qed.

(** What is not a finite Number, the NaN of a text that is not numeric or an
    infinity, is not checked either. *)
Lemma frequencyCommand_not_finite :
  frequencyCommand S754_nan = js "*F0000NaN"
  /\ frequencyCommand (S754_infinity false) = js "*FInfinity"
  /\ frequencyCommand (S754_infinity true) = js "*F-Infinity".
Proof. split; [reflexivity | split; reflexivity]. Qed.

Lemma frequencyCommand_refines (v : Number) :
  Number_valid v = true -> isFinite v = true ->
  (0 <= Number_value v < 99999995)%Q ->
  frequencyCommand v = frequencyCommand_spec v.
Proof.
  intros Hvalid Hfin Hv.
  rewrite frequencyCommand_exact by (done || lra).
  unfold frequencyCommand_spec. f_equal.
  pose proof (round_half_up_tenth_nearest v) as [Hlow Hhigh].
  set (f := round_half_up_tenth v) in *.
  assert (Hf : 0 <= f < 10 ^ Z.of_nat 7).
  { change (10 ^ Z.of_nat 7) with 10000000.
    assert (Hq : (inject_Z (-1) < inject_Z f < inject_Z 10000000)%Q).
    { rewrite inject_Z_mult in Hlow, Hhigh.
      change (inject_Z 10) with 10%Q in *.
      change (inject_Z (-1)) with (-1)%Q. change (inject_Z 10000000) with 10000000%Q.
      lra. }
    rewrite <- !Zlt_Qlt in Hq. lia. }
  unfold Number_toString.
  destruct (Z.ltb_spec f 0) as [Hneg | _]; [lia |].
  destruct (digits_padded 6 f Hf) as [Hlen Heq].
  by rewrite padStart_zeros.
Qed.

(** C2 (amended to the values whose rounded tenth has at most 7 digits): for
    every Number [0 <= v < 99999995], with or without a fraction,
    [setFrequency] rounds the quotient of the binary64 division [v / 10] to
    the integer nearest to the exact tenth, a half rounding up (15005 gives
    1501), writes it with exactly 7 digits, zero-padded on the left, after
    [*F], and hands the frame of that string to [sendSerial], which writes it
    to a writable port. *)
Theorem setFrequency_seven_digits (v : Number) (p : Page) :
  Number_valid v = true -> isFinite v = true ->
  (0 <= Number_value v < 99999995)%Q ->
  let cmd := js "*F" ++ fixedDigits 7 (round_half_up_tenth v) in
  let frame := [10] ++ TextEncoder.encode cmd ++ [13] in
  frequencyCommand v = cmd
  /\ length cmd = 9%nat
  /\ setFrequency (changeEvent v) p = sendSerial frame p
  /\ (forall h, port p = Some h -> writable (view p h) = true ->
        writableLocked (view p h) = false ->
        calls (snd (setFrequency (changeEvent v) p))
        = calls p ++ [CallGetWriter h; CallWrite h frame; CallWriterReleaseLock h])
  /\ round_half_up_tenth (Number_of_Z 15005) = 1501
  /\ frequencyCommand (Number_of_Z 15005) = js "*F0001501".
Proof.
  intros Hvalid Hfin Hv cmd frame.
  assert (Hcmd : frequencyCommand v = cmd) by by apply frequencyCommand_refines.
  assert (Hcmd' : length (fixedDigits 7 (round_half_up_tenth v)) = 7%nat).
  { reflexivity. }
  assert (Hset : setFrequency (changeEvent v) p = sendSerial frame p).
  { unfold setFrequency, changeEvent. cbn [currentTarget value].
    by rewrite Hcmd, toXK852Cmd_eq. }
  split; [done |]. split.
  { subst cmd. rewrite length_app, Hcmd'. done. }
  split; [done |]. split; [| split; reflexivity].
  intros h Hport Hw Hl. rewrite Hset. unfold sendSerial.
  rewrite Hport, Hw, Hl. cbn. by rewrite <- !app_assoc.
Qed.

(** On the value 15005.5, which is 8249360865296384 / 2^39, and a connected
    page: the tenth 1500.55 is rounded to 1501 and the frame of [*F0001501]
    is written to the port. *)
Lemma setFrequency_seven_digits_witness :
  Number_valid (S754_finite false 8249360865296384 (-39)) = true
  /\ (0 <= Number_value (S754_finite false 8249360865296384 (-39)) < 99999995)%Q
  /\ (Number_value (S754_finite false 8249360865296384 (-39)) == 30011 # 2)%Q
  /\ setFrequency (changeEvent (S754_finite false 8249360865296384 (-39)))
       (connectedPage 7%nat 3%nat)
     = sendSerial [10; 42; 70; 48; 48; 48; 49; 53; 48; 49; 13]
         (connectedPage 7%nat 3%nat)
  /\ calls (snd (setFrequency (changeEvent (S754_finite false 8249360865296384 (-39)))
                   (connectedPage 7%nat 3%nat)))
     = [CallOpen 7%nat; CallGetReader 7%nat; CallRead 3%nat;
        CallGetWriter 7%nat;
        CallWrite 7%nat [10; 42; 70; 48; 48; 48; 49; 53; 48; 49; 13];
        CallWriterReleaseLock 7%nat].
Proof.
  assert (Hv : (0 <= Number_value (S754_finite false 8249360865296384 (-39))
                < 99999995)%Q).
  { split; vm_compute; [discriminate | reflexivity]. }
  pose proof (setFrequency_seven_digits (S754_finite false 8249360865296384 (-39))
                (connectedPage 7%nat 3%nat) eq_refl eq_refl Hv)
    as (_ & _ & Hsend & Hcalls & _).
  split; [reflexivity |]. split; [exact Hv |]. split; [reflexivity |].
  split; [exact Hsend |].
  exact (Hcalls 7%nat eq_refl eq_refl eq_refl).
Defined.

(** The command of an integer whose rounded tenth is known. *)
Lemma frequencyCommand_integer (n f : Z) :
  Math_round (Number_div (Number_of_Z n) (Number_of_Z 10)) = integral false f ->
  0 <= f ->
  frequencyCommand (Number_of_Z n)
  = js "*F" ++ padStart (digits f) 7 (js "0000000").
Proof.
  intros Hround Hf. unfold frequencyCommand. rewrite Hround.
  rewrite String_integral by done. cbn [cond_Zopp]. unfold Number_toString.
  by destruct (Z.ltb_spec f 0); [lia |].
Qed.

(** C2 as stated fails on a value whose rounded tenth needs 8 digits: 8
    digits follow [*F], not 7. *)
Lemma setFrequency_eight_digits :
  frequencyCommand (Number_of_Z 100000000) = js "*F10000000"
  /\ length (frequencyCommand (Number_of_Z 100000000)) = 10%nat
  /\ frequencyCommand (Number_of_Z 100000000)
     <> frequencyCommand_spec (Number_of_Z 100000000).
Proof.
  assert (Hcmd : frequencyCommand (Number_of_Z 100000000) = js "*F10000000").
  { rewrite (frequencyCommand_integer 100000000 10000000); [| | lia].
    - reflexivity.
    - vm_compute. reflexivity. }
  assert (Hspec : frequencyCommand_spec (Number_of_Z 100000000) = js "*F0000000").
  { unfold frequencyCommand_spec.
    replace (round_half_up_tenth (Number_of_Z 100000000)) with 10000000
      by (vm_compute; reflexivity).
    reflexivity. }
  rewrite Hcmd, Hspec. split; [reflexivity |]. split; [reflexivity |].
  intros Heq. discriminate Heq.
Qed.

(** C3 (amended): on the value 15000 the command string is [*F0001500], and
    [setFrequency] hands its frame to [sendSerial]. *)
Theorem setFrequency_15000 :
  frequencyCommand (Number_of_Z 15000) = js "*F0001500"
  /\ forall p : Page,
       setFrequency (changeEvent (Number_of_Z 15000)) p
       = sendSerial [10; 42; 70; 48; 48; 48; 49; 53; 48; 48; 13] p.
Proof.
  assert (Hcmd : frequencyCommand (Number_of_Z 15000) = js "*F0001500").
  { rewrite (frequencyCommand_integer 15000 1500); [| | lia].
    - reflexivity.
    - vm_compute. reflexivity. }
  split; [exact Hcmd |].
  intros p. unfold setFrequency, changeEvent. cbn [currentTarget value].
  rewrite Hcmd. reflexivity.
Qed.

(** C3 as stated fails: the command string for 15000 is not [*F0000150]. *)
Lemma setFrequency_15000_not_150 :
  frequencyCommand (Number_of_Z 15000) <> js "*F0000150".
Proof.
  rewrite (frequencyCommand_integer 15000 1500); [| | lia].
  - intros Heq. discriminate Heq.
  - vm_compute. reflexivity.
Qed.

(** ** Sending without a port *)

(** C7: without a writable port [sendSerial] returns normally for every
    buffer, makes no call on any host object, and changes nothing but the
    console, which receives one warning. *)
Theorem sendSerial_without_port (data : list Z) (p : Page) :
  hasWritablePort p = false ->
  sendSerial data p
  = (Normal tt, console_add (ConsoleWarn (js "unable to find writable port")) p)
  /\ calls (snd (sendSerial data p)) = calls p
  /\ serialOut (snd (sendSerial data p)) = serialOut p.
Proof.
  unfold hasWritablePort, sendSerial. intros Hw.
  destruct (port p) as [h |]; [rewrite Hw |]; done.
Qed.

(** On the page as loaded, where no port is set. *)
Lemma sendSerial_without_port_witness :
  hasWritablePort freshPage = false
  /\ sendSerial [10; 42; 13] freshPage
     = (Normal tt,
        console_add (ConsoleWarn (js "unable to find writable port")) freshPage).
Proof.
  split; [reflexivity |].
  exact (proj1 (sendSerial_without_port [10; 42; 13] freshPage eq_refl)).
Defined.

(** ** The port registry *)

Section Registry.

Implicit Types (h : Handle) (o : OptionElem) (l : list OptionElem).

Lemma findIn_set_selected h b o l :
  findIn h (set_selected b o :: l) = findIn h (o :: l).
Proof. reflexivity. Qed.

Lemma findIn_settle h l : findIn h (settleSelection l) = findIn h l.
Proof.
  unfold settleSelection. destruct (existsb selected l); [done |].
  destruct l as [| o l]; [done | apply findIn_set_selected].
Qed.

Lemma findIn_app h l l' :
  findIn h (l ++ l')
  = match findIn h l with Some ref => Some ref | None => findIn h l' end.
Proof.
  induction l as [| o l IH]; [reflexivity |].
  cbn [app findIn].
  destruct (str_eqb (value_of o) (js "prompt")); [done |].
  by destruct (bool_decide (oport o = Some h)).
Qed.

(** The option [addNewPort] makes is found under its handle. *)
Lemma findIn_new h ref label :
  findIn h [ {| oid := ref; valueAttr := None; textContent := js "Port " ++ label;
                oport := Some h; selected := false |} ] = Some ref.
Proof.
  cbn. unfold str_eqb. rewrite bool_decide_eq_false_2 by discriminate.
  by rewrite bool_decide_eq_true_2.
Qed.

Lemma findPortOption_addNewPort h p :
  findPortOption h p = None ->
  findPortOption h (snd (addNewPort h p)) = Some (fst (addNewPort h p)).
Proof.
  intros Hnone. unfold findPortOption, addNewPort, appendChild in *. cbn.
  rewrite findIn_settle, findIn_app, Hnone. apply findIn_new.
Qed.

Lemma omap_settle l : omap oport (settleSelection l) = omap oport l.
Proof.
  unfold settleSelection. destruct (existsb selected l); [done |].
  by destruct l.
Qed.

Lemma Forall_findable_settle l :
  Forall findable l -> Forall findable (settleSelection l).
Proof.
  unfold settleSelection. destruct (existsb selected l); [done |].
  destruct l as [| o l]; [done |].
  intros H. apply Forall_cons in H as [Ho Hl]. by apply Forall_cons.
Qed.

Lemma listed_addNewPort h p :
  listed (snd (addNewPort h p)) = listed p ++ [h].
Proof.
  unfold listed, addNewPort, appendChild. cbn.
  by rewrite omap_settle, omap_app.
Qed.

Lemma findable_addNewPort h p :
  Forall findable (options p) ->
  Forall findable (options (snd (addNewPort h p))).
Proof.
  intros H. unfold addNewPort, appendChild. cbn.
  apply Forall_findable_settle, Forall_app. split; [done |].
  apply Forall_singleton. intros _. discriminate.
Qed.

(** A findable option for [h] is found. *)
Lemma findIn_None_not_listed h l :
  Forall findable l -> findIn h l = None -> h ∉ omap oport l.
Proof.
  induction l as [| o l IH]; intros Hf Hnone; [by apply not_elem_of_nil |].
  apply Forall_cons in Hf as [Ho Hl]. cbn [findIn] in Hnone.
  cbn [omap list_omap]. unfold findable, str_eqb in *.
  destruct (oport o) as [h' |] eqn:Hport.
  - rewrite bool_decide_eq_false_2 in Hnone by (apply Ho; by eexists).
    destruct (bool_decide_reflect (Some h' = Some h)) as [Heq | Hne];
      [done |].
    apply not_elem_of_cons. split; [congruence | by apply IH].
  - apply IH; [done |].
    destruct (bool_decide (value_of o = js "prompt")); [done |].
    by rewrite bool_decide_eq_false_2 in Hnone.
Qed.

Lemma omap_filter_sublist (P : OptionElem -> Prop) `{!forall o, Decision (P o)} l :
  omap oport (filter P l) `sublist_of` omap oport l.
Proof.
  induction l as [| o l IH]; [done |].
  rewrite filter_cons. cbn [omap list_omap].
  destruct (decide (P o)); cbn [omap list_omap].
  - destruct (oport o); [by apply sublist_skip | done].
  - destruct (oport o); [by apply sublist_cons | done].
Qed.

Lemma registryOk_addNewPort h p :
  registryOk p -> h ∉ listed p -> registryOk (snd (addNewPort h p)).
Proof.
  intros [Hnd Hf] Hnot. split.
  - rewrite listed_addNewPort. apply NoDup_app. split; [done |].
    split; [| apply NoDup_singleton].
    intros x Hx Hx'. apply list_elem_of_singleton in Hx'. by subst.
  - by apply findable_addNewPort.
Qed.

Lemma registryOk_maybeAddNewPort h p :
  registryOk p -> registryOk (snd (maybeAddNewPort h p)).
Proof.
  intros Hok. unfold maybeAddNewPort.
  destruct (findPortOption h p) eqn:Hfind; [done |].
  apply registryOk_addNewPort; [done |].
  destruct Hok as [_ Hf]. by apply findIn_None_not_listed.
Qed.

Lemma registryOk_removeOption ref p :
  registryOk p -> registryOk (removeOption ref p).
Proof.
  intros [Hnd Hf]. unfold registryOk, listed, removeOption. cbn. split.
  - rewrite omap_settle.
    eapply sublist_NoDup; [exact Hnd | apply omap_filter_sublist].
  - apply Forall_findable_settle, Forall_forall.
    intros o [_ Ho]%list_elem_of_filter. revert o Ho. by apply Forall_forall.
Qed.

(** The start-up enumeration keeps the options unique when the host lists
    each port once and none of them is listed yet. *)
Lemma registryOk_onLoaded (ports : list Handle) : forall p,
  registryOk p -> NoDup ports -> (forall h, h ∈ ports -> h ∉ listed p) ->
  registryOk (onLoaded ports p).
Proof.
  induction ports as [| h ports IH]; intros p Hok Hnd Hnew; [done |].
  apply NoDup_cons in Hnd as [Hh Hnd]. cbn [onLoaded foldl].
  apply IH; [| done |].
  - apply registryOk_addNewPort; [done |]. apply Hnew, list_elem_of_here.
  - intros h' Hh'. rewrite listed_addNewPort. apply not_elem_of_app. split.
    + by apply Hnew, list_elem_of_further.
    + apply not_elem_of_cons. split; [| apply not_elem_of_nil].
      intros ->. done.
Qed.

Lemma options_connect_start p : options (snd (connect_start p)) = options p.
Proof.
  unfold connect_start. destruct (str_eqb _ _); [done |].
  by destruct (selectedOptions p).
Qed.

End Registry.

Lemma findIn_Some (h : Handle) (l : list OptionElem) (ref : ElemRef) :
  findIn h l = Some ref ->
  exists o, o ∈ l /\ oid o = ref /\ oport o = Some h
            /\ value_of o <> js "prompt".
Proof.
  induction l as [| a l IH]; cbn [findIn]; [done |]. unfold str_eqb.
  assert (Hlater : findIn h l = Some ref ->
            exists o, o ∈ a :: l /\ oid o = ref /\ oport o = Some h
                      /\ value_of o <> js "prompt").
  { intros H. destruct (IH H) as (o & Ho & Hrest). exists o.
    split; [by apply list_elem_of_further | done]. }
  destruct (bool_decide_reflect (value_of a = js "prompt")); [done |].
  destruct (bool_decide_reflect (oport a = Some h)); [| done].
  intros [= <-]. exists a. split; [apply list_elem_of_here | done].
Qed.

Lemma findIn_Some_listed (h : Handle) (l : list OptionElem) (ref : ElemRef) :
  findIn h l = Some ref -> h ∈ omap oport l.
Proof.
  intros (o & Ho & _ & Hp & _)%findIn_Some.
  apply list_elem_of_omap. eauto.
Qed.

Lemma findPortOption_maybeAddNewPort (h : Handle) (p : Page) :
  findPortOption h (snd (maybeAddNewPort h p)) = Some (fst (maybeAddNewPort h p)).
Proof.
  unfold maybeAddNewPort.
  destruct (findPortOption h p) as [ref |] eqn:Hfind; [done |].
  by apply findPortOption_addNewPort.
Qed.

Lemma filter_all {A : Type} (P : A -> Prop) `{!forall x, Decision (P x)}
    (l : list A) :
  Forall P l -> filter P l = l.
Proof.
  induction 1 as [| x l Hx _ IH]; [done |].
  by rewrite filter_cons_True, IH.
Qed.

(** Removing the option found for [h] removes [h], and only [h], from the
    listing. *)
Lemma remove_found (h : Handle) (ref : ElemRef) (l : list OptionElem) :
  NoDup (oid <$> l) -> NoDup (omap oport l) -> findIn h l = Some ref ->
  omap oport (filter (fun o => oid o <> ref) l)
  = filter (fun x => x <> h) (omap oport l).
Proof.
  induction l as [| o l IH]; [done |].
  intros [Hoid Hoids]%NoDup_cons Hports Hfind.
  assert (Hskip : findIn h l = Some ref ->
            omap oport (filter (fun o' => oid o' <> ref) (o :: l))
            = filter (fun x => x <> h) (omap oport (o :: l))).
  { intros Hlater.
    pose proof (findIn_Some _ _ _ Hlater) as (o' & Ho' & Hid & Hp & _).
    assert (Hne : oid o <> ref).
    { intros Heq. apply Hoid. rewrite Heq, <- Hid.
      by apply list_elem_of_fmap_2. }
    rewrite filter_cons_True by done. cbn [omap list_omap] in *.
    destruct (oport o) as [x |] eqn:Hx.
    - apply NoDup_cons in Hports as [Hx' Hports].
      assert (x <> h).
      { intros ->. apply Hx'. apply list_elem_of_omap. eauto. }
      rewrite filter_cons_True by done. f_equal. by apply IH.
    - by apply IH. }
  cbn [findIn] in Hfind. unfold str_eqb in Hfind.
  destruct (bool_decide_reflect (value_of o = js "prompt")); [by apply Hskip |].
  destruct (bool_decide_reflect (oport o = Some h)) as [Hp |]; [| by apply Hskip].
  injection Hfind as <-.
  rewrite filter_cons_False by (intros Hne; by apply Hne).
  cbn [omap list_omap] in *. rewrite Hp in *.
  apply NoDup_cons in Hports as [Hh Hports].
  rewrite filter_cons_False by (intros Hne; by apply Hne).
  rewrite !filter_all; [done | |].
  - apply Forall_forall. by intros x Hx ->.
  - apply Forall_forall. intros o' Ho' Heq. apply Hoid. rewrite <- Heq.
    by apply list_elem_of_fmap_2.
Qed.


Lemma listed_onSerialDisconnect (h : Handle) (p : Page) :
  elementsOk p -> registryOk p ->
  listed (onSerialDisconnect h p) = filter (fun x => x <> h) (listed p).
Proof.
  intros [Hoids _] [Hports Hf]. unfold onSerialDisconnect.
  destruct (findPortOption h p) as [ref |] eqn:Hfind.
  - unfold listed, removeOption. cbn. rewrite omap_settle.
    by apply remove_found.
  - symmetry. apply filter_all, Forall_forall. intros x Hx ->.
    by apply findIn_None_not_listed in Hfind.
Qed.

Lemma listedPage_ok (h : Handle) :
  elementsOk (listedPage h) /\ registryOk (listedPage h).
Proof.
  split; split; cbn.
  - apply NoDup_cons. split; [| apply NoDup_singleton].
    intros Hin%list_elem_of_singleton. discriminate.
  - apply Forall_cons. split; [lia |]. apply Forall_singleton. lia.
  - apply NoDup_singleton.
  - apply Forall_cons. split; [intros [x Hx]; discriminate |].
    apply Forall_singleton. intros _. discriminate.
Qed.

(** Once the option found for [h] is removed, no option refers to [h]. *)
Lemma not_listed_after_remove (h : Handle) (ref : ElemRef) (l : list OptionElem) :
  NoDup (omap oport l) -> findIn h l = Some ref ->
  h ∉ omap oport (filter (fun o => oid o <> ref) l).
Proof.
  intros Hnd (o & Ho & Hid & Hp & _)%findIn_Some. revert Hnd Ho.
  induction l as [| a l IH]; intros Hnd Ho; [by apply not_elem_of_nil |].
  assert (Hsub : forall x, x ∈ omap oport (filter (fun o' => oid o' <> ref) l) ->
            x ∈ omap oport l).
  { intros x Hx. eapply elem_of_sublist; [exact Hx | apply omap_filter_sublist]. }
  assert (Hlisted : o ∈ l -> h ∈ omap oport l).
  { intros Hin. apply list_elem_of_omap. eauto. }
  cbn [omap list_omap] in Hnd. rewrite filter_cons.
  destruct (decide (oid a <> ref)) as [Hne | Heq].
  - apply elem_of_cons in Ho as [-> | Ho]; [done |].
    cbn [omap list_omap]. destruct (oport a) as [x |] eqn:Hx.
    + apply NoDup_cons in Hnd as [Hx' Hnd].
      apply not_elem_of_cons. split; [| by apply IH].
      intros <-. by apply Hx', Hlisted.
    + by apply IH.
  - destruct (oport a) as [x |] eqn:Hx.
    + apply NoDup_cons in Hnd as [Hx' Hnd].
      apply elem_of_cons in Ho as [-> | Ho]; [| by apply IH].
      intros Hin%Hsub. assert (x = h) as -> by congruence. done.
    + apply elem_of_cons in Ho as [-> | Ho]; [congruence | by apply IH].
Qed.

(** C8: [maybeAddNewPort] answers with an option of the selector that refers
    to the handle, the one [findPortOption] finds from then on: an option
    that was found is returned without a change to the page, and otherwise
    the option [addNewPort] appends. A second call in succession returns the
    same option and leaves the page as it is. *)
Theorem maybeAddNewPort_idempotent (h : Handle) (p : Page) :
  maybeAddNewPort h (snd (maybeAddNewPort h p))
  = (fst (maybeAddNewPort h p), snd (maybeAddNewPort h p))
  /\ findPortOption h (snd (maybeAddNewPort h p))
     = Some (fst (maybeAddNewPort h p))
  /\ (exists o, o ∈ options (snd (maybeAddNewPort h p))
                /\ oid o = fst (maybeAddNewPort h p) /\ oport o = Some h)
  /\ (forall ref, findPortOption h p = Some ref -> maybeAddNewPort h p = (ref, p))
  /\ (findPortOption h p = None ->
      maybeAddNewPort h p = addNewPort h p
      /\ listed (snd (maybeAddNewPort h p)) = listed p ++ [h]).
Proof.
  pose proof (findPortOption_maybeAddNewPort h p) as Hfound.
  split; [| split; [done | split; [| split]]].
  - unfold maybeAddNewPort at 1. by rewrite Hfound.
  - unfold findPortOption in Hfound.
    apply findIn_Some in Hfound as (o & Ho & Hid & Hp & _). eauto.
  - intros ref Hfind. unfold maybeAddNewPort. by rewrite Hfind.
  - intros Hnone. unfold maybeAddNewPort. rewrite Hnone.
    split; [done | apply listed_addNewPort].
Qed.

(** C9 (amended): registration through the chooser ([maybeAddNewPort]) looks
    the handle up first and keeps at most one option for each handle. The
    [connect] listener and the enumeration at start-up append without a
    lookup: they keep the options unique when the handles the host reports are
    not listed yet, and the listener duplicates the option of a handle that is
    listed. The [disconnect] listener removes the option it finds, so that no
    option refers to the handle any more, leaves the other handles listed in
    their order, and keeps the options unique. *)
Theorem registry_unique (h : Handle) (p : Page) :
  registryOk p ->
  registryOk (snd (maybeAddNewPort h p))
  /\ (h ∉ listed p -> registryOk (snd (onSerialConnect h p)))
  /\ (forall ports, NoDup ports -> (forall h', h' ∈ ports -> h' ∉ listed p) ->
        registryOk (onLoaded ports p))
  /\ (h ∈ listed p -> ~ NoDup (listed (snd (onSerialConnect h p))))
  /\ registryOk (onSerialDisconnect h p)
  /\ (h ∉ listed (onSerialDisconnect h p))
  /\ (elementsOk p ->
      listed (onSerialDisconnect h p) = filter (fun x => x <> h) (listed p)).
Proof.
  intros Hok.
  assert (Hopts : forall q, registryOk q -> registryOk (snd (connect_start q))).
  { intros q. unfold registryOk, listed. by rewrite options_connect_start. }
  split; [by apply registryOk_maybeAddNewPort |].
  split; [| split; [| split; [| split; [| split]]]].
  - intros Hnot. unfold onSerialConnect.
    by apply Hopts, registryOk_addNewPort.
  - intros ports Hnd Hnew. by apply registryOk_onLoaded.
  - intros Hin Hnd. unfold onSerialConnect, listed in Hnd.
    rewrite options_connect_start in Hnd.
    fold (listed (snd (addNewPort h p))) in Hnd.
    rewrite listed_addNewPort in Hnd.
    apply NoDup_app in Hnd as (_ & Hdisj & _).
    apply (Hdisj h Hin), list_elem_of_singleton. done.
  - unfold onSerialDisconnect. destruct (findPortOption h p); [| done].
    by apply registryOk_removeOption.
  - destruct Hok as [Hnd Hf]. unfold onSerialDisconnect.
    destruct (findPortOption h p) as [ref |] eqn:Hfind.
    + unfold listed, removeOption. cbn. rewrite omap_settle.
      by apply not_listed_after_remove.
    + by apply findIn_None_not_listed.
  - intros Hel. by apply listed_onSerialDisconnect.
Qed.

Lemma freshPage_registryOk : registryOk freshPage.
Proof.
  split; [apply NoDup_nil_2 |].
  apply Forall_singleton. intros [x Hx]. discriminate.
Qed.

(** On a page that lists the port 7: the port 5 appears and is registered,
    the ports 5 and 6 are enumerated, and the port 7 is unplugged, which
    empties the listing. *)
Lemma registry_unique_witness :
  registryOk (listedPage 7%nat)
  /\ listed (listedPage 7%nat) = [7%nat]
  /\ registryOk (snd (onSerialConnect 5%nat (listedPage 7%nat)))
  /\ registryOk (onLoaded [5%nat; 6%nat] (listedPage 7%nat))
  /\ (7%nat ∉ listed (onSerialDisconnect 7%nat (listedPage 7%nat)))
  /\ listed (onSerialDisconnect 7%nat (listedPage 7%nat)) = [].
Proof.
  destruct (listedPage_ok 7%nat) as [Hel Hreg].
  assert (Hnot : forall h : Handle, h <> 7%nat -> h ∉ listed (listedPage 7%nat)).
  { intros h Hne Hin%list_elem_of_singleton. done. }
  split; [exact Hreg |]. split; [reflexivity |].
  destruct (registry_unique 5%nat (listedPage 7%nat) Hreg)
    as (_ & Hconnect & Hloaded & _).
  destruct (registry_unique 7%nat (listedPage 7%nat) Hreg)
    as (_ & _ & _ & _ & _ & Hgone & Hrest).
  split; [apply Hconnect, Hnot; discriminate |].
  split; [| split; [exact Hgone | exact (Hrest Hel)]].
  apply Hloaded.
  - apply NoDup_cons. split; [| apply NoDup_singleton].
    intros Hin%list_elem_of_singleton. discriminate.
  - intros h' Hin. apply Hnot. intros ->.
    apply elem_of_cons in Hin as [Heq | Hin%list_elem_of_singleton];
      discriminate.
Defined.

(** C9 as stated fails: the port 5 is listed when the page loads, the host
    then reports it as connected, and two options refer to it. *)
Lemma hotplug_duplicates_option :
  listed (onLoaded [5%nat] freshPage) = [5%nat]
  /\ listed (snd (onSerialConnect 5%nat (onLoaded [5%nat] freshPage)))
     = [5%nat; 5%nat]
  /\ ~ NoDup (listed (snd (onSerialConnect 5%nat (onLoaded [5%nat] freshPage)))).
Proof.
  split; [reflexivity |]. split; [reflexivity |].
  intros Hnd. change (NoDup [5%nat; 5%nat]) in Hnd.
  apply NoDup_cons in Hnd as [Hnot _]. apply Hnot, list_elem_of_here.
Qed.

(** ** The connection life cycle *)

Lemma markDisconnected_disconnected (p : Page) : disconnected (markDisconnected p).
Proof. by repeat split. Qed.

Lemma serialOut_dumpSerialOut (msg : jsstring) (p : Page) :
  serialOut (dumpSerialOut msg p) = appended msg p.
Proof. reflexivity. Qed.

Lemma serialOut_dumpError (e : Exn) (tail : jsstring) (p : Page) :
  serialOut (dumpError e tail p) = appended (errorLine e tail) p.
Proof.
  destruct e as [message | t]; cbn [dumpError errorLine].
  - apply serialOut_dumpSerialOut.
  - unfold appended. destruct (serialOut p); [by rewrite app_nil_r | done].
Qed.

Lemma serialOut_markDisconnected (p : Page) :
  serialOut (markDisconnected p) = appended (js "<DISCONNECTED>" ++ LF) p.
Proof. unfold markDisconnected. cbn. apply serialOut_dumpSerialOut. Qed.

Lemma appended_appended (a b : jsstring) (p q : Page) :
  serialOut q = appended a p -> appended b q = appended (a ++ b) p.
Proof.
  unfold appended. intros ->. destruct (serialOut p); [| done].
  by rewrite app_assoc.
Qed.

(** One step of a run, and the end of one. *)
Lemma run_last_default {C : Type} (resume : Settled -> C -> option C)
    (rs : list Settled) (c d d' : C) :
  List.last (run resume rs c) d = List.last (run resume rs c) d'.
Proof.
  destruct rs as [| r rs]; [done |]. cbn [run].
  destruct (resume r c) as [c' |]; [| done].
  generalize (run resume rs c'). intros l. revert c.
  induction l as [| x l IH]; intros c; [done |].
  cbn [List.last]. destruct l; [done |]. apply (IH x).
Qed.

Lemma final_step {C : Type} (resume : Settled -> C -> option C)
    (s : Settled) (rs : list Settled) (c c' : C) :
  resume s c = Some c' -> final resume (s :: rs) c = final resume rs c'.
Proof.
  intros Hstep. unfold final. cbn [run]. rewrite Hstep.
  assert (Hne : run resume rs c' <> []).
  { destruct rs as [| r rs]; [done |]. cbn [run].
    by destruct (resume r c'). }
  transitivity (List.last (run resume rs c') c); [| apply run_last_default].
  by destruct (run resume rs c').
Qed.

Lemma final_nil {C : Type} (resume : Settled -> C -> option C) (c : C) :
  final resume [] c = c.
Proof. reflexivity. Qed.

Lemma appended_same (msg : jsstring) (p q : Page) :
  serialOut q = serialOut p -> appended msg q = appended msg p.
Proof. unfold appended. by intros ->. Qed.

(** Lines 169-175: when [open] is rejected the error is logged, if it is an
    [Error], and the page is marked disconnected; no call is made. *)
Lemma open_rejected (decode : list Z -> jsstring) (e : Exn) (p : Page) :
  exists q,
    connect_resume decode (Rejected e) (AtOpen, p) = Some (Returned, q)
    /\ disconnected q
    /\ serialOut q = appended (errorLine e LF ++ js "<DISCONNECTED>" ++ LF) p
    /\ calls q = calls p.
Proof.
  eexists. split; [reflexivity |].
  split; [apply markDisconnected_disconnected |].
  split; [| by destruct e].
  rewrite serialOut_markDisconnected.
  erewrite appended_appended; [reflexivity |].
  by rewrite serialOut_dumpError.
Qed.

(** Lines 105-110 and 144-165: the chooser gives the port [h], which is then
    opened. *)
Lemma chooser_granted_opens (decode : list Z -> jsstring) (h : Handle) (p : Page) :
  exists q,
    (forall rs,
       final (connect_resume decode) (FulfilledPort h :: Tick :: rs)
         (AtRequestPort, p)
       = final (connect_resume decode) rs (AtOpen, q))
    /\ serialOut q = serialOut p
    /\ calls q = calls p ++ [CallOpen h].
Proof.
  destruct (maybeAddNewPort h (set_port (Some h) p)) as [ref p'] eqn:Hadd.
  assert (Hp' : port p' = Some h /\ serialOut p' = serialOut p
                /\ calls p' = calls p).
  { change p' with (snd (ref, p')). rewrite <- Hadd. unfold maybeAddNewPort.
    by destruct (findPortOption h (set_port (Some h) p)). }
  destruct Hp' as (Hport & Hout & Hcalls).
  assert (Hstep1 : connect_resume decode (FulfilledPort h) (AtRequestPort, p)
                   = Some (AtGetSelectedPort (Normal tt), selectOption ref p')).
  { cbn. by rewrite Hadd. }
  assert (Hstep2 : connect_resume decode Tick
                     (AtGetSelectedPort (Normal tt), selectOption ref p')
                   = Some (AtOpen,
                           call (CallOpen h)
                             (set_buttonDisabled true
                                (set_buttonText (js "Connecting...")
                                   (set_selectorDisabled true
                                      (console_add ConsoleLogOptions
                                         (selectOption ref p'))))))).
  { cbn. by rewrite Hport. }
  exists (call (CallOpen h)
            (set_buttonDisabled true
               (set_buttonText (js "Connecting...")
                  (set_selectorDisabled true
                     (console_add ConsoleLogOptions (selectOption ref p')))))).
  split; [| split; [exact Hout |]].
  - intros rs. rewrite (final_step _ _ _ _ _ Hstep1).
    apply (final_step _ _ _ _ _ Hstep2).
  - cbn. by rewrite Hcalls.
Qed.

(** C5 (amended): [connectToPort] returns without throwing when the chooser
    is cancelled and when [open] fails. In the first case it writes nothing to
    the log and leaves the page as it was; in the second, whether the port
    was selected in the list or has just been given by the chooser, it writes
    the [<ERROR: message>] line, if what was thrown is an [Error], and the
    [<DISCONNECTED>] line, and the page is back in the disconnected state. *)
Theorem connect_failure (decode : list Z -> jsstring) (p : Page) (e : Exn) :
  (selectorValue p = js "prompt" -> port p = None ->
   final (connect_resume decode) [Rejected e; Tick] (connect_start p)
   = (Returned, call CallRequestPort p))
  /\ (forall o rest h,
        selectedOptions p = o :: rest -> value_of o <> js "prompt" ->
        oport o = Some h ->
        exists q,
          final (connect_resume decode) [Tick; Rejected e] (connect_start p)
          = (Returned, q)
          /\ disconnected q
          /\ serialOut q
             = appended (errorLine e LF ++ js "<DISCONNECTED>" ++ LF) p
          /\ calls q = calls p ++ [CallOpen h])
  /\ (forall h,
        selectorValue p = js "prompt" ->
        exists q,
          final (connect_resume decode) [FulfilledPort h; Tick; Rejected e]
            (connect_start p)
          = (Returned, q)
          /\ disconnected q
          /\ serialOut q
             = appended (errorLine e LF ++ js "<DISCONNECTED>" ++ LF) p
          /\ calls q = calls p ++ [CallRequestPort; CallOpen h])
  /\ (exists q,
        connect_resume decode (Rejected e) (AtOpen, p) = Some (Returned, q)
        /\ disconnected q
        /\ serialOut q
           = appended (errorLine e LF ++ js "<DISCONNECTED>" ++ LF) p
        /\ calls q = calls p).
Proof.
  split; [| split; [| split]].
  - intros Hprompt Hport. unfold connect_start, str_eqb.
    rewrite bool_decide_eq_true_2 by done.
    unfold final. cbn. by rewrite Hport.
  - intros o rest h Hsel Hval Hport. unfold connect_start, str_eqb, selectorValue.
    rewrite Hsel, bool_decide_eq_false_2 by done. rewrite Hport.
    eexists. unfold final. cbn. split; [reflexivity |].
    split; [apply markDisconnected_disconnected |].
    split; [| by destruct e].
    rewrite serialOut_markDisconnected.
    erewrite appended_appended; [reflexivity |].
    by rewrite serialOut_dumpError.
  - intros h Hprompt. unfold connect_start, str_eqb.
    rewrite bool_decide_eq_true_2 by done.
    destruct (chooser_granted_opens decode h (call CallRequestPort p))
      as (q1 & Hrun & Hout1 & Hcalls1).
    destruct (open_rejected decode e q1) as (q & Hstep & Hdisc & Hout & Hcalls).
    exists q. split; [| split; [done | split]].
    + rewrite Hrun. erewrite (final_step _ _ _ _ _ Hstep). apply final_nil.
    + rewrite Hout. by apply appended_same.
    + rewrite Hcalls, Hcalls1. cbn. by rewrite <- app_assoc.
  - apply open_rejected.
Qed.

(** On the page as loaded, with the chooser cancelled; on a page with a
    listed port whose [open()] fails; and on the page as loaded, with a port
    given by the chooser whose [open()] fails. *)
Lemma connect_failure_witness :
  (selectorValue freshPage = js "prompt"
   /\ port freshPage = None
   /\ final (connect_resume decodeAscii)
        [Rejected (ErrorObj (js "No port selected by the user.")); Tick]
        (connect_start freshPage)
      = (Returned, call CallRequestPort freshPage))
  /\ (exists q,
        final (connect_resume decodeAscii)
          [Tick; Rejected (ErrorObj (js "Failed to open serial port."))]
          (connect_start (listedPage 7%nat))
        = (Returned, q)
        /\ disconnected q
        /\ serialOut q
           = Some (js "<ERROR: Failed to open serial port.>" ++ LF
                   ++ js "<DISCONNECTED>" ++ LF))
  /\ exists q,
       final (connect_resume decodeAscii)
         [FulfilledPort 7%nat; Tick;
          Rejected (ErrorObj (js "Failed to open serial port."))]
         (connect_start freshPage)
       = (Returned, q)
       /\ disconnected q
       /\ serialOut q
          = Some (js "<ERROR: Failed to open serial port.>" ++ LF
                  ++ js "<DISCONNECTED>" ++ LF)
       /\ calls q = [CallRequestPort; CallOpen 7%nat].
Proof.
  split; [| split].
  - split; [reflexivity |]. split; [reflexivity |].
    exact (proj1 (connect_failure decodeAscii freshPage
                    (ErrorObj (js "No port selected by the user.")))
             eq_refl eq_refl).
  - destruct (proj1 (proj2 (connect_failure decodeAscii (listedPage 7%nat)
                              (ErrorObj (js "Failed to open serial port."))))
                _ _ 7%nat eq_refl ltac:(discriminate) eq_refl)
      as (q & Hfinal & Hdisc & Hout & _).
    exists q. split; [exact Hfinal |]. split; [exact Hdisc | exact Hout].
  - destruct (proj1 (proj2 (proj2 (connect_failure decodeAscii freshPage
                                     (ErrorObj (js "Failed to open serial port.")))))
                7%nat eq_refl)
      as (q & Hfinal & Hdisc & Hout & Hcalls).
    exists q. split; [exact Hfinal |]. split; [exact Hdisc |].
    split; [exact Hout | exact Hcalls].
Defined.

(** C5 as stated fails: when the chooser is cancelled nothing is written to
    the log. *)
Lemma cancelled_chooser_logs_nothing :
  let c := final (connect_resume decodeAscii)
             [Rejected (ErrorObj (js "No port selected by the user.")); Tick]
             (connect_start freshPage) in
  fst c = Returned /\ serialOut (snd c) = serialOut freshPage
  /\ serialOut freshPage = Some [].
Proof. by repeat split. Qed.

Lemma disconnect_start_reader (p : Page) (r : ReaderRef) :
  reader p = Some r ->
  disconnect_start p
  = (AtCancel (port p), call (CallCancel r) (set_port None p)).
Proof. intros Hr. unfold disconnect_start. cbn [set_port reader]. by rewrite Hr. Qed.

Lemma disconnect_start_no_reader (p : Page) :
  reader p = None ->
  disconnect_start p = closeLocal (port p) (set_port None p).
Proof. intros Hr. unfold disconnect_start. cbn [set_port reader]. by rewrite Hr. Qed.

(** C6: [disconnectFromPort] clears [port] in its first step, so [port] is
    undefined in every configuration of the call, in particular while
    [close()] is pending; the call of [close()] is made on the port that was
    set; and whether [close()] succeeds or throws, the call returns with the
    page in the disconnected state. The last part holds whatever the page has
    become when [close()] settles. *)
Theorem disconnect_tears_down (p : Page) (closeError : option Exn) :
  let rs := disconnectSettlements closeError p in
  let cs := run disconnect_resume rs (disconnect_start p) in
  Forall (fun c => port (snd c) = None) cs
  /\ (forall h, port p = Some h ->
        exists q, (AtCloseLocal h, q) ∈ cs /\ port q = None
                  /\ List.last (calls q) CallRequestPort = CallClose h)
  /\ fst (final disconnect_resume rs (disconnect_start p)) = DReturned
  /\ disconnected (snd (final disconnect_resume rs (disconnect_start p)))
  /\ (forall h q, exists q',
        disconnect_resume (settledClose closeError) (AtCloseLocal h, q)
        = Some (DReturned, q')
        /\ disconnected q').
Proof.
  cbn zeta. unfold disconnectSettlements, final.
  destruct (reader p) as [r |] eqn:Hr.
  - rewrite (disconnect_start_reader p r Hr).
    split; [| split; [| split; [| split]]].
    + destruct (port p), closeError; cbn; by repeat constructor.
    + intros h ->.
      exists (call (CallClose h) (call (CallCancel r) (set_port None p))).
      split; [| split; [reflexivity | apply List.last_last]].
      destruct closeError; cbn; rewrite !elem_of_cons; auto.
    + by destruct (port p), closeError.
    + destruct (port p), closeError; cbn; apply markDisconnected_disconnected.
    + intros h q. destruct closeError; cbn; eexists;
        (split; [reflexivity | apply markDisconnected_disconnected]).
  - rewrite (disconnect_start_no_reader p Hr).
    split; [| split; [| split; [| split]]].
    + destruct (port p), closeError; cbn; by repeat constructor.
    + intros h ->. exists (call (CallClose h) (set_port None p)).
      split; [| split; [reflexivity | apply List.last_last]].
      destruct closeError; cbn; rewrite !elem_of_cons; auto.
    + by destruct (port p), closeError.
    + destruct (port p), closeError; cbn; apply markDisconnected_disconnected.
    + intros h q. destruct closeError; cbn; eexists;
        (split; [reflexivity | apply markDisconnected_disconnected]).
Qed.

(** On a connected page whose [close()] fails. *)
Lemma disconnect_tears_down_witness :
  port (connectedPage 7%nat 3%nat) = Some 7%nat
  /\ exists q,
       (AtCloseLocal 7%nat, q)
         ∈ run disconnect_resume
             (disconnectSettlements (Some (ErrorObj (js "The device has been lost.")))
                (connectedPage 7%nat 3%nat))
             (disconnect_start (connectedPage 7%nat 3%nat))
       /\ port q = None
       /\ List.last (calls q) CallRequestPort = CallClose 7%nat.
Proof.
  split; [reflexivity |].
  exact (proj1 (proj2
    (disconnect_tears_down (connectedPage 7%nat 3%nat)
       (Some (ErrorObj (js "The device has been lost.")))))
    7%nat eq_refl).
Defined.

(** C4: called while a read is pending, [disconnectFromPort] clears [port]
    and cancels the reader. When the pending read is then fulfilled as done
    (with or without a last chunk), or rejected with an [Error], the read loop
    of [connectToPort] releases the reader, leaves the [while], does not close
    the port and returns; when the read is fulfilled without a chunk, as a
    cancel does, the loop writes nothing to the log at all, whatever else
    the page has become by then as long as [port] is still undefined. Once it
    has returned, nothing resumes it. *)
Theorem disconnect_ends_read_loop
    (decode : list Z -> jsstring) (p : Page) (r : ReaderRef) :
  reader p = Some r ->
  let p1 := snd (disconnect_start p) in
  let leave q := (Returned, set_reader None (call (CallReleaseLock r) q)) in
  fst (disconnect_start p) = AtCancel (port p)
  /\ port p1 = None
  /\ calls p1 = calls p ++ [CallCancel r]
  /\ final (connect_resume decode) [FulfilledRead None true; Tick] (AtRead, p1)
     = leave p1
  /\ serialOut (snd (leave p1)) = serialOut p
  /\ (forall chunk,
        final (connect_resume decode)
          [FulfilledRead (Some chunk) true; Tick; Tick] (AtRead, p1)
        = leave (dumpSerialOut (decode chunk) p1))
  /\ (forall message,
        final (connect_resume decode)
          [Rejected (ErrorObj message); Tick; Tick] (AtRead, p1)
        = leave (dumpError (ErrorObj message) LF
                   (console_add (ConsoleError (ErrorObj message)) p1)))
  /\ (forall q, port q = None ->
        exists q',
          connect_resume decode Tick (AtReadReturn (Normal (None, true)), q)
          = Some (Returned, q')
          /\ serialOut q' = serialOut q /\ reader q' = None)
  /\ (forall s q, connect_resume decode s (Returned, q) = None).
Proof.
  intros Hreader. cbn zeta.
  rewrite (disconnect_start_reader p r Hreader). unfold final. cbn.
  unfold finallyBlock, loopHead, afterLoop. cbn. rewrite Hreader.
  split; [done |]. split; [done |]. split; [done |]. split; [done |].
  split; [done |]. split; [done |]. split; [done |]. split; [| done].
  intros q Hq. unfold finallyBlock, loopHead, afterLoop.
  destruct (reader q) eqn:Hrq; cbn; rewrite Hq;
    eexists; (split; [reflexivity |]); by split.
Qed.

(** On a connected page with a read pending on the reader 3. *)
Lemma disconnect_ends_read_loop_witness :
  reader (connectedPage 7%nat 3%nat) = Some 3%nat
  /\ final (connect_resume decodeAscii) [FulfilledRead None true; Tick]
       (AtRead, snd (disconnect_start (connectedPage 7%nat 3%nat)))
     = (Returned,
        set_reader None
          (call (CallReleaseLock 3%nat)
             (snd (disconnect_start (connectedPage 7%nat 3%nat))))).
Proof.
  split; [reflexivity |].
  exact (proj1 (proj2 (proj2 (proj2
    (disconnect_ends_read_loop decodeAscii (connectedPage 7%nat 3%nat) 3%nat
       eq_refl))))).
Defined.

(** C10: when the read loop throws a value that is not an [Error], from the
    read or from [getReader], [connectToPort] stops at the [await] of the
    [catch] block with nobody left to resolve the promise: no settlement
    resumes it, so it never returns; the reader is still set and was not
    released, the port was not closed, and the page is not reset. *)
Theorem non_error_blocks_connect
    (decode : list Z -> jsstring) (p : Page) (tag : nat) :
  let e := NonError tag in
  let stuck := (AtCatchForever, console_add (ConsoleError e) p) in
  final (connect_resume decode) [Rejected e; Tick] (AtRead, p) = stuck
  /\ connect_resume decode (Rejected e) (AtGetReader, p) = Some stuck
  /\ (forall s q, connect_resume decode s (AtCatchForever, q) = None)
  /\ (forall rs, final (connect_resume decode) rs stuck = stuck)
  /\ reader (snd stuck) = reader p
  /\ calls (snd stuck) = calls p
  /\ port (snd stuck) = port p
  /\ serialOut (snd stuck) = serialOut p
  /\ buttonText (snd stuck) = buttonText p.
Proof.
  cbn zeta. split; [reflexivity |]. split; [reflexivity |].
  assert (Hnone : forall s q, connect_resume decode s (AtCatchForever, q) = None)
    by (intros s q; by destruct s).
  split; [exact Hnone |]. split; [| by repeat split].
  intros [| s rs]; [reflexivity |].
  unfold final. cbn [run]. by rewrite Hnone.
Qed.


(** * Further properties of the code *)

(** ** The frame codec on its inputs *)

Lemma encode_scalar_length (cp : Z) :
  (1 <= length (TextEncoder.encode_scalar cp) <= 4)%nat.
Proof.
  unfold TextEncoder.encode_scalar.
  repeat (destruct (_ <? _)); cbn; lia.
Qed.

Lemma encode_scalar_unit_length (c : Z) :
  c < 0x10000 -> (length (TextEncoder.encode_scalar c) <= 3)%nat.
Proof.
  intros Hc. unfold TextEncoder.encode_scalar.
  destruct (Z.ltb_spec c 0x80); [cbn; lia |].
  destruct (Z.ltb_spec c 0x800); [cbn; lia |].
  destruct (Z.ltb_spec c 0x10000); [cbn; lia | lia].
Qed.

(** A code unit gives between one and three bytes; the two units of a pair
    give four. *)
Lemma encode_length (n : nat) : forall s : jsstring,
  (length s <= n)%nat -> Forall is_code_unit s ->
  (length s <= length (TextEncoder.encode s) <= 3 * length s)%nat.
Proof.
  induction n as [| n IH]; intros [| c rest] Hlen Hs;
    cbn [length] in Hlen; try lia; [cbn; lia .. |].
  apply Forall_cons in Hs as [Hc Hrest]. unfold is_code_unit in Hc.
  cbn [TextEncoder.encode].
  pose proof (IH rest ltac:(lia) Hrest) as Htail.
  pose proof (encode_scalar_length 0xFFFD) as Hrepl.
  assert (Hrepl3 : (length (TextEncoder.encode_scalar 0xFFFD) <= 3)%nat)
    by (apply encode_scalar_unit_length; lia).
  destruct (TextEncoder.is_lead c) eqn:Hlead.
  - destruct rest as [| d rest']; [cbn [length]; lia |].
    destruct (TextEncoder.is_trail d) eqn:Htrail.
    + apply Forall_cons in Hrest as [_ Hrest'].
      cbn [length] in Hlen.
      pose proof (IH rest' ltac:(lia) Hrest') as Htail'.
      assert (Hfour : length (TextEncoder.encode_scalar
                        (0x10000 + (c - 0xD800) * 0x400 + (d - 0xDC00))) = 4%nat).
      { unfold TextEncoder.is_lead, TextEncoder.is_trail in *.
        set (cp := 0x10000 + (c - 0xD800) * 0x400 + (d - 0xDC00)).
        assert (Hcp : 0x10000 <= cp) by (subst cp; lia).
        unfold TextEncoder.encode_scalar.
        destruct (Z.ltb_spec cp 0x80); [lia |].
        destruct (Z.ltb_spec cp 0x800); [lia |].
        destruct (Z.ltb_spec cp 0x10000); [lia | done]. }
      rewrite length_app, Hfour. cbn [length]. lia.
    + rewrite length_app. cbn [length] in *. lia.
  - pose proof (encode_scalar_length c).
    pose proof (encode_scalar_unit_length c ltac:(lia)).
    destruct (TextEncoder.is_trail c); rewrite length_app; cbn [length]; lia.
Qed.

(** The frame of a string of code units is a sequence of bytes, at least two
    bytes longer than the string has code units and at most two more than
    three times as long. *)
Theorem frame_bytes_and_length (text : jsstring) :
  Forall is_code_unit text ->
  exists frame,
    toXK852Cmd text = Normal frame
    /\ Forall is_byte frame
    /\ (length text + 2 <= length frame <= 3 * length text + 2)%nat.
Proof.
  intros Htext.
  destruct (toXK852Cmd_bytes text Htext) as (frame & Hframe & Hbytes).
  exists frame. split; [done |]. split; [done |].
  rewrite toXK852Cmd_eq in Hframe. injection Hframe as <-.
  pose proof (encode_length (length text) text ltac:(lia) Htext).
  cbn [length]. rewrite length_app. cbn [length]. lia.
Qed.

(** On a string with a surrogate pair, an accent and a letter. *)
Lemma frame_bytes_and_length_witness :
  Forall is_code_unit [0xD83D; 0xDE00; 0xE9; 65]
  /\ exists frame,
       toXK852Cmd [0xD83D; 0xDE00; 0xE9; 65] = Normal frame
       /\ Forall is_byte frame
       /\ (6 <= length frame <= 14)%nat.
Proof.
  assert (H : Forall is_code_unit [0xD83D; 0xDE00; 0xE9; 65])
    by (repeat (apply Forall_cons; split; [unfold is_code_unit; lia |]);
        apply Forall_nil_2).
  split; [exact H |].
  exact (frame_bytes_and_length [0xD83D; 0xDE00; 0xE9; 65] H).
Defined.

Lemma encode_ascii_id (text : jsstring) :
  Forall is_ascii text -> TextEncoder.encode text = text.
Proof.
  induction 1 as [| c rest Hc _ IH]; [done |].
  unfold is_ascii in Hc. cbn [TextEncoder.encode].
  unfold TextEncoder.is_lead, TextEncoder.is_trail, TextEncoder.encode_scalar.
  destruct (Z.leb_spec 0xD800 c); [lia |]. cbn [andb].
  destruct (Z.leb_spec 0xDC00 c); [lia |]. cbn [andb].
  destruct (Z.ltb_spec c 0x80); [| lia].
  cbn [app]. by rewrite IH.
Qed.

(** The frame of an ASCII command is the line feed, the characters
    themselves and the carriage return, so two ASCII commands with the same
    frame are the same command. *)
Theorem ascii_frame_injective (a b : jsstring) :
  Forall is_ascii a -> Forall is_ascii b ->
  toXK852Cmd a = Normal ([10] ++ a ++ [13])
  /\ (toXK852Cmd a = toXK852Cmd b -> a = b).
Proof.
  intros Ha Hb. rewrite !toXK852Cmd_eq, !encode_ascii_id by done.
  split; [done |].
  intros Heq. injection Heq as Heq. by apply app_inv_tail in Heq.
Qed.

Lemma js_is_ascii_F0000150 : Forall is_ascii (js "*F0000150").
Proof.
  repeat (apply Forall_cons; split; [unfold is_ascii; cbn; lia |]).
  apply Forall_nil_2.
Qed.

(** On the command of the specification's example. *)
Lemma ascii_frame_injective_witness :
  Forall is_ascii (js "*F0000150")
  /\ toXK852Cmd (js "*F0000150") = Normal ([10] ++ js "*F0000150" ++ [13]).
Proof.
  split; [exact js_is_ascii_F0000150 |].
  exact (proj1 (ascii_frame_injective (js "*F0000150") (js "*F0000150")
                  js_is_ascii_F0000150 js_is_ascii_F0000150)).
Defined.

(** A byte with bit 7 set is not an ASCII byte. *)
Lemma lor_high_not_ascii (tag y b : Z) :
  Z.testbit tag 7 = true -> is_ascii b -> Z.lor tag y <> b.
Proof.
  intros Htag Hb Heq.
  assert (Hbit : Z.testbit b 7 = true)
    by (rewrite <- Heq, Z.lor_spec, Htag; done).
  unfold is_ascii in Hb.
  assert (Hclear : Z.testbit b 7 = false).
  { apply Z.testbit_false; [lia |].
    change (2 ^ 7) with 128. by rewrite Z.div_small by lia. }
  congruence.
Qed.

Lemma encode_scalar_ascii (cp b : Z) :
  is_ascii b -> b ∈ TextEncoder.encode_scalar cp -> cp = b.
Proof.
  intros Hb. unfold TextEncoder.encode_scalar.
  repeat (destruct (_ <? _));
    rewrite ?elem_of_cons, elem_of_nil;
    intros Hin; repeat (destruct Hin as [Hin | Hin]); try done;
    symmetry in Hin; by apply lor_high_not_ascii in Hin.
Qed.

Lemma encode_ascii_elem (n : nat) : forall (s : jsstring) (b : Z),
  (length s <= n)%nat -> is_ascii b -> b ∈ TextEncoder.encode s -> b ∈ s.
Proof.
  induction n as [| n IH]; intros [| c rest] b Hlen Hb Hin;
    cbn [length] in Hlen; try lia; try done.
  cbn [TextEncoder.encode] in Hin.
  assert (Hrepl : b ∉ TextEncoder.encode_scalar 0xFFFD).
  { intros H. apply encode_scalar_ascii in H; [| done].
    unfold is_ascii in Hb. lia. }
  assert (Htail : b ∈ TextEncoder.encode rest -> b ∈ c :: rest)
    by (intros H; apply list_elem_of_further, (IH rest b); [lia | done ..]).
  destruct (TextEncoder.is_lead c) eqn:Hlead.
  - destruct rest as [| d rest']; [done |].
    destruct (TextEncoder.is_trail d) eqn:Htrail;
      apply elem_of_app in Hin as [Hin | Hin]; try done; auto.
    + apply encode_scalar_ascii in Hin; [| done].
      unfold TextEncoder.is_lead, TextEncoder.is_trail, is_ascii in *. lia.
    + cbn [length] in Hlen.
      do 2 apply list_elem_of_further. apply (IH rest' b); [lia | done ..].
  - destruct (TextEncoder.is_trail c);
      apply elem_of_app in Hin as [Hin | Hin]; try done; auto.
    apply encode_scalar_ascii in Hin; [| done]. subst. apply list_elem_of_here.
Qed.

(** A command with no line feed and no carriage return in it has a frame in
    which the line feed is only the first byte and the carriage return only
    the last. *)
Theorem frame_delimiters_unique (text : jsstring) :
  10 ∉ text -> 13 ∉ text ->
  exists payload,
    toXK852Cmd text = Normal ([10] ++ payload ++ [13])
    /\ (10 ∉ payload) /\ (13 ∉ payload).
Proof.
  intros HLF HCR. exists (TextEncoder.encode text).
  split; [apply toXK852Cmd_eq |].
  split; intros Hin;
    apply (encode_ascii_elem (length text)) in Hin;
    try done; unfold is_ascii; lia.
Qed.

(** On a command with characters of two and three bytes. *)
Lemma frame_delimiters_unique_witness :
  (10 ∉ [42; 0xE9; 0x20AC]) /\ (13 ∉ [42; 0xE9; 0x20AC])
  /\ exists payload,
       toXK852Cmd [42; 0xE9; 0x20AC] = Normal ([10] ++ payload ++ [13])
       /\ (10 ∉ payload) /\ (13 ∉ payload).
Proof.
  assert (H10 : 10 ∉ [42; 0xE9; 0x20AC])
    by (rewrite !not_elem_of_cons; repeat split; (lia || apply not_elem_of_nil)).
  assert (H13 : 13 ∉ [42; 0xE9; 0x20AC])
    by (rewrite !not_elem_of_cons; repeat split; (lia || apply not_elem_of_nil)).
  split; [exact H10 |]. split; [exact H13 |].
  exact (frame_delimiters_unique [42; 0xE9; 0x20AC] H10 H13).
Defined.

(** ** The frequency command on every value *)

Lemma parseDecimal_snoc (s : jsstring) (c : Z) :
  parseDecimal (s ++ [c]) = 10 * parseDecimal s + (c - 48).
Proof. unfold parseDecimal. by rewrite foldl_app. Qed.

(** [String(n)] is read back as [n], and is made of digits. *)
Lemma digits_sound (k : nat) : forall n : Z,
  0 <= n < 10 ^ Z.of_nat k ->
  parseDecimal (digits n) = n /\ Forall is_digit (digits n).
Proof.
  induction k as [| k IH]; intros n Hn.
  - change (10 ^ Z.of_nat 0) with 1 in Hn.
    rewrite digits_lt10 by lia. split; [cbn; lia |].
    apply Forall_singleton. unfold is_digit. lia.
  - destruct (Z_lt_dec n 10) as [Hlt | Hge].
    + rewrite digits_lt10 by lia. split; [cbn; lia |].
      apply Forall_singleton. unfold is_digit. lia.
    + rewrite digits_ge10 by lia.
      assert (Hq : 0 <= n / 10 < 10 ^ Z.of_nat k).
      { split; [apply Z.div_pos; lia |].
        apply Z.div_lt_upper_bound; [lia |].
        replace (Z.of_nat (S k)) with (Z.succ (Z.of_nat k)) in Hn by lia.
        rewrite Z.pow_succ_r in Hn by lia. lia. }
      destruct (IH _ Hq) as [Hparse Hdig].
      pose proof (Z.mod_pos_bound n 10 ltac:(lia)).
      split.
      * rewrite parseDecimal_snoc, Hparse.
        pose proof (Z.div_mod n 10 ltac:(lia)). lia.
      * apply Forall_app. split; [done |].
        apply Forall_singleton. unfold is_digit. lia.
Qed.

Lemma below_power_of_ten (n : Z) : 0 <= n -> n < 10 ^ Z.of_nat (Z.to_nat n).
Proof.
  intros Hn. rewrite Z2Nat.id by done.
  apply Z.pow_gt_lin_r; lia.
Qed.

Lemma digits_parse (n : Z) :
  0 <= n -> parseDecimal (digits n) = n /\ Forall is_digit (digits n).
Proof.
  intros Hn. apply (digits_sound (Z.to_nat n)).
  split; [done | by apply below_power_of_ten].
Qed.

Lemma digits_nonempty (n : Z) : (1 <= length (digits n))%nat.
Proof.
  destruct (Z_lt_dec n 10).
  - by rewrite digits_lt10.
  - rewrite digits_ge10, length_app by lia. cbn. lia.
Qed.

Lemma parseDecimal_zeros (k : nat) (s : jsstring) :
  parseDecimal (replicate k 48 ++ s) = parseDecimal s.
Proof.
  unfold parseDecimal. rewrite foldl_app. f_equal.
  induction k as [| k IH]; [done |].
  rewrite replicate_S_end, foldl_app. cbn. rewrite IH. done.
Qed.

(** [padStart(7, "0000000")] on a string of any length. *)
Lemma padStart_zeros_any (s : jsstring) :
  padStart s 7 (js "0000000") = replicate (7 - length s) 48 ++ s.
Proof.
  destruct (Nat.le_gt_cases (length s) 7) as [Hle | Hgt].
  - by apply padStart_zeros.
  - unfold padStart. destruct (Nat.leb_spec 7 (length s)); [| lia].
    by replace (7 - length s)%nat with 0%nat by lia.
Qed.

(** For every Number [0 <= v < 2^53], with or without a fraction, the command
    is [*F] followed by at least seven decimal digits that read back as the
    integer nearest to the exact tenth of the value, a half rounding up:
    above 9999999 the digits are neither cut nor wrapped. *)
Theorem frequencyCommand_reads_back (v : Number) :
  Number_valid v = true -> isFinite v = true ->
  (0 <= Number_value v < 9007199254740992)%Q ->
  exists ds,
    frequencyCommand v = js "*F" ++ ds
    /\ Forall is_digit ds
    /\ (7 <= length ds)%nat
    /\ parseDecimal ds = round_half_up_tenth v
    /\ (inject_Z (10 * parseDecimal ds) - 5 <= Number_value v
        < inject_Z (10 * parseDecimal ds) + 5)%Q.
Proof.
  intros Hvalid Hfin Hv.
  rewrite frequencyCommand_exact by (done || lra).
  pose proof (round_half_up_tenth_nearest v) as Hnear.
  set (f := round_half_up_tenth v) in *.
  assert (Hf : 0 <= f).
  { assert (Hq : (inject_Z (-1) < inject_Z f)%Q).
    { destruct Hnear as [_ Hhigh]. rewrite inject_Z_mult in Hhigh.
      change (inject_Z 10) with 10%Q in *. change (inject_Z (-1)) with (-1)%Q.
      lra. }
    rewrite <- Zlt_Qlt in Hq. lia. }
  unfold Number_toString. destruct (Z.ltb_spec f 0) as [Hneg | _]; [lia |].
  destruct (digits_parse f Hf) as [Hparse Hdig].
  eexists. split; [reflexivity |].
  rewrite padStart_zeros_any.
  split; [| split; [| split]].
  - apply Forall_app. split; [| done].
    apply Forall_replicate. unfold is_digit. lia.
  - rewrite length_app, length_replicate. lia.
  - by rewrite parseDecimal_zeros.
  - by rewrite parseDecimal_zeros, Hparse.
Qed.

(** On 1234567894.9999998, the Number just below 1234567895, which is
    5178153060270079 / 2^22: its tenth is just below a half and is rounded
    down, to 123456789. *)
Lemma frequencyCommand_reads_back_witness :
  Number_valid (S754_finite false 5178153060270079 (-22)) = true
  /\ (0 <= Number_value (S754_finite false 5178153060270079 (-22))
      < 9007199254740992)%Q
  /\ exists ds,
       frequencyCommand (S754_finite false 5178153060270079 (-22)) = js "*F" ++ ds
       /\ parseDecimal ds = 123456789.
Proof.
  assert (Hv : (0 <= Number_value (S754_finite false 5178153060270079 (-22))
                < 9007199254740992)%Q).
  { split; vm_compute; [discriminate | reflexivity]. }
  split; [reflexivity |]. split; [exact Hv |].
  destruct (frequencyCommand_reads_back (S754_finite false 5178153060270079 (-22))
              eq_refl eq_refl Hv)
    as (ds & Hcmd & _ & _ & Hparse & _).
  exists ds. split; [exact Hcmd |]. exact Hparse.
Defined.

(** A Number between -2^53 and -5 has a negative rounded tenth: the minus
    sign of the number comes after the zeros of the padding, inside the
    command. *)
Theorem frequencyCommand_negative (v : Number) :
  Number_valid v = true -> isFinite v = true ->
  (- (9007199254740992) < Number_value v < - (5))%Q ->
  let f := round_half_up_tenth v in
  f < 0
  /\ frequencyCommand v
     = js "*F" ++ replicate (6 - length (digits (- f))) 48
         ++ js "-" ++ digits (- f)
  /\ 45 ∈ frequencyCommand v.
Proof.
  intros Hvalid Hfin Hv f.
  assert (Hf : f < 0).
  { pose proof (round_half_up_tenth_nearest v) as [Hlow _]. fold f in Hlow.
    assert (Hq : (inject_Z f < inject_Z 0)%Q).
    { rewrite inject_Z_mult in Hlow.
      change (inject_Z 10) with 10%Q in *. change (inject_Z 0) with 0%Q.
      lra. }
    by rewrite <- Zlt_Qlt in Hq. }
  assert (Hcmd : frequencyCommand v
                 = js "*F" ++ replicate (6 - length (digits (- f))) 48
                     ++ js "-" ++ digits (- f)).
  { rewrite frequencyCommand_exact by (done || lra). fold f.
    unfold Number_toString.
    destruct (Z.ltb_spec f 0) as [_ | Hge]; [| lia].
    rewrite padStart_zeros_any. rewrite length_app. done. }
  split; [done |]. split; [done |].
  rewrite Hcmd. apply elem_of_app. right. apply elem_of_app. right.
  apply list_elem_of_here.
Qed.

(** On the value -26, whose command is [*F00000-3]. *)
Lemma frequencyCommand_negative_witness :
  Number_valid (Number_of_Z (-26)) = true
  /\ (- (9007199254740992) < Number_value (Number_of_Z (-26)) < - (5))%Q
  /\ frequencyCommand (Number_of_Z (-26)) = js "*F00000-3".
Proof.
  assert (Hv : (- (9007199254740992) < Number_value (Number_of_Z (-26)) < - (5))%Q).
  { split; vm_compute; reflexivity. }
  split; [reflexivity |]. split; [exact Hv |].
  exact (proj1 (proj2 (frequencyCommand_negative (Number_of_Z (-26))
                         eq_refl eq_refl Hv))).
Defined.

(** ** Sending commands *)

Lemma sendSerial_writable (data : list Z) (p : Page) (h : Handle) :
  port p = Some h -> writable (view p h) = true ->
  writableLocked (view p h) = false ->
  sendSerial data p = (Normal tt, set_calls (calls p ++ writeCalls h data) p).
Proof.
  intros Hport Hw Hl. unfold sendSerial. rewrite Hport, Hw, Hl.
  unfold call, set_calls, writeCalls. cbn. by rewrite <- !app_assoc.
Qed.

Lemma sendCmd_eq (cmd : jsstring) (p : Page) :
  sendCmd {| clickTarget := Some {| cmdValue := cmd |} |} p
  = sendSerial (frameOf cmd) p.
Proof. unfold sendCmd. cbn. by rewrite toXK852Cmd_eq. Qed.

(** A click on a command element sends the frame of the element's value:
    with a writable, unlocked port the frame is written between a
    [getWriter()] and a [releaseLock()], and the log and the console are left
    alone; when the stream is locked the click throws and nothing is written;
    without a current target nothing happens at all. *)
Theorem sendCmd_writes_frame (cmd : jsstring) (p : Page) (h : Handle) :
  port p = Some h -> writable (view p h) = true ->
  let click := {| clickTarget := Some {| cmdValue := cmd |} |} in
  (writableLocked (view p h) = false ->
   sendCmd click p
   = (Normal tt, set_calls (calls p ++ writeCalls h (frameOf cmd)) p))
  /\ (writableLocked (view p h) = true ->
      exists e, sendCmd click p = (Throw e, p))
  /\ sendCmd {| clickTarget := None |} p = (Normal tt, p).
Proof.
  intros Hport Hw click. subst click. rewrite sendCmd_eq.
  split; [| split; [| done]].
  - intros Hl. by apply sendSerial_writable.
  - intros Hl. unfold sendSerial. rewrite Hport, Hw, Hl. by eexists.
Qed.

(** On a connected page and the command [*R]. *)
Lemma sendCmd_writes_frame_witness :
  port (connectedPage 7%nat 3%nat) = Some 7%nat
  /\ writable (view (connectedPage 7%nat 3%nat) 7%nat) = true
  /\ writableLocked (view (connectedPage 7%nat 3%nat) 7%nat) = false
  /\ calls (snd (sendCmd {| clickTarget := Some {| cmdValue := js "*R" |} |}
                   (connectedPage 7%nat 3%nat)))
     = [CallOpen 7%nat; CallGetReader 7%nat; CallRead 3%nat;
        CallGetWriter 7%nat; CallWrite 7%nat [10; 42; 82; 13];
        CallWriterReleaseLock 7%nat].
Proof.
  split; [reflexivity |]. split; [reflexivity |]. split; [reflexivity |].
  rewrite (proj1 (sendCmd_writes_frame (js "*R") (connectedPage 7%nat 3%nat)
                    7%nat eq_refl eq_refl) eq_refl).
  reflexivity.
Defined.

Lemma sendCmds_cons (cmd : jsstring) (cmds : list jsstring) (p : Page) :
  sendCmds (cmd :: cmds) p
  = sendCmds cmds
      (snd (sendCmd {| clickTarget := Some {| cmdValue := cmd |} |} p)).
Proof. reflexivity. Qed.

(** Clicks one after the other write their frames in the order of the
    clicks, each between its own [getWriter()] and [releaseLock()], and touch
    nothing else of the page. *)
Theorem sendCmds_in_order (cmds : list jsstring) (p : Page) (h : Handle) :
  port p = Some h -> writable (view p h) = true ->
  writableLocked (view p h) = false ->
  sendCmds cmds p
  = set_calls (calls p ++ flat_map (fun cmd => writeCalls h (frameOf cmd)) cmds) p.
Proof.
  revert p. induction cmds as [| cmd cmds IH]; intros p Hport Hw Hl.
  - cbn [flat_map]. rewrite app_nil_r. by destruct p.
  - rewrite sendCmds_cons.
    rewrite sendCmd_eq, (sendSerial_writable _ _ h) by done. cbn [snd].
    rewrite IH by done. cbn [flat_map]. unfold set_calls. cbn.
    by rewrite <- app_assoc.
Qed.

(** On a connected page and the commands [*R] and [*T]. *)
Lemma sendCmds_in_order_witness :
  port (connectedPage 7%nat 3%nat) = Some 7%nat
  /\ calls (sendCmds [js "*R"; js "*T"] (connectedPage 7%nat 3%nat))
     = [CallOpen 7%nat; CallGetReader 7%nat; CallRead 3%nat]
         ++ writeCalls 7%nat [10; 42; 82; 13]
         ++ writeCalls 7%nat [10; 42; 84; 13].
Proof.
  split; [reflexivity |].
  rewrite (sendCmds_in_order [js "*R"; js "*T"] (connectedPage 7%nat 3%nat)
             7%nat eq_refl eq_refl eq_refl).
  reflexivity.
Defined.

(** ** Looking ports up *)

Lemma settle_fmap {A : Type} (f : OptionElem -> A) (l : list OptionElem) :
  (forall b o, f (set_selected b o) = f o) ->
  f <$> settleSelection l = f <$> l.
Proof.
  intros Hf. unfold settleSelection. destruct (existsb selected l); [done |].
  destruct l as [| o l]; [done |]. cbn. by rewrite Hf.
Qed.

(** [findPortOption] answers with an option of the selector that refers to
    the port; when every option that refers to a port is an option it looks
    at, it finds a port exactly when the port is listed. *)
Theorem findPortOption_finds_listed (h : Handle) (p : Page) :
  (forall ref, findPortOption h p = Some ref ->
     exists o, o ∈ options p /\ oid o = ref /\ oport o = Some h)
  /\ (Forall findable (options p) ->
      (h ∈ listed p <-> exists ref, findPortOption h p = Some ref)).
Proof.
  unfold findPortOption, listed. split.
  - intros ref (o & Ho & Hid & Hp & _)%findIn_Some. eauto.
  - intros Hf. split.
    + intros Hin. destruct (findIn h (options p)) as [ref |] eqn:Hfind;
        [by eexists |].
      by apply findIn_None_not_listed in Hfind.
    + intros [ref Hfind]. by eapply findIn_Some_listed.
Qed.

(** On a page that lists the port 7. *)
Lemma findPortOption_finds_listed_witness :
  Forall findable (options (listedPage 7%nat))
  /\ (7%nat ∈ listed (listedPage 7%nat)
      <-> exists ref, findPortOption 7%nat (listedPage 7%nat) = Some ref).
Proof.
  assert (Hf : Forall findable (options (listedPage 7%nat))).
  { apply Forall_cons. split; [intros [x Hx]; discriminate |].
    apply Forall_singleton. intros _. discriminate. }
  split; [exact Hf |].
  exact (proj2 (findPortOption_finds_listed 7%nat (listedPage 7%nat)) Hf).
Defined.

Lemma findIn_new_other (h h' : Handle) (ref : ElemRef) (label : jsstring) :
  h' <> h ->
  findIn h' [ {| oid := ref; valueAttr := None; textContent := label;
                 oport := Some h; selected := false |} ] = None.
Proof.
  intros Hne. cbn. destruct (str_eqb _ _); [done |].
  rewrite bool_decide_eq_false_2; [done | congruence].
Qed.

Lemma findPortOption_addNewPort_other (h h' : Handle) (p : Page) :
  h' <> h ->
  findPortOption h' (snd (addNewPort h p)) = findPortOption h' p.
Proof.
  intros Hne. unfold findPortOption, addNewPort, appendChild. cbn.
  rewrite findIn_settle, findIn_app, findIn_new_other by done.
  by destruct (findIn h' (options p)).
Qed.

(** After [maybeAddNewPort] the port is found under the option returned,
    every other port is found as before, and the listing has grown by the
    port only if it was not found before. *)
Theorem maybeAddNewPort_lookup (h h' : Handle) (p : Page) :
  findPortOption h (snd (maybeAddNewPort h p))
  = Some (fst (maybeAddNewPort h p))
  /\ (h' <> h ->
      findPortOption h' (snd (maybeAddNewPort h p)) = findPortOption h' p)
  /\ listed (snd (maybeAddNewPort h p))
     = match findPortOption h p with
       | Some _ => listed p
       | None => listed p ++ [h]
       end.
Proof.
  split; [apply findPortOption_maybeAddNewPort |].
  unfold maybeAddNewPort.
  destruct (findPortOption h p) as [ref |] eqn:Hfind; [done |].
  split; [intros Hne; by apply findPortOption_addNewPort_other |].
  apply listed_addNewPort.
Qed.

(** ** The enumeration at start-up *)

Lemma labels_addNewPort (h : Handle) (p : Page) :
  textContent <$> options (snd (addNewPort h p))
  = (textContent <$> options p) ++ [portLabel (portCounter p)].
Proof.
  unfold addNewPort, appendChild. cbn.
  by rewrite settle_fmap, fmap_app.
Qed.

Lemma onLoaded_cons (h : Handle) (ports : list Handle) (p : Page) :
  onLoaded (h :: ports) p = onLoaded ports (snd (addNewPort h p)).
Proof. reflexivity. Qed.

Lemma portLabel_inj (a b : Z) :
  0 <= a -> 0 <= b -> portLabel a = portLabel b -> a = b.
Proof.
  intros Ha Hb. unfold portLabel, Number_toString.
  destruct (Z.ltb_spec a 0); [lia |]. destruct (Z.ltb_spec b 0); [lia |].
  intros Heq%app_inv_head.
  destruct (digits_parse a Ha) as [<- _]. destruct (digits_parse b Hb) as [<- _].
  by rewrite Heq.
Qed.

(** The enumeration lists the ports the host gives, in the host's order,
    after the options there were, labels them [Port c], [Port c+1], ... from
    the counter [c] on, and leaves the counter after the last label; with a
    counter that is not negative these labels differ from one another. *)
Theorem onLoaded_lists_ports (ports : list Handle) (p : Page) :
  let labels := portLabel <$> seqZ (portCounter p) (Z.of_nat (length ports)) in
  listed (onLoaded ports p) = listed p ++ ports
  /\ portCounter (onLoaded ports p) = portCounter p + Z.of_nat (length ports)
  /\ textContent <$> options (onLoaded ports p)
     = (textContent <$> options p) ++ labels
  /\ length labels = length ports
  /\ (0 <= portCounter p -> NoDup labels).
Proof.
  cbn zeta.
  assert (Hfields : forall q : Page,
    listed (onLoaded ports q) = listed q ++ ports
    /\ portCounter (onLoaded ports q) = portCounter q + Z.of_nat (length ports)
    /\ textContent <$> options (onLoaded ports q)
       = (textContent <$> options q)
           ++ (portLabel <$> seqZ (portCounter q) (Z.of_nat (length ports)))).
  { clear p. induction ports as [| h ports IH]; intros q.
    - cbn. rewrite !app_nil_r. split; [done |]. split; [lia | done].
    - rewrite onLoaded_cons.
      destruct (IH (snd (addNewPort h q))) as (Hl & Hc & Ht).
      rewrite Hl, Hc, Ht, listed_addNewPort, labels_addNewPort.
      change (portCounter (snd (addNewPort h q))) with (portCounter q + 1).
      split; [by rewrite <- app_assoc |]. split; [cbn [length]; lia |].
      rewrite <- app_assoc. f_equal. cbn [length app].
      rewrite (seqZ_cons (portCounter q)) by lia. cbn [fmap list_fmap].
      do 3 f_equal; lia. }
  destruct (Hfields p) as (Hl & Hc & Ht).
  split; [done |]. split; [done |]. split; [done |]. split.
  - rewrite length_fmap, length_seqZ. lia.
  - intros Hnn. apply NoDup_fmap_2_strong; [| apply NoDup_seqZ].
    intros a b Ha%elem_of_seqZ Hb%elem_of_seqZ. apply portLabel_inj; lia.
Qed.

(** On the page as loaded and three ports. *)
Lemma onLoaded_lists_ports_witness :
  0 <= portCounter freshPage
  /\ listed (onLoaded [5%nat; 6%nat; 7%nat] freshPage) = [5%nat; 6%nat; 7%nat]
  /\ NoDup (portLabel <$> seqZ (portCounter freshPage) 3).
Proof.
  destruct (onLoaded_lists_ports [5%nat; 6%nat; 7%nat] freshPage)
    as (Hl & _ & _ & _ & Hnd).
  split; [cbn; lia |]. split; [exact Hl |].
  exact (Hnd ltac:(cbn; lia)).
Defined.

(** ** Elements of the selector *)

Lemma fmap_filter_sublist {A : Type} (f : OptionElem -> A)
    (P : OptionElem -> Prop) `{!forall o, Decision (P o)} (l : list OptionElem) :
  f <$> filter P l `sublist_of` f <$> l.
Proof.
  induction l as [| o l IH]; [done |].
  rewrite filter_cons. destruct (decide (P o)); cbn.
  - by apply sublist_skip.
  - by apply sublist_cons.
Qed.

Lemma Forall_sublist_of {A : Type} (P : A -> Prop) (l k : list A) :
  l `sublist_of` k -> Forall P k -> Forall P l.
Proof.
  intros Hsub Hk. apply Forall_forall. intros x Hx.
  eapply Forall_forall; [exact Hk |]. by eapply elem_of_sublist.
Qed.

Lemma Forall_lt_weaken (n : nat) (l : list nat) :
  Forall (fun ref => (ref < n)%nat) l -> Forall (fun ref => (ref < S n)%nat) l.
Proof. intros H. eapply Forall_impl; [exact H |]. intros; cbn in *; lia. Qed.

Lemma freshPage_elementsOk : elementsOk freshPage.
Proof.
  split; cbn.
  - apply NoDup_singleton.
  - apply Forall_singleton. lia.
Qed.

Lemma elementsOk_addNewPort (h : Handle) (p : Page) :
  elementsOk p -> elementsOk (snd (addNewPort h p)).
Proof.
  intros [Hnd Hlt]. unfold elementsOk, addNewPort, appendChild. cbn.
  rewrite settle_fmap, fmap_app by done. cbn. split.
  - apply NoDup_app. split; [done |]. split; [| apply NoDup_singleton].
    intros ref Hin ->%list_elem_of_singleton.
    rewrite Forall_forall in Hlt. specialize (Hlt _ Hin). lia.
  - apply Forall_app. split; [by apply Forall_lt_weaken |].
    apply Forall_singleton. lia.
Qed.

Lemma elementsOk_maybeAddNewPort (h : Handle) (p : Page) :
  elementsOk p -> elementsOk (snd (maybeAddNewPort h p)).
Proof.
  intros Hok. unfold maybeAddNewPort.
  destruct (findPortOption h p); [done | by apply elementsOk_addNewPort].
Qed.

Lemma elementsOk_removeOption (ref : ElemRef) (p : Page) :
  elementsOk p -> elementsOk (removeOption ref p).
Proof.
  intros [Hnd Hlt]. unfold elementsOk, removeOption. cbn.
  rewrite settle_fmap by done. split.
  - eapply sublist_NoDup; [exact Hnd | apply fmap_filter_sublist].
  - eapply Forall_sublist_of; [apply fmap_filter_sublist | done].
Qed.

Lemma oid_selectOption (ref : ElemRef) (p : Page) :
  oid <$> options (selectOption ref p) = oid <$> options p.
Proof.
  unfold selectOption. cbn. rewrite <- list_fmap_compose.
  by apply list_fmap_ext.
Qed.

Lemma elementsOk_selectOption (ref : ElemRef) (p : Page) :
  elementsOk p -> elementsOk (selectOption ref p).
Proof.
  intros [Hnd Hlt]. unfold elementsOk. by rewrite oid_selectOption.
Qed.

Lemma listed_selectOption (ref : ElemRef) (p : Page) :
  listed (selectOption ref p) = listed p.
Proof.
  unfold listed, selectOption. cbn.
  induction (options p) as [| o l IH]; [done |].
  cbn. by rewrite IH.
Qed.

Lemma registryOk_selectOption (ref : ElemRef) (p : Page) :
  registryOk p -> registryOk (selectOption ref p).
Proof.
  intros [Hnd Hf]. split; [by rewrite listed_selectOption |].
  unfold selectOption. cbn. apply Forall_fmap.
  eapply Forall_impl; [exact Hf |]. done.
Qed.

Lemma elementsOk_onLoaded (ports : list Handle) : forall p,
  elementsOk p -> elementsOk (onLoaded ports p).
Proof.
  induction ports as [| h ports IH]; intros p Hok; [done |].
  rewrite onLoaded_cons. by apply IH, elementsOk_addNewPort.
Qed.

Lemma elementsOk_connect_start (p : Page) :
  elementsOk p -> elementsOk (snd (connect_start p)).
Proof.
  unfold connect_start. destruct (str_eqb _ _); [done |].
  by destruct (selectedOptions p).
Qed.

Lemma registryOk_set_port (v : option Handle) (p : Page) :
  registryOk p -> registryOk (set_port v p).
Proof. done. Qed.

Lemma chooserGranted_eq (h : Handle) (p : Page) :
  chooserGranted h p
  = selectOption (fst (maybeAddNewPort h (set_port (Some h) p)))
      (snd (maybeAddNewPort h (set_port (Some h) p))).
Proof.
  unfold chooserGranted. by destruct (maybeAddNewPort h (set_port (Some h) p)).
Qed.

Lemma RegistryStep_keeps (p q : Page) :
  RegistryStep p q -> registryOk p /\ elementsOk p ->
  registryOk q /\ elementsOk q.
Proof.
  intros Hstep [Hreg Hel]. destruct Hstep as [ports p Hnd Hnew | h p | h p Hnew | h p].
  - split; [by apply registryOk_onLoaded | by apply elementsOk_onLoaded].
  - rewrite chooserGranted_eq. split.
    + by apply registryOk_selectOption, registryOk_maybeAddNewPort.
    + by apply elementsOk_selectOption, elementsOk_maybeAddNewPort.
  - unfold onSerialConnect. split.
    + unfold registryOk, listed. rewrite options_connect_start.
      by apply registryOk_addNewPort.
    + by apply elementsOk_connect_start, elementsOk_addNewPort.
  - unfold onSerialDisconnect. destruct (findPortOption h p); [| done].
    split; [by apply registryOk_removeOption | by apply elementsOk_removeOption].
Qed.



(** ** Unplugging a port *)



(** A port that is plugged in and unplugged again leaves the listing as it
    was. *)
Theorem plug_unplug_restores_listing (h : Handle) (p : Page) :
  elementsOk p -> registryOk p -> h ∉ listed p ->
  listed (onSerialDisconnect h (snd (onSerialConnect h p))) = listed p.
Proof.
  intros Hel Hreg Hnot.
  assert (Hq : registryOk (snd (onSerialConnect h p))
               /\ elementsOk (snd (onSerialConnect h p)))
    by (eapply RegistryStep_keeps; [by apply StepConnect | done]).
  destruct Hq as [Hreg' Hel'].
  rewrite listed_onSerialDisconnect by done.
  unfold onSerialConnect, listed. rewrite options_connect_start.
  fold (listed (snd (addNewPort h p))). rewrite listed_addNewPort.
  rewrite filter_app, filter_cons_False by (intros Hne; by apply Hne).
  rewrite filter_nil, app_nil_r. apply filter_all, Forall_forall.
  by intros x Hx ->.
Qed.

(** On the page as loaded and the port 5. *)
Lemma plug_unplug_restores_listing_witness :
  elementsOk freshPage /\ registryOk freshPage /\ (5%nat ∉ listed freshPage)
  /\ listed (onSerialDisconnect 5%nat (snd (onSerialConnect 5%nat freshPage)))
     = listed freshPage.
Proof.
  assert (Hnot : 5%nat ∉ listed freshPage) by apply not_elem_of_nil.
  split; [apply freshPage_elementsOk |]. split; [apply freshPage_registryOk |].
  split; [exact Hnot |].
  exact (plug_unplug_restores_listing 5%nat freshPage
           freshPage_elementsOk freshPage_registryOk Hnot).
Defined.

(** ** Choosing a port *)

Lemma port_maybeAddNewPort (h : Handle) (p : Page) :
  port (snd (maybeAddNewPort h p)) = port p.
Proof. unfold maybeAddNewPort. by destruct (findPortOption h p). Qed.

Lemma none_selected (ref : ElemRef) (l : list OptionElem) :
  ref ∉ oid <$> l ->
  filter (fun o => selected o = true)
    (map (fun o => set_selected (bool_decide (oid o = ref)) o) l) = [].
Proof.
  induction l as [| o l IH]; [done |].
  cbn [fmap list_fmap map]. intros [Hne Hl]%not_elem_of_cons.
  rewrite filter_cons_False; [by apply IH |].
  cbn. rewrite bool_decide_eq_false_2 by done. done.
Qed.

(** After [o.selected = true] the option [o] is the one selected option. *)
Lemma selected_after_select (ref : ElemRef) (l : list OptionElem)
    (o0 : OptionElem) :
  NoDup (oid <$> l) -> o0 ∈ l -> oid o0 = ref ->
  filter (fun o => selected o = true)
    (map (fun o => set_selected (bool_decide (oid o = ref)) o) l)
  = [set_selected true o0].
Proof.
  induction l as [| o l IH]; intros Hnd Hin Hid; [by apply elem_of_nil in Hin |].
  cbn [fmap list_fmap] in Hnd. apply NoDup_cons in Hnd as [Hfresh Hnd].
  cbn [map]. destruct (decide (oid o = ref)) as [Heq | Hne].
  - assert (o0 = o) as ->.
    { apply elem_of_cons in Hin as [-> | Hin]; [done |].
      exfalso. apply Hfresh. rewrite Heq, <- Hid. by apply list_elem_of_fmap_2. }
    rewrite filter_cons_True
      by (cbn; by rewrite bool_decide_eq_true_2).
    rewrite bool_decide_eq_true_2 by done. f_equal.
    apply none_selected. by rewrite <- Heq.
  - rewrite filter_cons_False
      by (cbn; by rewrite bool_decide_eq_false_2).
    apply IH; [done | | done].
    apply elem_of_cons in Hin as [-> | Hin]; [done | done].
Qed.

(** When the chooser gives a port, [getSelectedPort] sets [port] to it, the
    port is listed, its option is the one selected option of the selector,
    and a later [connectToPort] takes the port from the selector without
    asking the chooser again. *)
Theorem chooser_grant_selects
    (decode : list Z -> jsstring) (h : Handle) (p : Page) :
  elementsOk p ->
  let q := chooserGranted h p in
  connect_resume decode (FulfilledPort h) (AtRequestPort, p)
  = Some (AtGetSelectedPort (Normal tt), q)
  /\ port q = Some h
  /\ h ∈ listed q
  /\ (exists o, selectedOptions q = [o] /\ oport o = Some h)
  /\ connect_start q = (AtGetSelectedPort (Normal tt), q).
Proof.
  intros Hel q. subst q.
  assert (Hresume : connect_resume decode (FulfilledPort h) (AtRequestPort, p)
            = Some (AtGetSelectedPort (Normal tt), chooserGranted h p)).
  { unfold chooserGranted. cbn.
    by destruct (maybeAddNewPort h (set_port (Some h) p)). }
  split; [exact Hresume |]. rewrite chooserGranted_eq.
  set (m := maybeAddNewPort h (set_port (Some h) p)).
  assert (Hport : port (snd m) = Some h)
    by (subst m; by rewrite port_maybeAddNewPort).
  assert (Hel2 : elementsOk (snd m))
    by (subst m; by apply elementsOk_maybeAddNewPort).
  pose proof (findPortOption_maybeAddNewPort h (set_port (Some h) p)) as Hfind.
  fold m in Hfind.
  pose proof (findIn_Some _ _ _ Hfind) as (o0 & Ho0 & Hid & Hp & Hval).
  assert (Hsel : selectedOptions (selectOption (fst m) (snd m))
                 = [set_selected true o0]).
  { unfold selectedOptions, selectOption. cbn.
    apply selected_after_select; [apply Hel2 | done | done]. }
  split; [done |]. split.
  { rewrite listed_selectOption. by eapply findIn_Some_listed. }
  split; [by exists (set_selected true o0) |].
  unfold connect_start, selectorValue, str_eqb. rewrite Hsel.
  change (value_of (set_selected true o0)) with (value_of o0).
  rewrite bool_decide_eq_false_2 by done. cbn [oport set_selected].
  rewrite Hp. f_equal. unfold selectOption, set_options, set_port. cbn.
  by rewrite Hport.
Qed.

(** On the page as loaded, where the chooser gives the port 5. *)
Lemma chooser_grant_selects_witness :
  elementsOk freshPage
  /\ connect_resume decodeAscii (FulfilledPort 5%nat) (AtRequestPort, freshPage)
     = Some (AtGetSelectedPort (Normal tt), chooserGranted 5%nat freshPage)
  /\ connect_start (chooserGranted 5%nat freshPage)
     = (AtGetSelectedPort (Normal tt), chooserGranted 5%nat freshPage).
Proof.
  split; [apply freshPage_elementsOk |].
  destruct (chooser_grant_selects decodeAscii 5%nat freshPage
              freshPage_elementsOk) as (Hresume & _ & _ & _ & Hstart).
  split; [exact Hresume | exact Hstart].
Defined.

(** ** Connecting and reading *)

(** The fields of a page after the steps of the code. *)
Ltac page_fields :=
  unfold call, console_add, dumpError, markDisconnected, dumpSerialOut; cbn.

Section ReadLoop.

Variable decode : list Z -> jsstring.

(** One step of a run, with the configuration it leads to. *)
Tactic Notation "run_step" uconstr(H) :=
  erewrite (final_step _ _ _ _ _ H).

Lemma step_selected (h : Handle) (p : Page) :
  port p = Some h ->
  connect_resume decode Tick (AtGetSelectedPort (Normal tt), p)
  = Some (AtOpen,
          call (CallOpen h)
            (set_buttonDisabled true
               (set_buttonText (js "Connecting...")
                  (set_selectorDisabled true
                     (console_add ConsoleLogOptions p))))).
Proof. intros Hport. cbn. by rewrite Hport. Qed.

Lemma step_opened (p : Page) :
  connect_resume decode Fulfilled (AtOpen, p)
  = Some (loopHead
            (set_buttonDisabled false
               (set_buttonText (js "Disconnect")
                  (dumpSerialOut (js "<CONNECTED>" ++ LF) p)))).
Proof. reflexivity. Qed.

Lemma loopHead_readable (h : Handle) (p : Page) :
  port p = Some h -> readable (view p h) = true ->
  loopHead p = (AtGetReader, call (CallGetReader h) p).
Proof. intros Hport Hread. unfold loopHead. by rewrite Hport, Hread. Qed.

Lemma loopHead_unreadable (h : Handle) (p : Page) :
  port p = Some h -> readable (view p h) = false ->
  loopHead p = (AtClose, call (CallClose h) p).
Proof.
  intros Hport Hread. unfold loopHead, afterLoop. by rewrite Hport, Hread.
Qed.

Lemma loopHead_no_port (p : Page) :
  port p = None -> loopHead p = (Returned, p).
Proof. intros Hport. unfold loopHead, afterLoop. by rewrite Hport. Qed.

Lemma step_reader (r : ReaderRef) (p : Page) :
  connect_resume decode (FulfilledReader r) (AtGetReader, p)
  = Some (AtRead, call (CallRead r) (set_reader (Some r) p)).
Proof. reflexivity. Qed.

Lemma step_closed (p : Page) :
  connect_resume decode Fulfilled (AtClose, p)
  = Some (Returned, markDisconnected p).
Proof. reflexivity. Qed.

(** With the selected port's streams there, [connectToPort] opens the port,
    writes [<CONNECTED>], turns the button into [Disconnect], takes a reader
    and starts the first read; with no readable stream after [open()] it
    closes the port at once and is back in the disconnected state. *)
Theorem connect_opens_and_reads
    (p : Page) (o : OptionElem) (rest : list OptionElem) (h : Handle)
    (r : ReaderRef) :
  selectedOptions p = o :: rest -> value_of o <> js "prompt" ->
  oport o = Some h ->
  (readable (view p h) = true ->
   exists q,
     final (connect_resume decode) [Tick; Fulfilled; FulfilledReader r]
       (connect_start p) = (AtRead, q)
     /\ port q = Some h /\ reader q = Some r
     /\ serialOut q = appended (js "<CONNECTED>" ++ LF) p
     /\ buttonText q = js "Disconnect" /\ buttonDisabled q = false
     /\ selectorDisabled q = true
     /\ calls q = calls p ++ [CallOpen h; CallGetReader h; CallRead r])
  /\ (readable (view p h) = false ->
      exists q,
        final (connect_resume decode) [Tick; Fulfilled; Fulfilled]
          (connect_start p) = (Returned, q)
        /\ disconnected q
        /\ serialOut q
           = appended ((js "<CONNECTED>" ++ LF) ++ js "<DISCONNECTED>" ++ LF) p
        /\ calls q = calls p ++ [CallOpen h; CallClose h]).
Proof.
  intros Hsel Hval Hport.
  assert (Hstart : connect_start p
                   = (AtGetSelectedPort (Normal tt), set_port (Some h) p)).
  { unfold connect_start, str_eqb, selectorValue.
    by rewrite Hsel, bool_decide_eq_false_2, Hport by done. }
  rewrite Hstart.
  split; intros Hread;
    run_step (step_selected h (set_port (Some h) p) eq_refl);
    run_step (step_opened _).
  - rewrite (loopHead_readable h) by done.
    run_step (step_reader r _).
    rewrite final_nil. eexists. split; [reflexivity |].
    do 6 (split; [reflexivity |]).
    page_fields. by rewrite <- !app_assoc.
  - rewrite (loopHead_unreadable h) by done.
    run_step (step_closed _).
    rewrite final_nil. eexists. split; [reflexivity |].
    split; [apply markDisconnected_disconnected |].
    split; [| page_fields; by rewrite <- !app_assoc].
    rewrite serialOut_markDisconnected.
    by apply appended_appended.
Qed.

Lemma step_read (chunk : option (list Z)) (done : bool) (p : Page) :
  connect_resume decode (FulfilledRead chunk done) (AtRead, p)
  = Some (AtReadReturn (Normal (chunk, done)), p).
Proof. reflexivity. Qed.

Lemma step_chunk (chunk : list Z) (done : bool) (p : Page) :
  connect_resume decode Tick (AtReadReturn (Normal (Some chunk, done)), p)
  = Some (AtDump done, dumpSerialOut (decode chunk) p).
Proof. reflexivity. Qed.

Lemma step_more (r : ReaderRef) (p : Page) :
  reader p = Some r ->
  connect_resume decode Tick (AtDump false, p)
  = Some (AtRead, call (CallRead r) p).
Proof. intros Hr. cbn. unfold nextRead. by rewrite Hr. Qed.

Lemma step_rejected (e : Exn) (p : Page) :
  connect_resume decode (Rejected e) (AtRead, p)
  = Some (AtReadReturn (Throw e), p).
Proof. reflexivity. Qed.

Lemma step_caught (message : jsstring) (p : Page) :
  connect_resume decode Tick (AtReadReturn (Throw (ErrorObj message)), p)
  = Some (AtCatch,
          dumpError (ErrorObj message) LF
            (console_add (ConsoleError (ErrorObj message)) p)).
Proof. reflexivity. Qed.

Lemma step_finally (r : ReaderRef) (p : Page) :
  reader p = Some r ->
  connect_resume decode Tick (AtCatch, p)
  = Some (loopHead (set_reader None (call (CallReleaseLock r) p))).
Proof. intros Hr. cbn. unfold finallyBlock. by rewrite Hr. Qed.

Lemma appended_nil (p : Page) : appended [] p = serialOut p.
Proof. unfold appended. destruct (serialOut p); [by rewrite app_nil_r | done]. Qed.

(** The read loop forwards the chunks to the log as they arrive, decoded, in
    their order, and asks for the next read after each of them; it writes
    nothing else, and keeps the port and the reader. *)
Theorem chunks_forwarded (chunks : list (list Z)) : forall (p : Page) (r : ReaderRef),
  reader p = Some r ->
  exists q,
    final (connect_resume decode) (chunkSettlements chunks) (AtRead, p)
    = (AtRead, q)
    /\ serialOut q = appended (mjoin (decode <$> chunks)) p
    /\ calls q = calls p ++ replicate (length chunks) (CallRead r)
    /\ reader q = Some r /\ port q = port p /\ console q = console p.
Proof.
  induction chunks as [| chunk chunks IH]; intros p r Hr.
  - exists p. rewrite final_nil. cbn. rewrite appended_nil, app_nil_r. done.
  - cbn [chunkSettlements flat_map app].
    run_step (step_read _ _ _). run_step (step_chunk _ _ _).
    run_step (step_more r (dumpSerialOut (decode chunk) p) Hr).
    destruct (IH (call (CallRead r) (dumpSerialOut (decode chunk) p)) r Hr)
      as (q & Hfinal & Hout & Hcalls & Hreader & Hport & Hconsole).
    exists q. split; [exact Hfinal |].
    split; [| split; [| done]].
    + rewrite Hout. cbn [fmap list_fmap mjoin list_join].
      by apply appended_appended.
    + rewrite Hcalls. page_fields. by rewrite <- app_assoc.
Qed.

(** A read that fails with an [Error] is written to the log and the reader
    is released. If the port still has a readable stream the loop asks for a
    new reader; if it has none the port is closed, after the release, and
    the page is back in the disconnected state. *)
Theorem read_error_recovers
    (p : Page) (h : Handle) (r : ReaderRef) (message : jsstring) :
  port p = Some h -> reader p = Some r ->
  let e := ErrorObj message in
  (readable (view p h) = true ->
   exists q,
     final (connect_resume decode) [Rejected e; Tick; Tick] (AtRead, p)
     = (AtGetReader, q)
     /\ reader q = None /\ port q = Some h
     /\ serialOut q = appended (errorLine e LF) p
     /\ calls q = calls p ++ [CallReleaseLock r; CallGetReader h])
  /\ (readable (view p h) = false ->
      exists q,
        final (connect_resume decode) [Rejected e; Tick; Tick; Fulfilled]
          (AtRead, p)
        = (Returned, q)
        /\ disconnected q /\ reader q = None
        /\ serialOut q
           = appended (errorLine e LF ++ js "<DISCONNECTED>" ++ LF) p
        /\ calls q = calls p ++ [CallReleaseLock r; CallClose h]).
Proof.
  intros Hport Hr e. subst e.
  split; intros Hread;
    run_step (step_rejected _ _); run_step (step_caught _ _);
    run_step (step_finally r
                (dumpError (ErrorObj message) LF
                   (console_add (ConsoleError (ErrorObj message)) p)) Hr).
  - rewrite (loopHead_readable h) by done.
    rewrite final_nil. eexists. split; [reflexivity |].
    do 3 (split; [done |]).
    page_fields. by rewrite <- !app_assoc.
  - rewrite (loopHead_unreadable h) by done.
    run_step (step_closed _). rewrite final_nil.
    eexists. split; [reflexivity |].
    split; [apply markDisconnected_disconnected |]. split; [done |].
    split; [| page_fields; by rewrite <- !app_assoc].
    rewrite serialOut_markDisconnected.
    by apply appended_appended.
Qed.

Lemma connectInv_loopHead (p : Page) :
  reader p = None -> connectInv (loopHead p).
Proof.
  intros Hr. unfold loopHead, afterLoop.
  destruct (port p) as [h |]; [destruct (readable (view p h)) |]; done.
Qed.

Lemma connectInv_finallyBlock (p : Page) : connectInv (finallyBlock p).
Proof.
  unfold finallyBlock.
  destruct (reader p) eqn:Hr; by apply connectInv_loopHead.
Qed.

Lemma connectInv_nextRead (p : Page) : connectInv (nextRead p).
Proof.
  unfold nextRead. destruct (reader p) as [r |] eqn:Hr; [| done].
  exists r. split; [done | apply List.last_last].
Qed.

Lemma connectInv_catchBlock (e : Exn) (p : Page) : connectInv (catchBlock e p).
Proof. by destruct e. Qed.

Lemma connectInv_afterChunk (done : bool) (p : Page) :
  connectInv (afterChunk done p).
Proof.
  destruct done; [apply connectInv_finallyBlock | apply connectInv_nextRead].
Qed.

Lemma reader_maybeAddNewPort (h : Handle) (p : Page) :
  reader (snd (maybeAddNewPort h p)) = reader p.
Proof. unfold maybeAddNewPort. by destruct (findPortOption h p). Qed.

Lemma connectInv_start (p : Page) :
  reader p = None -> connectInv (connect_start p).
Proof.
  intros Hr. unfold connect_start. destruct (str_eqb _ _); [done |].
  by destruct (selectedOptions p).
Qed.

Lemma connectInv_resume (s : Settled) (c c' : ConnectPc * Page) :
  connectInv c -> connect_resume decode s c = Some c' -> connectInv c'.
Proof.
  destruct c as [pc p]. unfold connectInv at 1. cbn [fst snd].
  destruct pc as [| [[] | e] | | | | [[[chunk |] done] | e] | done | | | | |];
    destruct s; cbn [connect_resume]; intros Hinv Hstep;
    try discriminate;
    try (injection Hstep as <-;
         solve [ done
               | exact I
               | exact Hinv
               | apply connectInv_catchBlock
               | apply connectInv_afterChunk
               | apply connectInv_finallyBlock
               | apply connectInv_nextRead
               | by apply connectInv_loopHead
               | by destruct e ]).
  - pose proof (reader_maybeAddNewPort h (set_port (Some h) p)) as Hm.
    destruct (maybeAddNewPort h (set_port (Some h) p)) as [ref p2].
    injection Hstep as <-. cbn in *. congruence.
  - destruct (port p); by injection Hstep as <-.
Qed.

(** Started with no reader held, and whatever the host settles, one call of
    [connectToPort] never asks for a reader, closes the port or returns
    while [reader] is set, and has a read pending only on the reader that
    [reader] holds. *)
Theorem connect_holds_one_reader (rs : list Settled) (p : Page) :
  reader p = None ->
  Forall connectInv (run (connect_resume decode) rs (connect_start p)).
Proof.
  intros Hr. pose proof (connectInv_start p Hr) as Hc.
  revert Hc. generalize (connect_start p). clear p Hr.
  induction rs as [| s rs IH]; intros c Hc; cbn [run].
  - by apply Forall_singleton.
  - destruct (connect_resume decode s c) as [c' |] eqn:Hstep.
    + apply Forall_cons. split; [done |].
      apply IH. by eapply connectInv_resume.
    + by apply Forall_singleton.
Qed.

End ReadLoop.

(** On a page whose selected port has its streams ready. *)
Lemma connect_opens_and_reads_witness :
  selectedOptions (readyPage 7%nat)
  = [ {| oid := 1%nat; valueAttr := None; textContent := js "Port 1";
         oport := Some 7%nat; selected := true |} ]
  /\ readable (view (readyPage 7%nat) 7%nat) = true
  /\ exists q,
       final (connect_resume decodeAscii) [Tick; Fulfilled; FulfilledReader 3%nat]
         (connect_start (readyPage 7%nat)) = (AtRead, q)
       /\ serialOut q = Some (js "<CONNECTED>" ++ LF)
       /\ calls q = [CallOpen 7%nat; CallGetReader 7%nat; CallRead 3%nat].
Proof.
  split; [reflexivity |]. split; [reflexivity |].
  destruct (proj1 (connect_opens_and_reads decodeAscii (readyPage 7%nat)
                     _ [] 7%nat 3%nat eq_refl ltac:(discriminate) eq_refl)
              eq_refl)
    as (q & Hfinal & _ & _ & Hout & _ & _ & _ & Hcalls).
  exists q. split; [exact Hfinal |]. split; [exact Hout | exact Hcalls].
Defined.

(** On a connected page and the chunks [ab] and [c]. *)
Lemma chunks_forwarded_witness :
  reader (connectedPage 7%nat 3%nat) = Some 3%nat
  /\ exists q,
       final (connect_resume decodeAscii)
         (chunkSettlements [[97; 98]; [99]]) (AtRead, connectedPage 7%nat 3%nat)
       = (AtRead, q)
       /\ serialOut q = Some (js "<CONNECTED>" ++ LF ++ js "abc").
Proof.
  split; [reflexivity |].
  destruct (chunks_forwarded decodeAscii [[97; 98]; [99]]
              (connectedPage 7%nat 3%nat) 3%nat eq_refl)
    as (q & Hfinal & Hout & _).
  exists q. split; [exact Hfinal | exact Hout].
Defined.

(** On a connected page whose port has lost its readable stream. *)
Lemma read_error_recovers_witness :
  port (connectedPage 7%nat 3%nat) = Some 7%nat
  /\ reader (connectedPage 7%nat 3%nat) = Some 3%nat
  /\ exists q,
       final (connect_resume decodeAscii)
         [Rejected (ErrorObj (js "Break received")); Tick; Tick]
         (AtRead, connectedPage 7%nat 3%nat)
       = (AtGetReader, q)
       /\ calls q
          = [CallOpen 7%nat; CallGetReader 7%nat; CallRead 3%nat;
             CallReleaseLock 3%nat; CallGetReader 7%nat].
Proof.
  split; [reflexivity |]. split; [reflexivity |].
  destruct (proj1 (read_error_recovers decodeAscii (connectedPage 7%nat 3%nat)
                     7%nat 3%nat (js "Break received") eq_refl eq_refl)
              eq_refl)
    as (q & Hfinal & _ & _ & _ & Hcalls).
  exists q. split; [exact Hfinal | exact Hcalls].
Defined.

(** On a ready page, through a connection, a chunk, a failed read and the
    end of the stream. *)
Lemma connect_holds_one_reader_witness :
  reader (readyPage 7%nat) = None
  /\ Forall connectInv
       (run (connect_resume decodeAscii)
          [Tick; Fulfilled; FulfilledReader 3%nat;
           FulfilledRead (Some [97]) false; Tick; Tick;
           Rejected (ErrorObj (js "Break received")); Tick; Tick;
           FulfilledReader 4%nat; FulfilledRead None true; Tick]
          (connect_start (readyPage 7%nat))).
Proof.
  split; [reflexivity |].
  exact (connect_holds_one_reader decodeAscii _ (readyPage 7%nat) eq_refl).
Defined.

(** ** Disconnecting at the edges *)

(** Called with nothing connected, [disconnectFromPort] makes no call on the
    host and still writes [<DISCONNECTED>] and resets the button. When
    [reader.cancel()] fails, the call throws what [cancel()] threw: the port
    is not closed, the page is not reset and nothing is written to the log,
    but [port] stays cleared. *)
Theorem disconnect_edge_cases (p : Page) :
  (port p = None -> reader p = None ->
   disconnect_start p = (DReturned, markDisconnected p)
   /\ calls (markDisconnected p) = calls p
   /\ serialOut (markDisconnected p) = appended (js "<DISCONNECTED>" ++ LF) p)
  /\ (forall r e,
        reader p = Some r ->
        exists q,
          final disconnect_resume [Rejected e] (disconnect_start p)
          = (DThrew e, q)
          /\ port q = None
          /\ calls q = calls p ++ [CallCancel r]
          /\ serialOut q = serialOut p
          /\ buttonText q = buttonText p
          /\ selectorDisabled q = selectorDisabled p).
Proof.
  split.
  - intros Hport Hr. rewrite disconnect_start_no_reader, Hport by done.
    split; [| split; [done | apply serialOut_markDisconnected]].
    unfold closeLocal. f_equal.
  - intros r e Hr. rewrite (disconnect_start_reader p r Hr).
    eexists. split; [reflexivity |]. done.
Qed.

(** On the page as loaded, and on a connected page whose reader cannot be
    cancelled. *)
Lemma disconnect_edge_cases_witness :
  (port freshPage = None /\ reader freshPage = None
   /\ disconnect_start freshPage = (DReturned, markDisconnected freshPage))
  /\ reader (connectedPage 7%nat 3%nat) = Some 3%nat
  /\ exists q,
       final disconnect_resume [Rejected (NonError 0)]
         (disconnect_start (connectedPage 7%nat 3%nat))
       = (DThrew (NonError 0), q)
       /\ port q = None
       /\ buttonText q = js "Disconnect".
Proof.
  split.
  - split; [reflexivity |]. split; [reflexivity |].
    exact (proj1 (proj1 (disconnect_edge_cases freshPage) eq_refl eq_refl)).
  - split; [reflexivity |].
    destruct (proj2 (disconnect_edge_cases (connectedPage 7%nat 3%nat))
                3%nat (NonError 0) eq_refl)
      as (q & Hfinal & Hport & _ & _ & Hbutton & _).
    exists q. split; [exact Hfinal |]. split; [exact Hport | exact Hbutton].
Defined.

(** ** The connect button *)

(** A click on the enabled button of a connected page starts
    [disconnectFromPort], which clears [port] at once and leaves the button
    enabled: a second click, before the first has finished, then starts
    [connectToPort] on the port the selector shows. *)
Theorem second_click_connects
    (p : Page) (h : Handle) (o : OptionElem) (rest : list OptionElem) :
  port p = Some h -> buttonDisabled p = false ->
  selectedOptions p = o :: rest -> value_of o <> js "prompt" ->
  exists d q,
    onConnectClick p = inr (d, q)
    /\ port q = None
    /\ d <> DReturned
    /\ buttonDisabled q = false
    /\ onConnectClick q = inl (AtGetSelectedPort (Normal tt), set_port (oport o) q).
Proof.
  intros Hport Hbutton Hsel Hval.
  assert (Hclick : onConnectClick p = inr (disconnect_start p))
    by (unfold onConnectClick; by rewrite Hport).
  assert (Hq : forall d q, disconnect_start p = (d, q) ->
            options q = options p /\ port q = None /\ d <> DReturned
            /\ buttonDisabled q = buttonDisabled p).
  { unfold disconnect_start, closeLocal. cbn. rewrite Hport.
    destruct (reader p); intros d q [= <- <-]; done. }
  destruct (disconnect_start p) as [d q] eqn:Hstart.
  destruct (Hq d q eq_refl) as (Hopts & Hnone & Hd & Hb).
  exists d, q. split; [done |]. split; [done |]. split; [done |].
  split; [congruence |].
  unfold onConnectClick. rewrite Hnone.
  unfold connect_start, selectorValue, selectedOptions, str_eqb.
  rewrite Hopts. fold (selectedOptions p). rewrite Hsel.
  by rewrite bool_decide_eq_false_2.
Qed.

(** On a connected page. *)
Lemma second_click_connects_witness :
  port (connectedPage 7%nat 3%nat) = Some 7%nat
  /\ buttonDisabled (connectedPage 7%nat 3%nat) = false
  /\ exists d q,
       onConnectClick (connectedPage 7%nat 3%nat) = inr (d, q)
       /\ port q = None
       /\ onConnectClick q
          = inl (AtGetSelectedPort (Normal tt), set_port (Some 7%nat) q).
Proof.
  split; [reflexivity |]. split; [reflexivity |].
  destruct (second_click_connects (connectedPage 7%nat 3%nat) 7%nat _ []
              eq_refl eq_refl eq_refl ltac:(discriminate))
    as (d & q & Hclick & Hport & _ & _ & Hsecond).
  exists d, q. split; [exact Hclick |]. split; [exact Hport | exact Hsecond].
Defined.

(** ** The state of the panels *)

Lemma last_cons_default {A : Type} (x d : A) (l : list A) :
  List.last (x :: l) d = List.last l x.
Proof.
  revert x d. induction l as [| y l IH]; intros x d; [done |].
  change (List.last (x :: y :: l) d) with (List.last (y :: l) d).
  by rewrite !(IH y).
Qed.

Lemma setReturnMsgs_cons (msg : jsstring) (msgs : list jsstring) (r : Store.Rig) :
  Store.setReturnMsgs (msg :: msgs) r
  = Store.setReturnMsgs msgs (Store.setReturnMsg msg r).
Proof. reflexivity. Qed.

(** After any messages of the device, the message shown is the last one
    that is not the ignored ['\n T  '], or the one shown before if there is
    none; the ignored message is never shown, and the frequency is not
    touched. *)
Theorem setReturnMsgs_last (msgs : list jsstring) (r : Store.Rig) :
  Store.returnMsg (Store.setReturnMsgs msgs r)
  = List.last (filter (fun m => m <> Store.ignoredMsg) msgs) (Store.returnMsg r)
  /\ Store.frequency (Store.setReturnMsgs msgs r) = Store.frequency r
  /\ Store.frequencyConfirmed (Store.setReturnMsgs msgs r)
     = Store.frequencyConfirmed r
  /\ (Store.returnMsg r <> Store.ignoredMsg ->
      Store.returnMsg (Store.setReturnMsgs msgs r) <> Store.ignoredMsg).
Proof.
  revert r. induction msgs as [| msg msgs IH]; intros r; [done |].
  rewrite setReturnMsgs_cons.
  destruct (IH (Store.setReturnMsg msg r)) as (Hmsg & Hf & Hc & Hne).
  unfold Store.setReturnMsg, str_eqb in *.
  destruct (bool_decide_reflect (msg = Store.ignoredMsg)) as [Heq | Hneq];
    cbn [negb] in *.
  - rewrite filter_cons_False by (intros H; by apply H). done.
  - rewrite filter_cons_True by done. rewrite last_cons_default.
    split; [exact Hmsg |]. split; [exact Hf |]. split; [exact Hc |].
    intros _. by apply Hne.
Qed.

(** On the start state and three messages, the last of them ignored. *)
Lemma setReturnMsgs_last_witness :
  Store.returnMsg Store.rig <> Store.ignoredMsg
  /\ Store.returnMsg
       (Store.setReturnMsgs [js "A"; js "B"; Store.ignoredMsg] Store.rig)
     = js "B"
  /\ Store.returnMsg
       (Store.setReturnMsgs [js "A"; js "B"; Store.ignoredMsg] Store.rig)
     <> Store.ignoredMsg.
Proof.
  assert (Hne : Store.returnMsg Store.rig <> Store.ignoredMsg) by discriminate.
  split; [exact Hne |]. split; [reflexivity |].
  exact (proj2 (proj2 (proj2
    (setReturnMsgs_last [js "A"; js "B"; Store.ignoredMsg] Store.rig))) Hne).
Defined.

Lemma pushLogs_eq (calls : list (Z * Store.LogObj)) : forall objs,
  Store.pushLogs calls objs
  = objs ++ ((fun c => Store.stamped (fst c) (snd c)) <$> calls).
Proof.
  induction calls as [| [now obj] calls IH]; intros objs.
  - by rewrite app_nil_r.
  - change (Store.pushLogs ((now, obj) :: calls) objs)
      with (Store.pushLogs calls (Store.pushLog now obj objs)).
    rewrite IH. unfold Store.pushLog. rewrite <- app_assoc. cbn.
    do 2 f_equal. unfold Store.stamped. by destruct obj as [[d |] rst].
Qed.

(** The log only grows at its end: after any calls of [pushLog] the entries
    there were are still the first ones, unchanged; one entry follows for
    each call, in the order of the calls and with the content handed in;
    each of them has a date, its own if it came with one and the time of
    the call otherwise. *)
Theorem pushLogs_appends (calls : list (Z * Store.LogObj))
    (objs : list Store.LogObj) :
  take (length objs) (Store.pushLogs calls objs) = objs
  /\ length (Store.pushLogs calls objs) = (length objs + length calls)%nat
  /\ Store.rest <$> drop (length objs) (Store.pushLogs calls objs)
     = (fun c => Store.rest (snd c)) <$> calls
  /\ Store.date <$> drop (length objs) (Store.pushLogs calls objs)
     = (fun c => Some (default (fst c) (Store.date (snd c)))) <$> calls
  /\ Forall (fun o => is_Some (Store.date o))
       (drop (length objs) (Store.pushLogs calls objs)).
Proof.
  rewrite pushLogs_eq, take_app_length, drop_app_length, length_app, length_fmap.
  split; [done |]. split; [done |].
  rewrite <- !list_fmap_compose.
  split; [done |]. split; [done |].
  apply Forall_fmap, Forall_forall. intros c _. by eexists.
Qed.

(** ** The read loop at the end of a stream and without a reader *)

Section ReadLoopEnds.

Variable decode : list Z -> jsstring.

Tactic Notation "run_to" uconstr(H) :=
  erewrite (final_step _ _ _ _ _ H).

Lemma step_stream_end (r : ReaderRef) (p : Page) :
  reader p = Some r ->
  connect_resume decode Tick (AtReadReturn (Normal (None, true)), p)
  = Some (loopHead (set_reader None (call (CallReleaseLock r) p))).
Proof. intros Hr. cbn. unfold finallyBlock. by rewrite Hr. Qed.

(** When a read ends the stream, the reader is released; the loop then asks
    for a new reader if the port still has a readable stream, and closes the
    port, after the release, if it has none. Nothing is written to the log
    before the port is closed. *)
Theorem stream_end_releases (p : Page) (h : Handle) (r : ReaderRef) :
  port p = Some h -> reader p = Some r ->
  (readable (view p h) = true ->
   final (connect_resume decode) [FulfilledRead None true; Tick] (AtRead, p)
   = (AtGetReader,
      call (CallGetReader h) (set_reader None (call (CallReleaseLock r) p))))
  /\ (readable (view p h) = false ->
      exists q,
        final (connect_resume decode)
          [FulfilledRead None true; Tick; Fulfilled] (AtRead, p)
        = (Returned, q)
        /\ disconnected q /\ reader q = None
        /\ serialOut q = appended (js "<DISCONNECTED>" ++ LF) p
        /\ calls q = calls p ++ [CallReleaseLock r; CallClose h]).
Proof.
  intros Hport Hr.
  split; intros Hread;
    run_to (step_read decode _ _ _); run_to (step_stream_end r p Hr).
  - rewrite (loopHead_readable h) by done. apply final_nil.
  - rewrite (loopHead_unreadable h) by done.
    run_to (step_closed decode _). rewrite final_nil.
    eexists. split; [reflexivity |].
    split; [apply markDisconnected_disconnected |]. split; [done |].
    split; [rewrite serialOut_markDisconnected; reflexivity |].
    page_fields. by rewrite <- !app_assoc.
Qed.

Lemma step_no_reader (message : jsstring) (p : Page) :
  connect_resume decode (Rejected (ErrorObj message)) (AtGetReader, p)
  = Some (AtCatch,
          dumpError (ErrorObj message) LF
            (console_add (ConsoleError (ErrorObj message)) p)).
Proof. reflexivity. Qed.

Lemma step_finally_free (p : Page) :
  reader p = None ->
  connect_resume decode Tick (AtCatch, p) = Some (loopHead p).
Proof. intros Hr. cbn. unfold finallyBlock. by rewrite Hr. Qed.

Lemma readerFailures_S (n : nat) (e : Exn) :
  readerFailures (S n) e = Rejected e :: Tick :: readerFailures n e.
Proof. reflexivity. Qed.

(** As long as the port keeps a readable stream and [getReader()] keeps
    failing with an [Error], the loop neither ends nor waits: after [n]
    failures it is asking for a reader again, with [n] more error lines in
    the log and [n] more calls of [getReader()]. *)
Theorem getReader_failure_repeats (n : nat) (message : jsstring) (h : Handle) :
  forall p : Page,
    port p = Some h -> readable (view p h) = true -> reader p = None ->
    exists q,
      final (connect_resume decode) (readerFailures n (ErrorObj message))
        (AtGetReader, p)
      = (AtGetReader, q)
      /\ serialOut q
         = appended (mjoin (replicate n (errorLine (ErrorObj message) LF))) p
      /\ calls q = calls p ++ replicate n (CallGetReader h)
      /\ port q = Some h /\ reader q = None.
Proof.
  induction n as [| n IH]; intros p Hport Hread Hr.
  - exists p. rewrite final_nil. cbn. by rewrite appended_nil, app_nil_r.
  - rewrite readerFailures_S.
    run_to (step_no_reader message p).
    run_to (step_finally_free
              (dumpError (ErrorObj message) LF
                 (console_add (ConsoleError (ErrorObj message)) p)) Hr).
    rewrite (loopHead_readable h) by done.
    destruct (IH (call (CallGetReader h)
                    (dumpError (ErrorObj message) LF
                       (console_add (ConsoleError (ErrorObj message)) p)))
                Hport Hread Hr)
      as (q & Hfinal & Hout & Hcalls & Hport' & Hr').
    exists q. split; [exact Hfinal |].
    split; [| split; [| done]].
    + rewrite Hout. cbn [replicate mjoin list_join].
      by apply appended_appended.
    + rewrite Hcalls. page_fields. by rewrite <- app_assoc.
Qed.

End ReadLoopEnds.

(** On a connected page whose stream ends while the port stays readable. *)
Lemma stream_end_releases_witness :
  port (connectedPage 7%nat 3%nat) = Some 7%nat
  /\ reader (connectedPage 7%nat 3%nat) = Some 3%nat
  /\ readable (view (connectedPage 7%nat 3%nat) 7%nat) = true
  /\ final (connect_resume decodeAscii) [FulfilledRead None true; Tick]
       (AtRead, connectedPage 7%nat 3%nat)
     = (AtGetReader,
        call (CallGetReader 7%nat)
          (set_reader None
             (call (CallReleaseLock 3%nat) (connectedPage 7%nat 3%nat)))).
Proof.
  split; [reflexivity |]. split; [reflexivity |]. split; [reflexivity |].
  exact (proj1 (stream_end_releases decodeAscii (connectedPage 7%nat 3%nat)
                  7%nat 3%nat eq_refl eq_refl) eq_refl).
Defined.

(** On a ready page whose [getReader()] fails three times. *)
Lemma getReader_failure_repeats_witness :
  port (set_port (Some 7%nat) (readyPage 7%nat)) = Some 7%nat
  /\ readable (view (set_port (Some 7%nat) (readyPage 7%nat)) 7%nat) = true
  /\ reader (set_port (Some 7%nat) (readyPage 7%nat)) = None
  /\ exists q,
       final (connect_resume decodeAscii)
         (readerFailures 3 (ErrorObj (js "no BYOB")))
         (AtGetReader, set_port (Some 7%nat) (readyPage 7%nat))
       = (AtGetReader, q)
       /\ calls q = replicate 3 (CallGetReader 7%nat).
Proof.
  split; [reflexivity |]. split; [reflexivity |]. split; [reflexivity |].
  destruct (getReader_failure_repeats decodeAscii 3 (js "no BYOB") 7%nat
              (set_port (Some 7%nat) (readyPage 7%nat))
              eq_refl eq_refl eq_refl)
    as (q & Hfinal & _ & Hcalls & _).
  exists q. split; [exact Hfinal | exact Hcalls].
Defined.
